(** * WebWallet: a shallow embedding of the wallet core

    The development follows the layout of the repository:

    - [Keychain]    src/core/keychain.ts (isValidAddress, key pair helpers);
    - [Engine]      src/core/transaction.ts (UTXO selection, fee fitting,
                    plain-transfer builder and its simulation);
    - [Vault]       the vault module (encryptVault / decryptVault);
    - [Verifier]    verifyChallengeSignature of src/background/index.ts;
    - [Consent]     the pending-request registries and the approval handlers;
    - [RateLimit]   the unlock rate limiter.

    JavaScript numbers that hold satoshi amounts, counts and millisecond
    clocks are modelled by [Z]: every operation the code applies to them
    (+, -, *, comparison, Math.max, Math.min, Math.round of a quotient by
    1000) is exact on integers as long as the values stay within the safe
    integer range; the adapters accept only safe integers from the network. *)

From Stdlib Require Import ZArith List Lia Bool Ascii String.
From Stdlib Require QArith.
From stdpp Require Import base strings gmap list sorting.

Local Open Scope Z_scope.
#[local] Set Warnings "-clear-no-such-hyp".
#[local] Set Warnings "-register-all".

(** A JavaScript string is a sequence of UTF-16 code units. *)
Definition jsstring : Type := list Z.

Definition code_unit (a : ascii) : Z := Z.of_nat (nat_of_ascii a).

(** The JavaScript string written with the ASCII characters of [s]. *)
Definition js (s : string) : jsstring := map code_unit (list_ascii_of_string s).

(** ** Failures

    The code signals failure by throwing [Error] objects that differ only in
    their message.  Each message of the modelled functions is a constructor. *)

Inductive error : Type :=
  | InsufficientFunds (have need : Z)
      (* `Insufficient funds: have ${total} sat, need ${targetSat} sat` *)
  | InvalidAmount          (* 'Invalid amount: must be a positive safe integer' *)
  | InvalidRecipient       (* 'Invalid recipient address' *)
  | NoUtxosAvailable       (* 'No UTXOs available' *)
  | InsufficientAfterFee (have need : Z)
      (* `Insufficient funds after fee: have ${total}, need ${amountSat + fee}` *)
  | VerificationFailedAddress (decoded requested : jsstring)
      (* `TX verification failed: output address ... does not match ...` *)
  | VerificationFailedValue (found requested : Z)
      (* `TX verification failed: output value ... does not match ...` *)
  | VendorError            (* anything thrown inside the vendored library *)
  | InvalidCharacterError  (* atob on a string that is not base64 *)
  | OperationError.        (* crypto.subtle.decrypt rejecting *)

Inductive result (A : Type) : Type :=
  | Ok (a : A)
  | Err (e : error).
Arguments Ok {A} a.
Arguments Err {A} e.

#[global] Instance result_ret : MRet result := fun A a => Ok a.
#[global] Instance result_bind : MBind result := fun A B k r =>
  match r with
  | Ok a => k a
  | Err e => Err e
  end.

Definition of_option {A : Type} (o : option A) (e : error) : result A :=
  match o with
  | Some a => Ok a
  | None => Err e
  end.

(** ** Shared data (src/shared/types.ts) *)

Record UTXO : Type := mkUTXO {
  tx_hash : jsstring;
  tx_pos : Z;
  height : Z;
  value : Z              (* satoshis *)
}.

Definition Buffer : Type := list Z.   (* a byte buffer, one [Z] in 0..255 per byte *)

(** ** The vendored library (@bitgo/utxo-lib, VerusCoin fork)

    The wallet only calls the library, so the library is an interface.  A
    member of type [option] returns [None] where the library throws.  The transaction builder is the record of the calls made on it
    ([TxBuilder]); what [build] makes of them is the library's business. *)

Record TxIn : Type := mkTxIn {
  in_hash : jsstring;
  in_index : Z;
  in_sequence : Z;
  in_prevOutScript : Buffer
}.

Record TxOut : Type := mkTxOut {
  script : Buffer;
  out_value : Z
}.

Record Transaction : Type := mkTx {
  ins : list TxIn;
  outs : list TxOut
}.

Record SignCall : Type := mkSign {
  sign_vin : nat;
  sign_hashType : Z;
  sign_witnessValue : Z
}.

Record TxBuilder : Type := mkTxb {
  b_version : Z;
  b_versionGroupId : Z;
  b_expiryHeight : Z;
  b_inputs : list TxIn;
  b_outputs : list (jsstring * Z);     (* addOutput(address, value) *)
  b_signs : list SignCall
}.

Class UtxoLib : Type := {
  KeyPair : Type;
  pubKeyHash : Z;                          (* VERUS_NETWORK.pubKeyHash *)
  scriptHash : Z;                          (* VERUS_NETWORK.scriptHash *)
  fromBase58Check : jsstring → option (Z * Buffer);   (* version, hash *)
  fromWIF : jsstring → option KeyPair;     (* ECPair.fromWIF(wif, VERUS_NETWORK) *)
  getAddress : KeyPair → jsstring;
  getPublicKeyBuffer : KeyPair → Buffer;
  hash160 : Buffer → Buffer;
  pubKeyHash_output_encode : Buffer → Buffer;   (* script.pubKeyHash.output.encode *)
  toOutputScript : jsstring → option Buffer;    (* address.toOutputScript *)
  fromOutputScript : Buffer → option jsstring;  (* address.fromOutputScript *)
  build : KeyPair → TxBuilder → option Transaction;
  toHex : Transaction → jsstring
}.

Definition DEFAULT_SEQUENCE : Z := 4294967295.   (* Transaction.DEFAULT_SEQUENCE *)
Definition SIGHASH_ALL : Z := 1.                 (* Transaction.SIGHASH_ALL *)


(** ** Keychain (src/core/keychain.ts) *)

Module Keychain.

(** The work [isValidAddress] spends on its argument, in order. *)
Inductive work : Type :=
  | RegexTest (s : jsstring)
  | Base58CheckDecode (s : jsstring).

(** [/^[\x20-\x7E]+$/.test(address)] *)
Definition printable (c : Z) : bool := (32 <=? c) && (c <=? 126).
Definition SAFE_RE_test (address : jsstring) : bool :=
  match address with
  | [] => false
  | _ => forallb printable address
  end.

Section WithLib.
Context `{UtxoLib}.

(** The body of the [try] block, with the work it performs. *)
Definition isValidAddress_try (address : jsstring) : list work * result bool :=
  if negb (SAFE_RE_test address) then ([RegexTest address], Ok false)
  else
    ([RegexTest address; Base58CheckDecode address],
     decoded ← of_option (fromBase58Check address) VendorError;
     Ok ((decoded.1 =? pubKeyHash) || (decoded.1 =? scriptHash))).

(** [try { ... } catch { return false; }] *)
Definition isValidAddress_run (address : jsstring) : list work * bool :=
  let '(w, r) := isValidAddress_try address in
  (w, match r with Ok b => b | Err _ => false end).

Definition isValidAddress (address : jsstring) : bool :=
  (isValidAddress_run address).2.

Definition keyPairFromWIF (wif : jsstring) : result KeyPair :=
  of_option (fromWIF wif) VendorError.

Definition scriptPubKeyFromWIF (wif : jsstring) : result Buffer :=
  kp ← keyPairFromWIF wif;
  let pk := hash160 (getPublicKeyBuffer kp) in
  Ok (pubKeyHash_output_encode pk).

End WithLib.
End Keychain.

Module Engine.
Import Keychain.

(** *** Constants and the size model (transaction.ts, lines 12-18) *)

Definition DUST_THRESHOLD : Z := 1000.
Definition MIN_FEE : Z := 10000.

Definition estimateTxSize (inputCount outputCount : Z) : Z :=
  inputCount * 148 + outputCount * 34 + 10.

(** [Math.round(n / 1000)] for an integer [n]: rounding to the nearest
    integer, ties towards +infinity. *)
Definition round_div_1000 (n : Z) : Z := (n + 500) / 1000.

(** [Math.max(Math.round(size * feeRate / 1000), MIN_FEE)] *)
Definition feeFor (size feeRate : Z) : Z :=
  Z.max (round_div_1000 (size * feeRate)) MIN_FEE.

(** *** selectUTXOs (transaction.ts, lines 23-40) *)

(** [[...utxos].sort((a, b) => b.value - a.value)]: the sort of an array is
    stable, so its result is the unique arrangement by descending value that
    keeps equal values in their original order.  [insert_desc u l] places
    [u], which precedes every element of [l] in the original array, behind
    the elements of [l] that are strictly larger and before all others. *)
Fixpoint insert_desc (u : UTXO) (l : list UTXO) : list UTXO :=
  match l with
  | [] => [u]
  | v :: l' => if value u <? value v then v :: insert_desc u l' else u :: v :: l'
  end.

Definition sort_desc (utxos : list UTXO) : list UTXO :=
  foldr (fun u acc => insert_desc u acc) [] utxos.

Definition sum_values (l : list UTXO) : Z :=
  foldr (fun u acc => value u + acc) 0 l.


(** The [for (const u of sorted)] loop with its [break]; [selected] and
    [total] are the two variables the loop updates. *)
Fixpoint accumulate (sorted selected : list UTXO) (total targetSat : Z)
  : list UTXO * Z :=
  match sorted with
  | [] => (selected, total)
  | u :: rest =>
      let selected' := selected ++ [u] in
      let total' := total + value u in
      if total' >=? targetSat then (selected', total')
      else accumulate rest selected' total' targetSat
  end.

Definition selectUTXOs (utxos : list UTXO) (targetSat : Z)
  : result (list UTXO * Z) :=
  let sorted := sort_desc utxos in
  let '(selected, total) := accumulate sorted [] 0 targetSat in
  if total <? targetSat then Err (InsufficientFunds total targetSat)
  else Ok (selected, total).

(** *** The fee-fitting loop (transaction.ts, lines 186-196; the same text is
    in simulateTransaction, lines 108-121)

    [FitState] holds the three variables the loop updates.  [fees] is ghost
    state: the values the variable [fee] has taken so far, oldest first. *)

Record FitState : Type := mkFit {
  fit_fee : Z;
  fit_selected : list UTXO;
  fit_total : Z
}.

Definition outputCountEstimate : Z := 2.   (* const outputCount = 2 *)

(** [n] is the number of iterations left of [for (let i = 0; i < 5; i++)].
    The result pairs the fee history with the outcome; a throw of
    [selectUTXOs] leaves the loop with the fee already updated. *)
Fixpoint feeLoop (n : nat) (utxos : list UTXO) (amountSat feeRate : Z)
    (fees : list Z) (st : FitState) : list Z * result FitState :=
  match n with
  | O => (fees, Ok st)
  | S n' =>
      let size := estimateTxSize (Z.of_nat (length (fit_selected st))) outputCountEstimate in
      let newFee := feeFor size feeRate in
      if newFee <=? fit_fee st then (fees, Ok st)
      else
        let fee := newFee in
        match selectUTXOs utxos (amountSat + fee) with
        | Err e => (fees ++ [fee], Err e)
        | Ok (selected, total) =>
            feeLoop n' utxos amountSat feeRate (fees ++ [fee]) (mkFit fee selected total)
        end
  end.

(** [let fee = MIN_FEE; let {selected, total} = selectUTXOs(utxos, amountSat + fee);]
    followed by the loop. *)
Definition fitFee (utxos : list UTXO) (amountSat feeRate : Z)
  : list Z * result FitState :=
  let fee := MIN_FEE in
  match selectUTXOs utxos (amountSat + fee) with
  | Err e => ([fee], Err e)
  | Ok (selected, total) =>
      feeLoop 5 utxos amountSat feeRate [fee] (mkFit fee selected total)
  end.


(** The number of calls of [selectUTXOs] made inside the loop: one per
    update of [fee]. *)
Definition reselections (fees : list Z) : nat := Nat.pred (length fees).



(** [Number.isSafeInteger(amountSat)] on an integer *)
Definition isSafeInteger (n : Z) : bool := Z.abs n <=? 9007199254740991.

Definition verification_failure (e : error) : bool :=
  match e with
  | VerificationFailedAddress _ _ | VerificationFailedValue _ _ => true
  | _ => false
  end.

(** *** simulateTransaction (transaction.ts, lines 83-158)

    The two network reads, [listUnspent(scripthash)] and [fetchFeeRate()],
    are the arguments [utxos] and [feeRate].  The warnings are kept by kind,
    not by text. *)

Inductive warning : Type :=
  | WInvalidAmount
  | WInvalidRecipient
  | WNoUtxos
  | WInsufficientFunds
  | WInsufficientAfterFee
  | WHighFee
  | WDustChange (change : Z)
  | WEntireBalance.

Record TransactionSimulation : Type := mkSim {
  valid : bool;
  amountSat : Z;
  feeSat : Z;
  changeSat : Z;
  inputCount : Z;
  outputCount : Z;
  totalInputSat : Z;
  balanceAfterSat : Z;
  warnings : list warning
}.

Definition last_fee (fees : list Z) : Z := List.last fees MIN_FEE.

Section WithLib.
Context `{UtxoLib}.

Definition simulateTransaction (utxos : list UTXO) (feeRate : Z)
    (toAddress : jsstring) (amountSat totalBalanceSat : Z) : TransactionSimulation :=
  if negb (isSafeInteger amountSat) || (amountSat <=? 0) then
    mkSim false amountSat 0 0 0 0 0 totalBalanceSat [WInvalidAmount]
  else if negb (isValidAddress toAddress) then
    mkSim false amountSat 0 0 0 0 0 totalBalanceSat [WInvalidRecipient]
  else if (length utxos =? 0)%nat then
    mkSim false amountSat 0 0 0 0 0 totalBalanceSat [WNoUtxos]
  else
    match fitFee utxos amountSat feeRate with
    | (fees, Err _) =>
        (* catch: [fee] holds its last value *)
        mkSim false amountSat (last_fee fees) 0 0 0 0 totalBalanceSat
              [WInsufficientFunds]
    | (_, Ok (mkFit fee selected total)) =>
        let change := total - amountSat - fee in
        if change <? 0 then
          mkSim false amountSat fee 0 (Z.of_nat (length selected)) outputCountEstimate
                total totalBalanceSat [WInsufficientAfterFee]
        else
          let actualOutputCount := if change >? DUST_THRESHOLD then 2 else 1 in
          let effectiveFee := if change >? DUST_THRESHOLD then fee else fee + change in
          (* effectiveFee > amountSat * 0.1, on integers *)
          let w1 := if (amountSat <? 10 * effectiveFee) && (amountSat >? 0)
                    then [WHighFee] else [] in
          let w2 := if (change >? 0) && (change <=? DUST_THRESHOLD)
                    then [WDustChange change] else [] in
          let w3 := if amountSat =? totalBalanceSat then [WEntireBalance] else [] in
          let balanceAfter := totalBalanceSat - amountSat - effectiveFee in
          mkSim true amountSat effectiveFee
                (if change >? DUST_THRESHOLD then change else 0)
                (Z.of_nat (length selected)) actualOutputCount total
                (Z.max 0 balanceAfter) (w1 ++ w2 ++ w3)
    end.

(** *** buildTransaction (transaction.ts, lines 163-254)

    [BuildState] is what the function holds when it returns: the selection,
    its total, the fee the loop fitted, the local variable [fee] at the end
    (after change folding), the change and the built transaction. *)

Record BuildState : Type := mkBuild {
  bs_selected : list UTXO;
  bs_total : Z;
  bs_fittedFee : Z;
  bs_fee : Z;
  bs_change : Z;
  bs_sender : jsstring;
  bs_tx : Transaction
}.

(** [for (const utxo of selected) txb.addInput(utxo.tx_hash, utxo.tx_pos, DEFAULT_SEQUENCE, spk)] *)
Definition addInputs (spk : Buffer) (selected : list UTXO) : list TxIn :=
  map (fun u => mkTxIn (tx_hash u) (tx_pos u) DEFAULT_SEQUENCE spk) selected.

(** [for (let i = 0; i < selected.length; i++) txb.sign(i, keyPair, null, hashType, selected[i].value)] *)
Definition signAll (selected : list UTXO) : list SignCall :=
  imap (fun i u => mkSign i SIGHASH_ALL (value u)) selected.

(** The post-build verification of output 0 (lines 237-246). *)
Definition verifyBuilt (tx : Transaction) (toAddress : jsstring) (amountSat : Z)
  : result unit :=
  recipientOut ← of_option (head (outs tx)) VendorError;
  decodedAddr ← of_option (fromOutputScript (script recipientOut)) VendorError;
  if negb (bool_decide (decodedAddr = toAddress)) then
    Err (VerificationFailedAddress decodedAddr toAddress)
  else if negb (out_value recipientOut =? amountSat) then
    Err (VerificationFailedValue (out_value recipientOut) amountSat)
  else Ok ().

(** Everything up to [txb.build()]: the builder the code hands to the
    library, with the key pair and the local variables. *)
Definition prepare (wif : jsstring) (utxos : list UTXO) (feeRate : Z)
    (toAddress : jsstring) (amountSat : Z)
  : result (KeyPair * TxBuilder * (list UTXO * Z * Z * Z * Z)) :=
  if negb (isSafeInteger amountSat) || (amountSat <=? 0) then Err InvalidAmount
  else if negb (isValidAddress toAddress) then Err InvalidRecipient
  else if (length utxos =? 0)%nat then Err NoUtxosAvailable
  else
    '(mkFit fee selected total) ← (fitFee utxos amountSat feeRate).2;
    let change := total - amountSat - fee in
    if change <? 0 then Err (InsufficientAfterFee total (amountSat + fee))
    else
      keyPair ← keyPairFromWIF wif;
      spk ← scriptPubKeyFromWIF wif;
      let senderAddress := getAddress keyPair in
      let inputs := addInputs spk selected in
      let recipient := [(toAddress, amountSat)] in
      let '(outputs, fee') :=
        if change >? DUST_THRESHOLD
        then (recipient ++ [(senderAddress, change)], fee)
        else (recipient, fee + change) in
      let txb := mkTxb 4 2301567109 0 inputs outputs (signAll selected) in
      Ok (keyPair, txb, (selected, total, fee, fee', change)).

Definition buildTransaction_state (wif : jsstring) (utxos : list UTXO)
    (feeRate : Z) (toAddress : jsstring) (amountSat : Z) : result BuildState :=
  '(keyPair, txb, (selected, total, fee, fee', change)) ←
      prepare wif utxos feeRate toAddress amountSat;
  tx ← of_option (build keyPair txb) VendorError;
  _ ← verifyBuilt tx toAddress amountSat;
  Ok (mkBuild selected total fee fee' change (getAddress keyPair) tx).

(** [return tx.toHex()] *)
Definition buildTransaction (wif : jsstring) (utxos : list UTXO)
    (feeRate : Z) (toAddress : jsstring) (amountSat : Z) : result jsstring :=
  st ← buildTransaction_state wif utxos feeRate toAddress amountSat;
  Ok (toHex (bs_tx st)).

End WithLib.

End Engine.


(** ** Vault (the vault module: encryptVault / decryptVault)

    *** The platform

    [TextEncoder], [TextDecoder], [btoa], [atob] and [crypto.subtle] belong
    to the browser.  The two text codecs are written out after the Encoding
    standard, since what the vault returns depends on how they treat
    strings that are not well formed.  Base64 and the ciphers are an
    interface. *)

Module Vault.

Definition is_byte (b : Z) : Prop := 0 ≤ b < 256.

Definition is_high (c : Z) : bool := (55296 <=? c) && (c <=? 56319).    (* D800..DBFF *)
Definition is_low (c : Z) : bool := (56320 <=? c) && (c <=? 57343).     (* DC00..DFFF *)

Definition REPLACEMENT : Z := 65533.    (* U+FFFD *)
Definition BOM : Z := 65279.            (* U+FEFF *)


(** UTF-8 of a scalar value *)
Definition utf8 (cp : Z) : Buffer :=
  if cp <? 128 then [cp]
  else if cp <? 2048 then [192 + cp / 64; 128 + cp mod 64]
  else if cp <? 65536 then
    [224 + cp / 4096; 128 + (cp / 64) mod 64; 128 + cp mod 64]
  else
    [240 + cp / 262144; 128 + (cp / 4096) mod 64;
     128 + (cp / 64) mod 64; 128 + cp mod 64].

(** [new TextEncoder().encode(s)]: a surrogate pair is one scalar value, a
    surrogate on its own is replaced by U+FFFD. *)
Fixpoint TextEncoder_encode (s : jsstring) : Buffer :=
  match s with
  | [] => []
  | c :: rest =>
      if is_high c then
        match rest with
        | d :: rest' =>
            if is_low d
            then utf8 (65536 + (c - 55296) * 1024 + (d - 56320)) ++ TextEncoder_encode rest'
            else utf8 REPLACEMENT ++ TextEncoder_encode rest
        | [] => utf8 REPLACEMENT
        end
      else if is_low c then utf8 REPLACEMENT ++ TextEncoder_encode rest
      else utf8 c ++ TextEncoder_encode rest
  end.

(** The code units of a scalar value *)
Definition utf16 (cp : Z) : jsstring :=
  if cp <? 65536 then [cp]
  else [55296 + (cp - 65536) / 1024; 56320 + (cp - 65536) mod 1024].

(** The state of the UTF-8 decoder: the code point under construction, the
    continuation bytes still needed, and the bounds on the next byte. *)
Record Utf8State : Type := mkUtf8 {
  code_point : Z;
  bytes_needed : nat;
  lower_boundary : Z;
  upper_boundary : Z
}.

Definition utf8_start : Utf8State := mkUtf8 0 0 128 191.

(** A byte met with no bytes needed: the code point it is, or the state it
    opens, or an error. *)
Definition lead (b : Z) : jsstring * Utf8State :=
  if (0 <=? b) && (b <=? 127) then ([b], utf8_start)
  else if (194 <=? b) && (b <=? 223) then ([], mkUtf8 (b mod 32) 1 128 191)
  else if (224 <=? b) && (b <=? 239) then
    ([], mkUtf8 (b mod 16) 2 (if b =? 224 then 160 else 128)
                              (if b =? 237 then 159 else 191))
  else if (240 <=? b) && (b <=? 244) then
    ([], mkUtf8 (b mod 8) 3 (if b =? 240 then 144 else 128)
                             (if b =? 244 then 143 else 191))
  else ([REPLACEMENT], utf8_start).

(** One byte through the decoder: the code units emitted and the next
    state.  A byte outside the bounds ends the sequence with U+FFFD and is
    read again as a lead byte. *)
Definition utf8_step (st : Utf8State) (b : Z) : jsstring * Utf8State :=
  match bytes_needed st with
  | O => lead b
  | S n =>
      if (lower_boundary st <=? b) && (b <=? upper_boundary st) then
        let cp := code_point st * 64 + b mod 64 in
        match n with
        | O => (utf16 cp, utf8_start)
        | S _ => ([], mkUtf8 cp n 128 191)
        end
      else
        let '(out, st') := lead b in (REPLACEMENT :: out, st')
  end.

Fixpoint utf8_decode (st : Utf8State) (bytes : Buffer) : jsstring :=
  match bytes with
  | [] => match bytes_needed st with O => [] | S _ => [REPLACEMENT] end
  | b :: rest =>
      let '(out, st') := utf8_step st b in out ++ utf8_decode st' rest
  end.

(** [new TextDecoder().decode(bytes)]: UTF-8, errors replaced, and a
    leading U+FEFF left out. *)
Definition TextDecoder_decode (bytes : Buffer) : jsstring :=
  match utf8_decode utf8_start bytes with
  | c :: rest => if c =? BOM then rest else c :: rest
  | [] => []
  end.


Class WebPlatform : Type := {
  CryptoKey : Type;
  (* btoa(String.fromCharCode(...bytes)) *)
  btoa_bytes : Buffer → jsstring;
  (* Uint8Array.from(atob(encoded), c => c.charCodeAt(0)); None: atob throws *)
  atob_bytes : jsstring → option Buffer;
  sha256 : Buffer → Buffer;
  (* PBKDF2 with HMAC-SHA-256 from the 64-byte HMAC key block, giving an
     AES-GCM key of 256 bits *)
  pbkdf2_hmac_sha256 : Buffer → Buffer → Z → CryptoKey;
  (* crypto.subtle.encrypt({ name: 'AES-GCM', iv }, key, data) *)
  aes_gcm_encrypt : CryptoKey → Buffer → Buffer → Buffer;
  (* crypto.subtle.decrypt(...); None: it rejects with an OperationError *)
  aes_gcm_decrypt : CryptoKey → Buffer → Buffer → option Buffer
}.

(** What the vault relies on: base64 decodes what it encoded, AES-GCM
    returns bytes and decrypts what it encrypted under the same key and
    nonce. *)
Record platform_laws `{WebPlatform} : Prop := {
  atob_btoa : ∀ bytes, Forall is_byte bytes → atob_bytes (btoa_bytes bytes) = Some bytes;
  gcm_bytes : ∀ k iv data,
    Forall is_byte data → Forall is_byte (aes_gcm_encrypt k iv data);
  gcm_inverse : ∀ k iv data, aes_gcm_decrypt k iv (aes_gcm_encrypt k iv data) = Some data
}.

(** *** The module *)

Definition PBKDF2_ITERATIONS : Z := 900000.
Definition SALT_LENGTH : nat := 16.
Definition IV_LENGTH : nat := 12.

Section WithPlatform.
Context `{WebPlatform}.

(** PBKDF2 uses the password only as the key of HMAC, and HMAC uses its key
    only through the block of 64 bytes made from it: the key itself, or its
    hash when it is longer than a block, filled up with zero bytes
    (RFC 2104, section 2). *)
Definition hmac_key_block (key : Buffer) : Buffer :=
  let k := if (64 <? length key)%nat then sha256 key else key in
  k ++ replicate (64 - length k) 0.

(** [importKey('raw', enc.encode(password), 'PBKDF2', ...)] then
    [deriveKey({ name: 'PBKDF2', salt, iterations, hash: 'SHA-256' }, ...)] *)
Definition deriveKey (password : jsstring) (salt : Buffer) (iterations : Z)
  : CryptoKey :=
  let keyMaterial := TextEncoder_encode password in
  pbkdf2_hmac_sha256 (hmac_key_block keyMaterial) salt iterations.

(** [salt] and [iv] are the two results of [crypto.getRandomValues]. *)
Definition encryptVault (plaintext password : jsstring) (salt iv : Buffer)
  : jsstring :=
  let key := deriveKey password salt PBKDF2_ITERATIONS in
  let ciphertext := aes_gcm_encrypt key iv (TextEncoder_encode plaintext) in
  let result := salt ++ iv ++ ciphertext in
  btoa_bytes result.

Definition decryptVault (encoded password : jsstring) (iterations : Z)
  : result jsstring :=
  data ← of_option (atob_bytes encoded) InvalidCharacterError;
  let salt := take SALT_LENGTH data in
  let iv := take IV_LENGTH (drop SALT_LENGTH data) in
  let ciphertext := drop (SALT_LENGTH + IV_LENGTH) data in
  let key := deriveKey password salt iterations in
  plaintext ← of_option (aes_gcm_decrypt key iv ciphertext) OperationError;
  Ok (TextDecoder_decode plaintext).

End WithPlatform.

End Vault.

(** ** Challenge signature verification
    (src/background/index.ts, verifyChallengeSignature)

    The request parser, the challenge hash and the secp256k1 recovery come
    from verus-typescript-primitives and @noble/curves; they are an
    interface, with [None] where they throw or yield nothing. *)

Class SigLib : Type := {
  LoginConsentRequest : Type;
  PublicKey : Type;
  fromWalletDeeplinkUri : jsstring → option LoginConsentRequest;
  request_signature : LoginConsentRequest → option jsstring;  (* request.signature?.signature *)
  base64_decode : jsstring → Buffer;                          (* Buffer.from(s, 'base64') *)
  getChallengeHash : LoginConsentRequest → Z → Z → option Buffer;
  (* Signature.fromCompact(sig).addRecoveryBit(bit).recoverPublicKey(hash) *)
  recoverPublicKey : Buffer → Z → Buffer → option PublicKey;
  toRawBytes : PublicKey → bool → Buffer;
  toBase58Check : Buffer → Z → jsstring                       (* utxoLib.address.toBase58Check *)
}.

Module Verifier.

(** [buf.readUInt8(offset)] and [buf.readUInt32LE(offset)]: out of range they
    throw, which the outer [catch] turns into [false]. *)
Definition readUInt8 (buf : Buffer) (offset : nat) : option Z := buf !! offset.

Definition readUInt32LE (buf : Buffer) (offset : nat) : option Z :=
  b0 ← buf !! offset;
  b1 ← buf !! (offset + 1)%nat;
  b2 ← buf !! (offset + 2)%nat;
  b3 ← buf !! (offset + 3)%nat;
  Some (b0 + b1 * 256 + b2 * 65536 + b3 * 16777216).

(** [buf.slice(start, end)] for [start <= end] *)
Definition slice (buf : Buffer) (start stop : nat) : Buffer :=
  take (stop - start) (drop start buf).

Record IdentitySignature : Type := mkIdSig {
  sigVersion : Z;
  sigBlockHeight : Z;
  recoveryBit : Z;
  compressed : bool;
  compactSig : Buffer              (* r || s *)
}.

(** The decoding of the IdentitySignature buffer, lines 277-314; [None]
    stands for every [return false] and every throw on the way. *)
Definition decodeSignature (sigBuf : Buffer) : option IdentitySignature :=
  let offset := 0%nat in
  sigVersion ← readUInt8 sigBuf offset;
  let offset := (offset + 1)%nat in
  if negb (sigVersion =? 1) && negb (sigVersion =? 2) then None
  else
    let offset := if sigVersion =? 2 then (offset + 1)%nat else offset in
    sigBlockHeight ← readUInt32LE sigBuf offset;
    let offset := (offset + 4)%nat in
    numSigs ← readUInt8 sigBuf offset;
    let offset := (offset + 1)%nat in
    if numSigs <? 1 then None
    else
      sigLen ← readUInt8 sigBuf offset;
      let offset := (offset + 1)%nat in
      if negb (sigLen =? 65) || (Z.of_nat (length sigBuf) <? Z.of_nat offset + sigLen)
      then None
      else
        let compactSigBuf := slice sigBuf offset (offset + 65) in
        recoveryFlag ← compactSigBuf !! 0%nat;
        let compactSig := drop 1 compactSigBuf in
        if (31 <=? recoveryFlag) && (recoveryFlag <=? 34)
        then Some (mkIdSig sigVersion sigBlockHeight (recoveryFlag - 31) true compactSig)
        else if (27 <=? recoveryFlag) && (recoveryFlag <=? 30)
        then Some (mkIdSig sigVersion sigBlockHeight (recoveryFlag - 27) false compactSig)
        else None.

(** [searchHeights]: the signed height, then for d = 1..5 the height plus d
    and, when it is positive, the height minus d. *)
Definition searchHeights (sigBlockHeight : Z) : list Z :=
  sigBlockHeight ::
  flat_map (fun d => (sigBlockHeight + d) ::
                     (if sigBlockHeight - d >? 0 then [sigBlockHeight - d] else []))
           [1; 2; 3; 4; 5].

(** The heights the search covers around a signed height [H]. *)
Definition searched (H h : Z) : Prop :=
  h = H ∨ ∃ d, 1 ≤ d ≤ 5 ∧ (h = H + d ∨ (h = H - d ∧ 0 < h)).

(** The same in the words of the specification: the signed height and the
    signed height plus or minus 1 to 5, negative heights skipped. *)
Definition searched_as_stated (H h : Z) : Prop :=
  h = H ∨ ∃ d, 1 ≤ d ≤ 5 ∧ (h = H + d ∨ (h = H - d ∧ 0 ≤ h)).

(** [[sigVersion, sigVersion === 2 ? 1 : 2]] *)
Definition hashVersions (sigVersion : Z) : list Z :=
  [sigVersion; if sigVersion =? 2 then 1 else 2].

Section WithLibs.
Context `{UtxoLib} `{SigLib}.

(** The body of the inner [try]: the address recovered for one height and
    one hash version, [None] when anything in it throws. *)
Definition recoveredAddress (request : LoginConsentRequest) (sig : IdentitySignature)
    (h hashVersion : Z) : option jsstring :=
  hash ← getChallengeHash request h hashVersion;
  recoveredPubkey ← recoverPublicKey (compactSig sig) (recoveryBit sig) hash;
  let pubkeyBytes := toRawBytes recoveredPubkey (compressed sig) in
  let pkh := hash160 pubkeyBytes in
  Some (toBase58Check pkh pubKeyHash).

(** [primaryAddresses.includes(recoveredAddress)] on one candidate *)
Definition matches (primaryAddresses : list jsstring) (request : LoginConsentRequest)
    (sig : IdentitySignature) (hv : Z * Z) : bool :=
  match recoveredAddress request sig hv.2 hv.1 with
  | Some a => bool_decide (a ∈ primaryAddresses)
  | None => false
  end.

(** The two nested loops, hash versions outside, heights inside, in the
    order the candidates are tried. *)
Definition candidates (sig : IdentitySignature) : list (Z * Z) :=
  hashVersion ← hashVersions (sigVersion sig);
  h ← searchHeights (sigBlockHeight sig);
  [(hashVersion, h)].

(** [identity] is what [verusid.getIdentity(requestingId)] answers with:
    [None] when the lookup throws, otherwise the list
    [identityResult?.identity?.primaryaddresses ?? []]. *)
Definition verifyChallengeSignature (uri : jsstring)
    (identity : option (list jsstring)) : bool :=
  match fromWalletDeeplinkUri uri with
  | None => false
  | Some request =>
      match request_signature request with
      | None | Some [] => false
      | Some signature =>
          match identity with
          | None | Some [] => false
          | Some primaryAddresses =>
              match decodeSignature (base64_decode signature) with
              | None => false
              | Some sig =>
                  existsb (matches primaryAddresses request sig) (candidates sig)
              end
          end
      end
  end.

End WithLibs.

End Verifier.

(** ** Unlock rate limiting (src/background/index.ts, lines 108-141 and the
    UNLOCK_WALLET and GET_MNEMONIC handlers)

    The counter lives in [chrome.storage.local] under the key
    [_unlockAttempts]; [None] is the absent key. *)

Module RateLimit.

Definition MAX_ATTEMPTS_BEFORE_LOCKOUT : Z := 5.
Definition BASE_LOCKOUT_MS : Z := 5000.
Definition MAX_LOCKOUT_MS : Z := 60 * 60000.

Record Attempts : Type := mkAttempts {
  count : Z;
  lastFailedAt : Z
}.

Definition Storage : Type := option Attempts.

(** [attempts?.count ?? 0] *)
Definition counter (s : Storage) : Z := from_option count 0 s.

(** [Math.min(BASE_LOCKOUT_MS * Math.pow(2, count - MAX_ATTEMPTS_BEFORE_LOCKOUT), MAX_LOCKOUT_MS)],
    evaluated only for [count >= 5]. *)
Definition lockoutMs (count : Z) : Z :=
  Z.min (BASE_LOCKOUT_MS * 2 ^ (count - MAX_ATTEMPTS_BEFORE_LOCKOUT)) MAX_LOCKOUT_MS.

(** [Math.ceil(n / 1000)] for an integer [n] *)
Definition ceil_div_1000 (n : Z) : Z := (n + 999) / 1000.

(** The result is the number of seconds in the lockout message
    `Too many failed attempts. Try again in ${remainingSec}s`, or [None] for
    [null].  [now] is the value of [Date.now()]. *)
Definition checkUnlockRateLimit (now : Z) (s : Storage) : option Z :=
  match s with
  | None => None
  | Some attempts =>
      if count attempts <? MAX_ATTEMPTS_BEFORE_LOCKOUT then None
      else
        let lockout := lockoutMs (count attempts) in
        let elapsed := now - lastFailedAt attempts in
        if elapsed <? lockout then Some (ceil_div_1000 (lockout - elapsed))
        else None
  end.

Definition recordFailedUnlock (now : Z) (s : Storage) : Storage :=
  Some (mkAttempts (counter s + 1) now).

Definition resetUnlockAttempts (s : Storage) : Storage := None.

(** What a handler answers. *)
Inductive response : Type :=
  | LockedOut (remainingSec : Z)     (* fail(lockoutMsg) *)
  | NoWalletFound                    (* fail('No wallet found') *)
  | Unlocked                         (* ok(...) *)
  | IncorrectPassword.               (* fail('Incorrect password') *)

(** How the [try] block of a handler ends: the decryption (or the parse
    after it) throws, a later statement throws, or the block returns. *)
Inductive outcome : Type :=
  | DecryptThrows
  | LaterThrows
  | Returns.

(** One request: the clock at the rate-limit check and at the failure
    record, whether a vault is stored, and how the [try] block ends. *)
Record Request : Type := mkRequest {
  checkedAt : Z;
  recordedAt : Z;
  vaultStored : bool;
  tryBlock : outcome
}.

(** [case 'UNLOCK_WALLET']: the counter is reset as the last await of the
    [try] block, after the session is stored. *)
Definition UNLOCK_WALLET (r : Request) (s : Storage) : response * Storage :=
  match checkUnlockRateLimit (checkedAt r) s with
  | Some remainingSec => (LockedOut remainingSec, s)
  | None =>
      if negb (vaultStored r) then (NoWalletFound, s)
      else
        match tryBlock r with
        | Returns => (Unlocked, resetUnlockAttempts s)
        | DecryptThrows | LaterThrows =>
            (IncorrectPassword, recordFailedUnlock (recordedAt r) s)
        end
  end.

(** [case 'GET_MNEMONIC']: the counter is reset right after the decryption
    and the parse, before the mnemonic is rebuilt. *)
Definition GET_MNEMONIC (r : Request) (s : Storage) : response * Storage :=
  match checkUnlockRateLimit (checkedAt r) s with
  | Some remainingSec => (LockedOut remainingSec, s)
  | None =>
      if negb (vaultStored r) then (NoWalletFound, s)
      else
        match tryBlock r with
        | Returns => (Unlocked, resetUnlockAttempts s)
        | LaterThrows =>
            (IncorrectPassword,
             recordFailedUnlock (recordedAt r) (resetUnlockAttempts s))
        | DecryptThrows =>
            (IncorrectPassword, recordFailedUnlock (recordedAt r) s)
        end
  end.



End RateLimit.

(** ** Pending requests and their approval (src/background/index.ts)

    [pendingLogins] and [pendingSends] are the two module-level maps.  A
    handler runs from one [await] to the next without interruption, so a call
    of [handleMessage] is a sequence of segments; the segments of two calls
    interleave in any order. *)

Module Consent.

Definition PENDING_LOGIN_TTL_MS : Z := 5 * 60000.

Record PendingLogin : Type := mkLogin {
  login_createdAt : Z;
  login_tabId : Z;
  login_uri : jsstring;
  signatureVerified : option bool       (* [None] is [undefined] *)
}.

Record PendingSend : Type := mkSend {
  send_createdAt : Z;
  send_tabId : Z;
  send_to : jsstring;
  send_amount : Z;
  send_currency : jsstring
}.

Record Registries : Type := mkRegs {
  pendingLogins : gmap string PendingLogin;
  pendingSends : gmap string PendingSend
}.

(** [if (now - entry.createdAt > PENDING_LOGIN_TTL_MS) map.delete(id)], over
    both maps. *)
Definition purgeExpiredRequests (now : Z) (regs : Registries) : Registries :=
  mkRegs
    (filter (fun kv => ¬ (now - login_createdAt kv.2 > PENDING_LOGIN_TTL_MS))
            (pendingLogins regs))
    (filter (fun kv => ¬ (now - send_createdAt kv.2 > PENDING_LOGIN_TTL_MS))
            (pendingSends regs)).

Inductive message : Type :=
  | DAPP_APPROVE (requestId : string)
  | DAPP_APPROVE_SEND (requestId : string).


Inductive answer : Type :=
  | Unauthorized                 (* fail('Unauthorized sender') *)
  | NotFound                     (* fail('No pending login request') / '... send request' *)
  | NotVerified                  (* fail('Cannot approve: challenge signature not verified') *)
  | Proceeded (ok : bool).       (* the entry was claimed; the work ran *)

(** Where a call stands: at its start, suspended in [await debugLog(...)],
    suspended in [await getSession()] after having claimed the entry, or
    returned. *)
Inductive pc : Type :=
  | Entered
  | Logged
  | Claimed
  | Returned (a : answer).





Definition requestId_of (m : message) : string :=
  match m with DAPP_APPROVE i | DAPP_APPROVE_SEND i => i end.



Definition returned (p : pc) : Prop := ∃ a, p = Returned a.



Definition waiting (p : pc) : Prop := p = Entered ∨ p = Logged.



End Consent.

(** ** Fee estimation (src/core/transaction.ts, estimateTransactionFee)

    As for the builder, the two network reads are the arguments [utxos] and
    [feeRate]. *)

Module Estimator.
Import Engine.

Record FeeEstimate : Type := mkEstimate {
  fe_feeRate : Z;
  fe_estimatedFee : Z;
  fe_inputCount : Z;
  fe_outputCount : Z
}.

(** The loop over the sorted UTXOs: [inputCount] and [total] are its two
    variables; it breaks once the total covers the amount and the fee of
    the inputs counted so far. *)
Fixpoint countInputs (sorted : list UTXO) (inputCount total amountSat feeRate : Z) : Z :=
  match sorted with
  | [] => inputCount
  | u :: rest =>
      let inputCount := inputCount + 1 in
      let total := total + value u in
      let size := estimateTxSize inputCount outputCountEstimate in
      let fee := feeFor size feeRate in
      if total >=? amountSat + fee then inputCount
      else countInputs rest inputCount total amountSat feeRate
  end.

Definition estimateTransactionFee (utxos : list UTXO) (feeRate amountSat : Z)
  : FeeEstimate :=
  let outputCount := outputCountEstimate in
  let sorted := sort_desc utxos in
  let inputCount := countInputs sorted 0 0 amountSat feeRate in
  let size := estimateTxSize inputCount outputCount in
  let estimatedFee := feeFor size feeRate in
  mkEstimate feeRate estimatedFee inputCount outputCount.

(** The fee the size model asks for [k] inputs and two outputs *)
Definition feeOf (feeRate : Z) (k : nat) : Z :=
  feeFor (estimateTxSize (Z.of_nat k) outputCountEstimate) feeRate.

(** The sum of the first [k] values of a list *)
Definition prefix_sum (sorted : list UTXO) (k : nat) : Z :=
  sum_values (take k sorted).

(** [k] is where a loop over [sorted] that stops at the first prefix
    satisfying [enough] stops: at that prefix, or at the end of the list
    when there is none; it makes at least one step on a list that is not
    empty. *)
Definition first_stop (sorted : list UTXO) (enough : nat → Prop) (k : nat) : Prop :=
  (k ≤ length sorted)%nat ∧
  (sorted ≠ [] → (1 ≤ k)%nat) ∧
  (enough k ∨ k = length sorted) ∧
  ∀ j, (1 ≤ j < k)%nat → ¬ enough j.

(** What the fitting loop keeps true of its state, for the sorted UTXOs, the
    amount, a fee rate and the input count [ke] of the estimate: the
    selection is the prefix the selection loop stops at for the amount and
    the fee, the fee does not exceed the fee of the selection's own size nor
    the estimate's fee, and the selection is no longer than the estimate. *)
Definition tracks (sorted : list UTXO) (amountSat feeRate : Z) (ke : nat)
    (st : FitState) : Prop :=
  ∃ k, fit_selected st = take k sorted ∧
       fit_total st = prefix_sum sorted k ∧
       first_stop sorted (fun j => amountSat + fit_fee st ≤ prefix_sum sorted j) k ∧
       amountSat + fit_fee st ≤ prefix_sum sorted k ∧
       fit_fee st ≤ feeOf feeRate k ∧
       fit_fee st ≤ feeOf feeRate ke ∧
       (k ≤ ke)%nat.

End Estimator.

(** ** Electrum proxy client (src/core/electrum.ts)

    A response body is a JSON value.  Its numbers are kept as far as the
    validation looks at them: an integer, a finite number that is not an
    integer, or a number that is not finite. *)

Module Electrum.

Inductive number : Type :=
  | Integer (z : Z)
  | Fraction
  | NotFinite.

Inductive json : Type :=
  | JUndefined
  | JNull
  | JBool (b : bool)
  | JNum (n : number)
  | JStr (s : jsstring)
  | JArr (items : list json)
  | JObj (fields : list (jsstring * json)).

Inductive failure : Type :=
  | InvalidHex64                (* `Invalid ${label}: expected 64-char hex` *)
  | RequestFailed (server : jsstring) (* a request to one server failing *)
  | AllServersFailed            (* 'All Electrum proxy servers failed' *)
  | InvalidListUnspent          (* 'Invalid listUnspent response' *)
  | InvalidTxHash (i : nat)     (* `UTXO[${i}]: invalid tx_hash` *)
  | InvalidTxPos (i : nat)      (* `UTXO[${i}]: invalid tx_pos` *)
  | InvalidValue (i : nat)      (* `UTXO[${i}]: invalid value` *)
  | InvalidHeight (i : nat)     (* `UTXO[${i}]: invalid height` *)
  | InvalidBalanceResponse
  | InvalidConfirmedBalance
  | InvalidUnconfirmedBalance
  | InvalidListTransactions
  | InvalidSummaryTxHash        (* 'listTransactions: invalid tx_hash' *)
  | InvalidSummaryHeight        (* 'listTransactions: invalid height' *)
  | InvalidRawTransactionHex
  | InvalidBlockHeight
  | TypeError.                  (* a property read on null or undefined *)

Inductive answer (A : Type) : Type :=
  | Answer (a : A)
  | Failure (f : failure).
Arguments Answer {A} a.
Arguments Failure {A} f.

(** *** Round robin and failover (lines 7-68) *)

Definition PROXY_SERVERS : list jsstring :=
  [js "https://el0.verus.io"; js "https://el1.verus.io";
   js "https://el2.verus.io"; js "https://el3.verus.io"].

(** [nextServer()]: the server at [serverIndex % length], and the index
    raised by one. *)
Definition nextServer (serverIndex : nat) : jsstring * nat :=
  (nth (serverIndex mod length PROXY_SERVERS) PROXY_SERVERS [], S serverIndex).

(** The loop of [proxyGet] (and of [proxyPost], which differs in the request
    it sends only): [n] iterations are left; [respond] is what a request to a
    server comes to, its result or a failure (time-out, HTTP status, proxy
    error); [tried] lists the servers asked, in order. The index is threaded
    through one call: no other request advances it between two iterations. *)
Fixpoint proxyLoop {A : Type} (n : nat) (respond : jsstring → answer A)
    (serverIndex : nat) (lastError : option failure) (tried : list jsstring)
  : answer A * nat * list jsstring :=
  match n with
  | O => (Failure (default AllServersFailed lastError), serverIndex, tried)
  | S n' =>
      let '(server, serverIndex) := nextServer serverIndex in
      match respond server with
      | Answer a => (Answer a, serverIndex, tried ++ [server])
      | Failure f => proxyLoop n' respond serverIndex (Some f) (tried ++ [server])
      end
  end.

Definition proxyGet {A : Type} (respond : jsstring → answer A) (serverIndex : nat)
  : answer A * nat * list jsstring :=
  proxyLoop (length PROXY_SERVERS) respond serverIndex None [].

(** The servers in the order a call starting at [serverIndex] asks them *)
Definition rotation (serverIndex : nat) : list jsstring :=
  map (fun j => nth ((serverIndex + j) mod 4) PROXY_SERVERS []) [0; 1; 2; 3]%nat.

(** *** Response validation (lines 114-163) *)

Definition isHexChar (c : Z) : bool :=
  ((48 <=? c) && (c <=? 57)) || ((97 <=? c) && (c <=? 102))
  || ((65 <=? c) && (c <=? 70)).

(** [/^[a-fA-F0-9]{64}$/.test(v)] *)
Definition HEX64_RE_test (v : jsstring) : bool :=
  (length v =? 64)%nat && forallb isHexChar v.

Definition MAX_SAFE_INTEGER : Z := 9007199254740991.

(** [typeof v === 'number' && Number.isSafeInteger(v)], with the integer *)
Definition isSafeInt (v : json) : option Z :=
  match v with
  | JNum (Integer z) => if Z.abs z <=? MAX_SAFE_INTEGER then Some z else None
  | _ => None
  end.

Definition isHex64 (v : json) : option jsstring :=
  match v with
  | JStr s => if HEX64_RE_test s then Some s else None
  | _ => None
  end.

(** [u.key]: the last field of that name of an object, [undefined] on any
    other value but [null] and [undefined], on which the read throws. *)
Definition field (u : json) (key : jsstring) : answer json :=
  match u with
  | JNull | JUndefined => Failure TypeError
  | JObj fields =>
      Answer (default JUndefined
                (snd <$> last (filter (fun kv => kv.1 = key) fields)))
  | _ => Answer JUndefined
  end.

(** The callback of [result.map((u, i) => ...)] *)
Definition validateUtxo (u : json) (i : nat) : answer UTXO :=
  match field u (js "tx_hash") with
  | Failure f => Failure f
  | Answer h =>
      match isHex64 h with
      | None => Failure (InvalidTxHash i)
      | Some tx_hash =>
          match field u (js "tx_pos") with
          | Failure f => Failure f
          | Answer p =>
              match isSafeInt p with
              | None => Failure (InvalidTxPos i)
              | Some tx_pos =>
                  if tx_pos <? 0 then Failure (InvalidTxPos i)
                  else
                    match field u (js "value") with
                    | Failure f => Failure f
                    | Answer v =>
                        match isSafeInt v with
                        | None => Failure (InvalidValue i)
                        | Some value =>
                            if value <? 0 then Failure (InvalidValue i)
                            else
                              match field u (js "height") with
                              | Failure f => Failure f
                              | Answer ht =>
                                  match isSafeInt ht with
                                  | None => Failure (InvalidHeight i)
                                  | Some height =>
                                      Answer (mkUTXO tx_hash tx_pos height value)
                                  end
                              end
                        end
                    end
              end
          end
      end
  end.

(** [result.map(...)], which stops at the first throw *)
Fixpoint validateAll (items : list json) (i : nat) : answer (list UTXO) :=
  match items with
  | [] => Answer []
  | u :: rest =>
      match validateUtxo u i with
      | Failure f => Failure f
      | Answer utxo =>
          match validateAll rest (S i) with
          | Failure f => Failure f
          | Answer utxos => Answer (utxo :: utxos)
          end
      end
  end.

(** [listUnspent(scripthash)]; [response] is what
    [proxyGet('/api/listunspent', ...)] comes to. *)
Definition listUnspent (scripthash : jsstring) (response : answer json)
  : answer (list UTXO) :=
  if negb (HEX64_RE_test scripthash) then Failure InvalidHex64
  else
    match response with
    | Failure f => Failure f
    | Answer (JArr items) => validateAll items 0
    | Answer _ => Failure InvalidListUnspent
    end.

(** *** The other validated answers (lines 135-145, 165-188, 248-252) *)

Record Balance : Type := mkBalance {
  confirmed : Z;
  unconfirmed : Z;
  lastUpdated : Z
}.

(** [!r || typeof r !== 'object'] *)
Definition notAnObject (r : json) : bool :=
  match r with
  | JObj _ | JArr _ => false
  | _ => true
  end.

(** [getBalance(scripthash)]; [response] is what
    [proxyGet('/api/getbalance', ...)] comes to, [now] is [Date.now()]. *)
Definition getBalance (scripthash : jsstring) (response : answer json) (now : Z)
  : answer Balance :=
  if negb (HEX64_RE_test scripthash) then Failure InvalidHex64
  else
    match response with
    | Failure f => Failure f
    | Answer r =>
        if notAnObject r then Failure InvalidBalanceResponse
        else
          match field r (js "confirmed"), field r (js "unconfirmed") with
          | Answer c, Answer u =>
              match isSafeInt c with
              | None => Failure InvalidConfirmedBalance
              | Some confirmed =>
                  if confirmed <? 0 then Failure InvalidConfirmedBalance
                  else
                    match isSafeInt u with
                    | None => Failure InvalidUnconfirmedBalance
                    | Some unconfirmed =>
                        Answer (mkBalance confirmed unconfirmed now)
                    end
              end
          | Failure f, _ | _, Failure f => Failure f
          end
    end.

Record TransactionSummary : Type := mkSummary {
  txid : jsstring;
  tx_height : Z;
  tx_value : Z;
  tx_confirmed : bool
}.

(** The callback of [result.map((t) => ...)] of [listTransactions] *)
Definition validateSummary (t : json) : answer TransactionSummary :=
  match field t (js "tx_hash") with
  | Failure f => Failure f
  | Answer h =>
      match isHex64 h with
      | None => Failure InvalidSummaryTxHash
      | Some tx_hash =>
          match field t (js "height") with
          | Failure f => Failure f
          | Answer ht =>
              match isSafeInt ht with
              | None => Failure InvalidSummaryHeight
              | Some height => Answer (mkSummary tx_hash height 0 (0 <? height))
              end
          end
      end
  end.

Fixpoint validateSummaries (items : list json) : answer (list TransactionSummary) :=
  match items with
  | [] => Answer []
  | t :: rest =>
      match validateSummary t with
      | Failure f => Failure f
      | Answer summary =>
          match validateSummaries rest with
          | Failure f => Failure f
          | Answer summaries => Answer (summary :: summaries)
          end
      end
  end.

Definition listTransactions (scripthash : jsstring) (response : answer json)
  : answer (list TransactionSummary) :=
  if negb (HEX64_RE_test scripthash) then Failure InvalidHex64
  else
    match response with
    | Failure f => Failure f
    | Answer (JArr items) => validateSummaries items
    | Answer _ => Failure InvalidListTransactions
    end.

(** [/^[a-fA-F0-9]+$/.test(result)] *)
Definition HEX_RE_test (v : jsstring) : bool :=
  match v with
  | [] => false
  | _ => forallb isHexChar v
  end.

Definition getTransaction (txid : jsstring) (response : answer json) : answer jsstring :=
  if negb (HEX64_RE_test txid) then Failure InvalidHex64
  else
    match response with
    | Failure f => Failure f
    | Answer (JStr result) =>
        if HEX_RE_test result then Answer result else Failure InvalidRawTransactionHex
    | Answer _ => Failure InvalidRawTransactionHex
    end.

Definition getCurrentBlock (response : answer json) : answer Z :=
  match response with
  | Failure f => Failure f
  | Answer result =>
      match isSafeInt result with
      | None => Failure InvalidBlockHeight
      | Some height => if height <? 0 then Failure InvalidBlockHeight else Answer height
      end
  end.

(** A UTXO as the validation leaves it *)
Definition validated (u : UTXO) : Prop :=
  HEX64_RE_test (tx_hash u) = true ∧
  0 ≤ tx_pos u ≤ MAX_SAFE_INTEGER ∧
  0 ≤ value u ≤ MAX_SAFE_INTEGER ∧
  - MAX_SAFE_INTEGER ≤ height u ≤ MAX_SAFE_INTEGER.

End Electrum.

(** ** Script hashes (src/core/keychain.ts, addressToScripthash) *)

Module Scripthash.
Import Electrum.

Definition hexDigit (n : Z) : Z := if n <? 10 then 48 + n else 87 + n.

(** [buffer.toString('hex')] *)
Definition toString_hex (b : Buffer) : jsstring :=
  flat_map (fun x => [hexDigit (x / 16); hexDigit (x mod 16)]) b.

Section WithLib.
Context `{UtxoLib}.
Variable sha256 : Buffer → Buffer.     (* utxoLib.crypto.sha256 *)

Definition addressToScripthash (address : jsstring) : result jsstring :=
  outputScript ← of_option (toOutputScript address) VendorError;
  let hash := sha256 outputScript in
  let reversed := reverse hash in
  Ok (toString_hex reversed).

End WithLib.

(** A hash function that returns 32 bytes *)
Definition digest32 (sha256 : Buffer → Buffer) : Prop :=
  ∀ b, length (sha256 b) = 32%nat ∧ Forall Vault.is_byte (sha256 b).

End Scripthash.

(** ** Instances of the library interface used to run the model

    [ref_lib] is a small faithful library: a script is the address it pays
    to, a key pair is its WIF string, and [build] returns the inputs and
    outputs it was given.  [off_by_one_lib] differs in one place: its
    [build] raises the value of every output by one, the kind of defect the
    post-build verification is there to catch. *)

Module Fixtures.

Definition ref_fromBase58Check (a : jsstring) : option (Z * Buffer) :=
  match a with
  | 82 :: _ => Some (60, a)      (* an address starting with R *)
  | _ => None
  end.

Definition ref_build (bump : Z) (kp : jsstring) (b : TxBuilder) : option Transaction :=
  Some (mkTx (b_inputs b) (map (fun av => mkTxOut av.1 (av.2 + bump)) (b_outputs b))).

Definition lib_with (bump : Z) : UtxoLib := {|
  KeyPair := jsstring;
  pubKeyHash := 60;
  scriptHash := 85;
  fromBase58Check := ref_fromBase58Check;
  fromWIF := fun wif => Some wif;
  getAddress := fun kp => 82 :: kp;
  getPublicKeyBuffer := fun kp => kp;
  hash160 := fun b => b;
  pubKeyHash_output_encode := fun b => b;
  toOutputScript := fun a => Some a;
  fromOutputScript := fun s => Some s;
  build := ref_build bump;
  toHex := fun tx => []
|}.

Definition ref_lib : UtxoLib := lib_with 0.
Definition off_by_one_lib : UtxoLib := lib_with 1.

Definition utxo (v : Z) : UTXO := mkUTXO (js "aa") 0 100 v.

Definition wallet : list UTXO := [utxo 50000000; utxo 3000000].

End Fixtures.

(** Requests used to run the rate limiter on concrete inputs. *)
Module RateFixtures.
Import RateLimit.

Definition right (t : Z) : Request := mkRequest t (t + 40) true Returns.

End RateFixtures.

(** Registries and calls used to run the approval handlers. *)
Module ConsentFixtures.
Import Consent.

Definition login (verified : option bool) : PendingLogin :=
  mkLogin 1000 7 (js "verus://x-callback-url/login") verified.

Definition logins (verified : option bool) : Registries :=
  mkRegs {[ "req-1"%string := login verified ]} ∅.

Definition sends : Registries :=
  mkRegs ∅ {[ "req-2"%string := mkSend 1000 7 (js "Rdest") 5 (js "VRSC") ]}.



End ConsentFixtures.

(** A signature library used to run the verifier: the challenge hash of a
    request at a height and version is the pair of the two, and a compact
    signature recovers to the signer's key on the hash of the height it was
    made at and to a stranger's key on any other hash. *)
Module VerifierFixtures.
Import Verifier.

Definition signer : jsstring := js "Rsigner".
Definition stranger : jsstring := js "Rstranger".

Definition sig_lib (madeAt : Z) : SigLib := {|
  LoginConsentRequest := jsstring;
  PublicKey := jsstring;
  fromWalletDeeplinkUri := fun uri => Some uri;
  request_signature := fun request => Some request;
  base64_decode := fun s => s;
  getChallengeHash := fun _ h hashVersion => Some [h; hashVersion];
  recoverPublicKey := fun _ _ hash =>
    if bool_decide (head hash = Some madeAt) then Some signer else Some stranger;
  toRawBytes := fun k _ => k;
  toBase58Check := fun pkh _ => pkh
|}.

(** version 1, block height [h] (below 256), one signature of 65 bytes with
    recovery flag 31 *)
Definition signatureAt (h : Z) : Buffer :=
  [1; h; 0; 0; 0; 1; 65; 31] ++ replicate 64 0.

End VerifierFixtures.

(** A platform used to run the vault: base64 is the identity, a key is the
    HMAC key block followed by the salt, and the cipher appends a tag of 16
    bytes made from the key, which decryption compares. *)
Module VaultFixtures.
Import Vault.





End VaultFixtures.

Module ElectrumFixtures.

(** A stand-in for a digest: the first 32 bytes of the input, padded with
    zeros *)
Definition pad32 (b : Buffer) : Buffer :=
  take 32 (map (fun x => x mod 256) b ++ replicate 32 0).

End ElectrumFixtures.

(** ** Password attempts through either handler (src/background/index.ts) *)

Module Throttle.
Import RateLimit.

(** The two handlers that decrypt the vault with a password from the
    message *)
Inductive handler : Type :=
  | Unlock        (* case 'UNLOCK_WALLET' *)
  | Mnemonic.     (* case 'GET_MNEMONIC' *)

Definition handle (h : handler) (r : Request) (s : Storage) : response * Storage :=
  match h with
  | Unlock => UNLOCK_WALLET r s
  | Mnemonic => GET_MNEMONIC r s
  end.

(** Requests handled one after the other, over the one stored counter *)
Fixpoint serve (rs : list (handler * Request)) (s : Storage)
  : list response * Storage :=
  match rs with
  | [] => ([], s)
  | (h, r) :: rs' =>
      let '(a, s') := handle h r s in
      let '(answers, s'') := serve rs' s' in
      (a :: answers, s'')
  end.

(** A request with a password that does not open the stored vault *)
Definition wrongPassword (r : Request) : Prop :=
  vaultStored r = true ∧ tryBlock r = DecryptThrows.

(** The readings of [Date.now()], in the order the requests take them *)
Definition clock (rs : list (handler * Request)) : list Z :=
  flat_map (fun hr => [checkedAt hr.2; recordedAt hr.2]) rs.

Definition is_attempt (a : response) : bool :=
  match a with
  | IncorrectPassword => true
  | _ => false
  end.

(** The requests that got as far as decrypting *)
Definition attempts (answers : list response) : nat :=
  length (List.filter is_attempt answers).

(** The lockouts served between [n] further attempts from a counter at [c] *)
Fixpoint waited (c : Z) (n : nat) : Z :=
  match n with
  | O => 0
  | S m =>
      (if c <? MAX_ATTEMPTS_BEFORE_LOCKOUT then 0 else lockoutMs c)
      + waited (c + 1) m
  end.

End Throttle.

(** ** Identity lookups (src/unnamed/part_001) *)

Module VerusId.
Import Electrum.

Definition MAX_INPUT_LENGTH : Z := 200.

Inductive failure : Type :=
  | EmptyOrTooLong               (* `${label} is empty or too long (max 200 chars)` *)
  | InvalidCharacters            (* `${label} contains invalid characters` *)
  | RequestFailed                (* fetch, HTTP status or RPC error *)
  | InvalidIdentityResponse
  | MissingIdentityObject
  | MissingIdentityAddress
  | MissingPrimaryAddresses
  | InvalidPrimaryAddressEntry
  | MissingIdentityName
  | MissingFriendlyName
  | MissingStatus.

(** [validateInput(value, label)]: the error it throws, if any.
    [SAFE_INPUT_RE] is the pattern of [isValidAddress]. *)
Definition validateInput (value : jsstring) : option failure :=
  if bool_decide (value = []) || (MAX_INPUT_LENGTH <? Z.of_nat (length value))
  then Some EmptyOrTooLong
  else if negb (Keychain.SAFE_RE_test value) then Some InvalidCharacters
  else None.

(** What the callers read of a [GetIdentityResult] *)
Record GetIdentityResult : Type := mkIdentityResult {
  name : jsstring;
  identityaddress : jsstring;
  primaryaddresses : list jsstring;
  friendlyname : jsstring;
  status : jsstring
}.

Definition isString (v : json) : option jsstring :=
  match v with
  | JStr s => Some s
  | _ => None
  end.

(** [for (const addr of ...) if (typeof addr !== 'string') throw ...] *)
Fixpoint strings (items : list json) : option (list jsstring) :=
  match items with
  | [] => Some []
  | v :: rest =>
      match isString v, strings rest with
      | Some s, Some ss => Some (s :: ss)
      | _, _ => None
      end
  end.

(** [r.key] on a value that passed [!r || typeof r !== 'object'] *)
Definition property (r : json) (key : jsstring) : json :=
  match field r key with
  | Answer v => v
  | Failure _ => JUndefined
  end.

Definition validateIdentityResult (r : json) : GetIdentityResult + failure :=
  if notAnObject r then inr InvalidIdentityResponse
  else
    let identity := property r (js "identity") in
    if notAnObject identity then inr MissingIdentityObject
    else
      match isString (property identity (js "identityaddress")) with
      | None => inr MissingIdentityAddress
      | Some identityaddress =>
          match property identity (js "primaryaddresses") with
          | JArr items =>
              match strings items with
              | None => inr InvalidPrimaryAddressEntry
              | Some primaryaddresses =>
                  match isString (property identity (js "name")) with
                  | None => inr MissingIdentityName
                  | Some name =>
                      match isString (property r (js "friendlyname")) with
                      | None => inr MissingFriendlyName
                      | Some friendlyname =>
                          match isString (property r (js "status")) with
                          | None => inr MissingStatus
                          | Some status =>
                              inl (mkIdentityResult name identityaddress
                                     primaryaddresses friendlyname status)
                          end
                      end
                  end
              end
          | _ => inr MissingPrimaryAddresses
          end
      end.

(** [getIdentity(nameOrIAddress)]; [rpc] is what the request comes to:
    [json.result], or [None] when the fetch fails, the status is not ok or
    the answer carries an error. *)
Definition getIdentity (nameOrIAddress : jsstring) (rpc : option json)
  : GetIdentityResult + failure :=
  match validateInput nameOrIAddress with
  | Some f => inr f
  | None =>
      match rpc with
      | None => inr RequestFailed
      | Some result => validateIdentityResult result
      end
  end.

(** What [verifyChallengeSignature] makes of the lookup: [None] when it
    throws, otherwise [identityResult?.identity?.primaryaddresses ?? []] *)
Definition primaryAddresses (nameOrIAddress : jsstring) (rpc : option json)
  : option (list jsstring) :=
  match getIdentity nameOrIAddress rpc with
  | inl identityResult => Some (primaryaddresses identityResult)
  | inr _ => None
  end.

End VerusId.

(** ** Admission and approval of dApp requests (src/background/index.ts,
       lines 351-373, 427-440, 975-1091, 1392-1450) *)

Module Admission.
Import Keychain.

Definition MAX_PENDING_LOGINS : nat := 10.
Definition PENDING_LOGIN_TTL_MS : Z := 5 * 60000.
Definition POPUP_COOLDOWN_MS : Z := 3000.
Definition MAX_COIN_AMOUNT : Z := 200000000.
Definition CHALLENGE_MAX_AGE_SEC : Z := 300.

(** A JS number: a finite value, which is a rational, or NaN or an infinity *)
Inductive number : Type :=
  | Finite (q : QArith_base.Q)
  | NotFinite.

(** [payload.amount] and [payload.currency], whose type the handler tests *)
Inductive amountField : Type :=
  | AmountNumber (n : number)
  | AmountOther.                    (* typeof payload.amount !== 'number' *)

Inductive currencyField : Type :=
  | CurrencyNullish                 (* null or undefined *)
  | CurrencyString (s : jsstring)
  | CurrencyOther.

(** The payload of DAPP_SEND_REQUEST; [to] is [None] when undefined *)
Record SendPayload : Type := mkSendPayload {
  to : option jsstring;
  amount : amountField;
  currency : currencyField;
  _reqId : option Z
}.

(** [sender?.tab]: its [id] and its [url], each possibly undefined *)
Record Tab : Type := mkTab {
  tab_id : option Z;
  tab_url : option jsstring
}.

Definition Sender : Type := option Tab.

(** The entries of the two maps (those of logins are below), without
    [windowId]: the handlers set it once the popup is open and only the
    listener for closed windows reads it. *)
Record PendingSendRequest : Type := mkPendingSend {
  ps_id : string;
  ps_tabId : Z;
  ps_origin : jsstring;
  ps_to : jsstring;
  ps_amount : QArith_base.Q;
  ps_currency : jsstring;
  ps_reqId : option Z;
  ps_createdAt : Z
}.

Inductive failure : Type :=
  | UnauthorizedSender
  | InvalidSendRequest           (* 'Invalid send request: missing to or amount' *)
  | AmountExceedsMaximum
  | InvalidCurrencyField
  | InvalidRecipientAddress
  | CannotVerifyOrigin           (* 'Cannot verify request origin' *)
  | PleaseWait                   (* 'Please wait before making another request' *)
  | TooManyPendingSends
  | TooManyPendingLogins
  | MissingDeeplinkURI
  | DeeplinkURITooLarge
  | ChallengeMissingTimestamp
  | ChallengeInTheFuture
  | ChallengeExpired
  | NoPendingLoginRequest        (* 'No pending login request' *)
  | SignatureNotVerified         (* 'Cannot approve: challenge signature not verified' *)
  | Thrown.                      (* the message of whatever was thrown *)

(** What the synchronous part of a handler comes to: a failure; the
    request stored under [id] and the popup asked for; the pending login
    shown with the result of its verification; the pending login claimed
    for approval. *)
Inductive response : Type :=
  | Fail (f : failure)
  | Stored (id : string)
  | Shown (signatureVerified : bool)
  | Claimed (id : string).

(** The readings of [Date.now()] during one call, in the order of the calls *)
Definition Clock : Type := nat → Z.

Section WithLibs.
Context `{UtxoLib} `{SigLib}.
Context {ChallengeJson : Type}.
(** [new URL(url).origin], [None] when the constructor throws *)
Variable URL_origin : jsstring → option jsstring.
(** What the deeplink handler reads in the parsed request:
    [request.challenge.created_at] (a number, [None] when missing),
    [request.challenge.toJson()] ([None] when it throws), the [uri] of the
    redirect with the webhook key, and [request.signing_id]. *)
Variable created_at : LoginConsentRequest → option Z.
Variable toJson : LoginConsentRequest → option ChallengeJson.
Variable webhookRedirect_uri : LoginConsentRequest → option jsstring.
Variable signing_id : LoginConsentRequest → option jsstring.

Record PendingLoginRequest : Type := mkPendingLogin {
  pl_id : string;
  pl_uri : jsstring;
  pl_tabId : Z;
  pl_origin : jsstring;
  pl_challengeJson : ChallengeJson;
  pl_webhookUrl : option jsstring;
  pl_requestingId : option jsstring;
  pl_signatureVerified : option bool;
  pl_reqId : option Z;
  pl_createdAt : Z
}.

(** The three maps of the worker, and the ids of the calls of
    GET_PENDING_LOGIN that are waiting for [verifyChallengeSignature] *)
Record State : Type := mkState {
  pendingLogins : gmap string PendingLoginRequest;
  pendingSends : gmap string PendingSendRequest;
  lastPopupByOrigin : gmap jsstring Z;
  verifying : gset string
}.

Definition purgeExpiredRequests (now : Z) (s : State) : State :=
  mkState
    (filter (fun kv => ¬ (now - pl_createdAt kv.2 > PENDING_LOGIN_TTL_MS))
            (pendingLogins s))
    (filter (fun kv => ¬ (now - ps_createdAt kv.2 > PENDING_LOGIN_TTL_MS))
            (pendingSends s))
    (lastPopupByOrigin s) (verifying s).

(** [sender?.tab?.id ?? 0] *)
Definition tabId_of (sender : Sender) : Z := default 0 (sender ≫= tab_id).

(** [x || undefined] on a string *)
Definition truthy (x : option jsstring) : option jsstring :=
  match x with
  | Some [] => None
  | _ => x
  end.

(** [case 'DAPP_SEND_REQUEST'], from the purge at the head of
    [handleMessage] to the [await] of the popup; the message is on the
    allowlist of content scripts, so the sender check lets it through. *)
Definition DAPP_SEND_REQUEST (payload : option SendPayload) (sender : Sender)
    (randomUUID : string) (now : Clock) (s : State) : response * State :=
  let s := purgeExpiredRequests (now 0%nat) s in
  match payload with
  | None => (Fail InvalidSendRequest, s)
  | Some payload =>
      match truthy (to payload), amount payload with
      | None, _ | _, AmountOther | _, AmountNumber NotFinite =>
          (Fail InvalidSendRequest, s)
      | Some to, AmountNumber (Finite amount) =>
          if QArith_base.Qle_bool amount (QArith_base.inject_Z 0)
          then (Fail InvalidSendRequest, s)
          else if negb (QArith_base.Qle_bool amount (QArith_base.inject_Z MAX_COIN_AMOUNT))
          then (Fail AmountExceedsMaximum, s)
          else
            match currency payload with
            | CurrencyOther => (Fail InvalidCurrencyField, s)
            | (CurrencyNullish | CurrencyString _) as currency =>
                if negb (isValidAddress to) then (Fail InvalidRecipientAddress, s)
                else
                  let id := randomUUID in
                  let tabId := tabId_of sender in
                  match truthy (sender ≫= tab_url) with
                  | None => (Fail CannotVerifyOrigin, s)
                  | Some url =>
                      match URL_origin url with
                      | None => (Fail Thrown, s)
                      | Some origin =>
                          let lastSend := default 0 (lastPopupByOrigin s !! origin) in
                          if now 1%nat - lastSend <? POPUP_COOLDOWN_MS
                          then (Fail PleaseWait, s)
                          else if (MAX_PENDING_LOGINS <=? size (pendingSends s))%nat
                          then (Fail TooManyPendingSends, s)
                          else
                            let pending :=
                              mkPendingSend id tabId origin to amount
                                (match currency with
                                 | CurrencyString ((_ :: _) as c) => c
                                 | _ => js "VRSC"
                                 end)
                                (_reqId payload) (now 2%nat) in
                            (Stored id,
                             mkState (pendingLogins s)
                                     (<[id := pending]> (pendingSends s))
                                     (<[origin := now 3%nat]> (lastPopupByOrigin s))
                                     (verifying s))
                      end
                  end
            end
      end
  end.

(** [Math.floor(n / 1000)] *)
Definition floor_div_1000 (n : Z) : Z := n / 1000.

(** [case 'DAPP_LOGIN_DEEPLINK'], from the purge at the head of
    [handleMessage] to the [await] of the popup. *)
Definition DAPP_LOGIN_DEEPLINK (uri : option jsstring) (loginReqId : option Z)
    (sender : Sender) (randomUUID : string) (now : Clock) (s : State)
  : response * State :=
  let s := purgeExpiredRequests (now 0%nat) s in
  match truthy uri with
  | None => (Fail MissingDeeplinkURI, s)
  | Some uri =>
      if 10000 <? Z.of_nat (length uri) then (Fail DeeplinkURITooLarge, s)
      else
        match fromWalletDeeplinkUri uri with
        | None => (Fail Thrown, s)
        | Some request =>
            match created_at request with
            | None => (Fail ChallengeMissingTimestamp, s)
            | Some createdAt =>
                if createdAt <=? 0 then (Fail ChallengeMissingTimestamp, s)
                else
                  let nowSec := floor_div_1000 (now 1%nat) in
                  if nowSec + 60 <? createdAt then (Fail ChallengeInTheFuture, s)
                  else if CHALLENGE_MAX_AGE_SEC <? nowSec - createdAt
                  then (Fail ChallengeExpired, s)
                  else
                    match toJson request with
                    | None => (Fail Thrown, s)
                    | Some challengeJson =>
                        let webhookUrl := webhookRedirect_uri request in
                        let id := randomUUID in
                        let tabId := tabId_of sender in
                        match truthy (sender ≫= tab_url) with
                        | None => (Fail CannotVerifyOrigin, s)
                        | Some url =>
                            match URL_origin url with
                            | None => (Fail Thrown, s)
                            | Some origin =>
                                let lastLogin :=
                                  default 0 (lastPopupByOrigin s !! origin) in
                                if now 2%nat - lastLogin <? POPUP_COOLDOWN_MS
                                then (Fail PleaseWait, s)
                                else
                                  let s := purgeExpiredRequests (now 3%nat) s in
                                  if (MAX_PENDING_LOGINS <=? size (pendingLogins s))%nat
                                  then (Fail TooManyPendingLogins, s)
                                  else
                                    let pending :=
                                      mkPendingLogin id uri tabId origin challengeJson
                                        webhookUrl (truthy (signing_id request)) None
                                        loginReqId (now 4%nat) in
                                    (Stored id,
                                     mkState (<[id := pending]> (pendingLogins s))
                                             (pendingSends s)
                                             (<[origin := now 5%nat]> (lastPopupByOrigin s))
                                             (verifying s))
                            end
                        end
                    end
            end
        end
  end.

Definition cacheVerification (verified : bool)
    (e : PendingLoginRequest) : PendingLoginRequest :=
  mkPendingLogin (pl_id e) (pl_uri e) (pl_tabId e) (pl_origin e)
    (pl_challengeJson e) (pl_webhookUrl e) (pl_requestingId e) (Some verified)
    (pl_reqId e) (pl_createdAt e).

(** [case 'GET_PENDING_LOGIN'] up to the [await] of the verification: a
    result already there is shown; otherwise the entry is marked unverified,
    and the call waits for the verification when the entry names the
    identity that signed (no answer yet), or shows the entry as it is. *)
Definition GET_PENDING_LOGIN (pendingId : string) (s : State)
  : option response * State :=
  match pendingLogins s !! pendingId with
  | None => (Some (Fail NoPendingLoginRequest), s)
  | Some req =>
      match pl_signatureVerified req with
      | Some verified => (Some (Shown verified), s)
      | None =>
          let logins := <[pendingId := cacheVerification false req]> (pendingLogins s) in
          match truthy (pl_requestingId req) with
          | None =>
              (Some (Shown false),
               mkState logins (pendingSends s) (lastPopupByOrigin s) (verifying s))
          | Some _ =>
              (None,
               mkState logins (pendingSends s) (lastPopupByOrigin s)
                       ({[pendingId]} ∪ verifying s))
          end
      end
  end.

(** [verifyChallengeSignature(req.uri, req.requestingId)], with what the
    identity lookup it makes comes to *)
Definition verification (req : PendingLoginRequest) (rpc : option Electrum.json) : bool :=
  match pl_requestingId req with
  | None => false
  | Some requestingId =>
      Verifier.verifyChallengeSignature (pl_uri req)
        (VerusId.primaryAddresses requestingId rpc)
  end.

(** The rest of [case 'GET_PENDING_LOGIN']: the result is stored in the
    entry. Ids are not reused, so an entry found under the id is the one the
    call read; when the entry is gone the result goes to an object that no
    map holds, and the model says nothing of the answer. *)
Definition verified (pendingId : string) (rpc : option Electrum.json) (s : State)
  : option response * State :=
  if bool_decide (pendingId ∈ verifying s) then
    match pendingLogins s !! pendingId with
    | None =>
        (None, mkState (pendingLogins s) (pendingSends s) (lastPopupByOrigin s)
                       (verifying s ∖ {[pendingId]}))
    | Some req =>
        let result := verification req rpc in
        (Some (Shown result),
         mkState (<[pendingId := cacheVerification result req]> (pendingLogins s))
                 (pendingSends s) (lastPopupByOrigin s)
                 (verifying s ∖ {[pendingId]}))
    end
  else (None, s).

(** [case 'DAPP_APPROVE'] up to the claim of the entry *)
Definition DAPP_APPROVE (requestId : string) (s : State) : response * State :=
  match pendingLogins s !! requestId with
  | None => (Fail NoPendingLoginRequest, s)
  | Some pending =>
      if negb (bool_decide (pl_signatureVerified pending = Some true))
      then (Fail SignatureNotVerified, s)
      else (Claimed requestId,
            mkState (delete requestId (pendingLogins s)) (pendingSends s)
                    (lastPopupByOrigin s) (verifying s))
  end.

(** What happens to the maps, one synchronous step at a time: the two
    requests of pages; any other message, which purges; the removal of an
    entry (rejection, approval of a send, closed window); a pending login
    shown, its verification ending, and its approval. *)
Inductive event : Type :=
  | SendRequest (payload : option SendPayload) (sender : Sender)
                (randomUUID : string) (now : Clock)
  | LoginDeeplink (uri : option jsstring) (loginReqId : option Z) (sender : Sender)
                  (randomUUID : string) (now : Clock)
  | OtherMessage (now : Z)
  | RemoveLogin (id : string)
  | RemoveSend (id : string)
  | GetPendingLogin (id : string)
  | VerificationDone (id : string) (rpc : option Electrum.json)
  | ApproveLogin (id : string).

Definition step (e : event) (s : State) : option response * State :=
  match e with
  | SendRequest payload sender id now =>
      let '(r, s) := DAPP_SEND_REQUEST payload sender id now s in (Some r, s)
  | LoginDeeplink uri reqId sender id now =>
      let '(r, s) := DAPP_LOGIN_DEEPLINK uri reqId sender id now s in (Some r, s)
  | OtherMessage now => (None, purgeExpiredRequests now s)
  | RemoveLogin id =>
      (None, mkState (delete id (pendingLogins s)) (pendingSends s)
                     (lastPopupByOrigin s) (verifying s))
  | RemoveSend id =>
      (None, mkState (pendingLogins s) (delete id (pendingSends s))
                     (lastPopupByOrigin s) (verifying s))
  | GetPendingLogin id => GET_PENDING_LOGIN id s
  | VerificationDone id rpc => verified id rpc s
  | ApproveLogin id =>
      let '(r, s) := DAPP_APPROVE id s in (Some r, s)
  end.

Fixpoint run (es : list event) (s : State) : list (option response) * State :=
  match es with
  | [] => ([], s)
  | e :: es' =>
      let '(r, s') := step e s in
      let '(rs, s'') := run es' s' in
      (r :: rs, s'')
  end.

(** The state of a service worker that has just started *)
Definition start : State := mkState ∅ ∅ ∅ ∅.

(** A popup the worker asks for: the origin it is for, the clock when the
    cooldown was checked and the clock stored as the origin's last popup. *)
Record Popup : Type := mkPopup {
  popup_origin : jsstring;
  popup_checkedAt : Z;
  popup_recordedAt : Z
}.

Definition origin_of (sender : Sender) : option jsstring :=
  url ← truthy (sender ≫= tab_url); URL_origin url.

Definition popup (e : event) (r : option response) : option Popup :=
  match r, e with
  | Some (Stored _), SendRequest _ sender _ now =>
      origin ← origin_of sender; Some (mkPopup origin (now 1%nat) (now 3%nat))
  | Some (Stored _), LoginDeeplink _ _ sender _ now =>
      origin ← origin_of sender; Some (mkPopup origin (now 2%nat) (now 5%nat))
  | _, _ => None
  end.

(** The popups of a run, in order *)
Fixpoint popups (es : list event) (rs : list (option response)) : list Popup :=
  match es, rs with
  | e :: es', r :: rs' => option_list (popup e r) ++ popups es' rs'
  | _, _ => []
  end.

(** The clock does not go back between the cooldown check of a call and
    the record of its popup. *)
Definition steady (e : event) : Prop :=
  match e with
  | SendRequest _ _ _ now => now 1%nat ≤ now 3%nat
  | LoginDeeplink _ _ _ _ now => now 2%nat ≤ now 5%nat
  | _ => True
  end.

(** What every stored send request satisfies *)
Definition checkedSend (id : string) (e : PendingSendRequest) : Prop :=
  ps_id e = id ∧
  isValidAddress (ps_to e) = true ∧
  QArith_base.Qlt (QArith_base.inject_Z 0) (ps_amount e) ∧
  QArith_base.Qle (ps_amount e) (QArith_base.inject_Z MAX_COIN_AMOUNT) ∧
  ps_currency e ≠ [].

(** What every stored login request satisfies *)
Definition checkedLogin (id : string) (e : PendingLoginRequest) : Prop :=
  pl_id e = id ∧
  pl_uri e ≠ [] ∧ Z.of_nat (length (pl_uri e)) ≤ 10000 ∧
  ∃ request createdAt,
    fromWalletDeeplinkUri (pl_uri e) = Some request ∧
    created_at request = Some createdAt ∧ 0 < createdAt ∧
    toJson request = Some (pl_challengeJson e) ∧
    pl_webhookUrl e = webhookRedirect_uri request ∧
    pl_requestingId e = truthy (signing_id request).

(** The ids the deeplink requests of a run were given *)
Definition deeplinkIds (es : list event) : list string :=
  flat_map (fun e => match e with
                     | LoginDeeplink _ _ _ randomUUID _ => [randomUUID]
                     | _ => []
                     end) es.

(** After the events [hist]: every pending login was stored by a deeplink
    request of [hist], and one that counts as verified got that result from
    a verification that ended later in [hist]. *)
Definition traced (hist : list event) (s : State) : Prop :=
  ∀ id e, pendingLogins s !! id = Some e →
    ∃ i reqId sender now request,
      hist !! i = Some (LoginDeeplink (Some (pl_uri e)) reqId sender id now) ∧
      fromWalletDeeplinkUri (pl_uri e) = Some request ∧
      pl_requestingId e = truthy (signing_id request) ∧
      (pl_signatureVerified e = Some true →
       ∃ j rpc, (i < j)%nat ∧ hist !! j = Some (VerificationDone id rpc) ∧
                verification e rpc = true).

(** The bounds and the checks the two maps keep *)
Definition bounded (s : State) : Prop :=
  (size (pendingLogins s) ≤ MAX_PENDING_LOGINS)%nat ∧
  (size (pendingSends s) ≤ MAX_PENDING_LOGINS)%nat ∧
  map_Forall checkedSend (pendingSends s) ∧
  map_Forall checkedLogin (pendingLogins s).

End WithLibs.

End Admission.

Module AdmissionFixtures.
Import Admission.

(** A page at https://dapp.example; the origin is taken to be the URL *)
Definition page : Sender :=
  Some (mkTab (Some 7) (Some (js "https://dapp.example"))).

(** A request to send 1.5 coins, handled with the clock at [t] and after *)
Definition sendAt (id : string) (t : Z) : event :=
  SendRequest
    (Some (mkSendPayload (Some (js "RAddress"))
             (AmountNumber (Finite (QArith_base.Qmake 3 2))) CurrencyNullish None))
    page id (fun k => t + Z.of_nat k).

(** A deeplink whose text is the signature made at height 100 (the stand-in
    library of the verifier reads the signature off the deeplink itself),
    sent by the page with the clock at [t] and after *)
Definition loginAt (id : string) (t : Z) : event :=
  LoginDeeplink (Some (VerifierFixtures.signatureAt 100)) None page id
                (fun k => t + Z.of_nat k).

(** The answer of the identity lookup: an identity with one primary address *)
Definition identityOf (address : jsstring) : Electrum.json :=
  Electrum.JObj
    [(js "identity",
      Electrum.JObj [(js "identityaddress", Electrum.JStr (js "iSigner"));
                     (js "primaryaddresses", Electrum.JArr [Electrum.JStr address]);
                     (js "name", Electrum.JStr (js "signer"))]);
     (js "friendlyname", Electrum.JStr (js "signer@"));
     (js "status", Electrum.JStr (js "active"))].

End AdmissionFixtures.

(** ** Webhook URLs (src/background/index.ts, lines 72-106) *)

Module Webhook.

(** [s.startsWith(searchString)] *)
Fixpoint startsWith (searchString s : jsstring) : bool :=
  match searchString, s with
  | [], _ => true
  | c :: searchString', d :: s' => (c =? d) && startsWith searchString' s'
  | _ :: _, [] => false
  end.

(** [s.includes(searchString)] *)
Fixpoint includes (searchString s : jsstring) : bool :=
  startsWith searchString s ||
  match s with
  | [] => false
  | _ :: s' => includes searchString s'
  end.

Definition between (lo hi c : Z) : bool := (lo <=? c) && (c <=? hi).

(** [\d] *)
Definition digit (c : Z) : bool := between 48 57 c.

(** A pattern that matches one character, then what follows it *)
Definition one (p : Z → bool) (next : jsstring → bool) (s : jsstring) : bool :=
  match s with
  | c :: s' => p c && next s'
  | [] => false
  end.

(** The end of a pattern that is not anchored at the end of the string *)
Definition matched (s : jsstring) : bool := true.

(** [\.] at the end of the pattern *)
Definition dot : jsstring → bool := one (Z.eqb 46) matched.

(** [/^172\.(1[6-9]|2\d|3[01])\./.test(h)] *)
Definition RE_172_test (h : jsstring) : bool :=
  startsWith (js "172.") h &&
  (let h' := drop 4 h in
   one (Z.eqb 49) (one (between 54 57) dot) h'
   || one (Z.eqb 50) (one digit dot) h'
   || one (Z.eqb 51) (one (between 48 49) dot) h').

(** [/^100\.(6[4-9]|[7-9]\d|1[01]\d|12[0-7])\./.test(h)] *)
Definition RE_100_test (h : jsstring) : bool :=
  startsWith (js "100.") h &&
  (let h' := drop 4 h in
   one (Z.eqb 54) (one (between 52 57) dot) h'
   || one (between 55 57) (one digit dot) h'
   || one (Z.eqb 49) (one (between 48 49) (one digit dot)) h'
   || one (Z.eqb 49) (one (Z.eqb 50) (one (between 48 55) dot)) h').

(** [/^0\./.test(h)] *)
Definition RE_0_test (h : jsstring) : bool := startsWith (js "0.") h.

(** What the function reads of [new URL(url)] *)
Record URL : Type := mkURL {
  protocol : jsstring;
  hostname : jsstring
}.

(** The checks on the host name, in the order of the source; [true] is a
    host none of them refuses. *)
Definition hostAllowed (h : jsstring) : bool :=
  if bool_decide (h = js "localhost") || bool_decide (h = js "127.0.0.1")
     || bool_decide (h = js "::1") || bool_decide (h = js "0.0.0.0") then false
  else if startsWith (js "10.") h then false
  else if startsWith (js "192.168.") h then false
  else if RE_172_test h then false
  else if startsWith (js "169.254.") h then false
  else if RE_100_test h then false
  else if RE_0_test h then false
  else if startsWith (js "198.18.") h || startsWith (js "198.19.") h then false
  else if startsWith (js "198.51.100.") h then false
  else if startsWith (js "203.0.113.") h then false
  else if startsWith (js "[fc") h || startsWith (js "[fd") h
          || startsWith (js "[fe80:") h then false
  else if includes (js "::ffff:") h then false
  else if includes (js ":") h then false
  else if negb (includes (js ".") h) then false
  else true.

Section WithURL.
(** [new URL(url)], [None] when it throws *)
Variable URL_parse : jsstring → option URL.

Definition isValidWebhookUrl (url : jsstring) : bool :=
  match URL_parse url with
  | None => false
  | Some parsed =>
      if negb (bool_decide (protocol parsed = js "https:")) then false
      else hostAllowed (hostname parsed)
  end.

End WithURL.

(** The decimal digits of a number below 1000, without leading zeros *)
Definition decimal (n : Z) : jsstring :=
  if n <? 10 then [48 + n]
  else if n <? 100 then [48 + n / 10; 48 + n mod 10]
  else [48 + n / 100; 48 + (n / 10) mod 10; 48 + n mod 10].

(** The host name the URL parser gives for the IPv4 address a.b.c.d *)
Definition ipv4 (a b c d : Z) : jsstring :=
  decimal a ++ 46 :: decimal b ++ 46 :: decimal c ++ 46 :: decimal d.

Definition octet (n : Z) : Prop := 0 ≤ n ≤ 255.

(** The IPv4 addresses the checks refuse *)
Definition refused (a b c d : Z) : Prop :=
  a = 0 ∨ a = 10 ∨ (a = 127 ∧ b = 0 ∧ c = 0 ∧ d = 1) ∨
  (a = 100 ∧ 64 ≤ b ≤ 127) ∨ (a = 169 ∧ b = 254) ∨ (a = 172 ∧ 16 ≤ b ≤ 31) ∨
  (a = 192 ∧ b = 168) ∨ (a = 198 ∧ 18 ≤ b ≤ 19) ∨
  (a = 198 ∧ b = 51 ∧ c = 100) ∨ (a = 203 ∧ b = 0 ∧ c = 113).

End Webhook.

Module WebhookFixtures.
Import Webhook.

(** A parser for URLs of the form https://host only: six characters of
    scheme, two slashes, the host *)
Definition parse (url : jsstring) : option URL :=
  Some (mkURL (take 6 url) (drop 8 url)).

End WebhookFixtures.

(** ** The session and its accounts (src/background/index.ts, lines 173-227,
       457-572, 888-922) *)

Module Session.

Record Account : Type := mkAccount {
  index : Z;
  address : jsstring
}.

Record SessionData : Type := mkSession {
  seed : list Z;
  accounts : list Account;
  activeIndex : Z
}.

(** [chrome.storage.session] and the keys of [chrome.storage.local] the
    handlers below use; of the vault only the seed it holds *)
Record State : Type := mkState {
  session : option SessionData;
  vault : option (list Z);
  addressCount : option Z;
  activeAddressIndex : option Z
}.

(** The state of a fresh install *)
Definition fresh : State := mkState None None None None.

Inductive failure : Type :=
  | WalletIsLocked
  | NoWalletFound
  | MaximumAccountsReached
  | AddressNotFound.

Inductive response : Type :=
  | Ok_address (address : jsstring)
  | Ok_account (account : Account)
  | Ok_done
  | Fail (f : failure).

Section WithKeys.
(** [deriveKeyFromSeed(seed, index)]: the address and the WIF *)
Variable deriveKeyFromSeed : list Z → Z → jsstring * jsstring.

(** [session.accounts.find(a => a.index === session.activeIndex) ?? session.accounts[0]],
    [None] for undefined *)
Definition getActiveAccount (session : SessionData) : option Account :=
  match List.find (fun a => index a =? activeIndex session) (accounts session) with
  | Some a => Some a
  | None => head (accounts session)
  end.

(** The loop [for (let i = 0; i < count; i++)] *)
Definition deriveAccounts (seed : list Z) (count : Z) : list Account :=
  map (fun i => mkAccount i (deriveKeyFromSeed seed i).1) (seqZ 0 count).

Definition getActiveWif (session : SessionData) : jsstring :=
  (deriveKeyFromSeed (seed session) (activeIndex session)).2.

(** [(x as number) || d] *)
Definition or_default (x : option Z) (d : Z) : Z :=
  match x with
  | Some v => if v =? 0 then d else v
  | None => d
  end.

(** CREATE_WALLET and IMPORT_WALLET once the password and the phrase are
    accepted; [newSeed] is the seed of the phrase. *)
Definition CREATE_WALLET (newSeed : list Z) (s : State) : response * State :=
  let address := (deriveKeyFromSeed newSeed 0).1 in
  (Ok_address address,
   mkState (Some (mkSession newSeed [mkAccount 0 address] 0))
           (Some newSeed) (Some 1) (Some 0)).

(** UNLOCK_WALLET with the password of the vault, after the rate-limit
    check: the [try] block, which throws when no account was derived. *)
Definition UNLOCK_WALLET (s : State) : option response * State :=
  match vault s with
  | None => (Some (Fail NoWalletFound), s)
  | Some seed =>
      let count := or_default (addressCount s) 1 in
      let activeIdx := or_default (activeAddressIndex s) 0 in
      let accounts := deriveAccounts seed count in
      let activeIndex :=
        if activeIdx <? Z.of_nat (length accounts) then activeIdx else 0 in
      let session := mkSession seed accounts activeIndex in
      let s' := mkState (Some session) (vault s) (addressCount s)
                        (activeAddressIndex s) in
      (match getActiveAccount session with
       | Some active => Some (Ok_address (address active))
       | None => None
       end, s')
  end.

Definition LOCK_WALLET (s : State) : response * State :=
  (Ok_done, mkState None (vault s) (addressCount s) (activeAddressIndex s)).

Definition RESET_WALLET (s : State) : response * State :=
  (Ok_done, mkState None None None None).

Definition MAX_ACCOUNTS : Z := 100.

Definition ADD_ADDRESS (s : State) : response * State :=
  match session s with
  | None => (Fail WalletIsLocked, s)
  | Some session =>
      if MAX_ACCOUNTS <=? Z.of_nat (length (accounts session))
      then (Fail MaximumAccountsReached, s)
      else
        let nextIndex := Z.of_nat (length (accounts session)) in
        let address := (deriveKeyFromSeed (seed session) nextIndex).1 in
        let newAccount := mkAccount nextIndex address in
        let session :=
          mkSession (seed session) (accounts session ++ [newAccount])
                    (activeIndex session) in
        (Ok_account newAccount,
         mkState (Some session) (vault s)
                 (Some (Z.of_nat (length (accounts session))))
                 (activeAddressIndex s))
  end.

Definition SWITCH_ADDRESS (i : Z) (s : State) : response * State :=
  match session s with
  | None => (Fail WalletIsLocked, s)
  | Some session =>
      match List.find (fun a => index a =? i) (accounts session) with
      | None => (Fail AddressNotFound, s)
      | Some target =>
          (Ok_address (address target),
           mkState (Some (mkSession (seed session) (accounts session) i))
                   (vault s) (addressCount s) (Some i))
      end
  end.

Inductive message : Type :=
  | CreateWallet (newSeed : list Z)
  | UnlockWallet
  | LockWallet
  | ResetWallet
  | AddAddress
  | SwitchAddress (i : Z).

Definition handle (m : message) (s : State) : State :=
  match m with
  | CreateWallet newSeed => (CREATE_WALLET newSeed s).2
  | UnlockWallet => (UNLOCK_WALLET s).2
  | LockWallet => (LOCK_WALLET s).2
  | ResetWallet => (RESET_WALLET s).2
  | AddAddress => (ADD_ADDRESS s).2
  | SwitchAddress i => (SWITCH_ADDRESS i s).2
  end.

(** Messages handled one after the other *)
Definition run (ms : list message) (s : State) : State :=
  foldl (fun s m => handle m s) s ms.

(** What a stored session and the stored counters satisfy *)
Definition kept (s : State) : Prop :=
  (∀ sd, session s = Some sd →
     vault s = Some (seed sd) ∧
     addressCount s = Some (Z.of_nat (length (accounts sd))) ∧
     accounts sd = deriveAccounts (seed sd) (Z.of_nat (length (accounts sd))) ∧
     0 ≤ activeIndex sd < Z.of_nat (length (accounts sd))) ∧
  (vault s = None → addressCount s = None ∧ activeAddressIndex s = None) ∧
  (vault s ≠ None →
     ∃ c, addressCount s = Some c ∧ 1 ≤ c ≤ MAX_ACCOUNTS ∧
          ∃ i, activeAddressIndex s = Some i ∧ 0 ≤ i < c).

End WithKeys.
End Session.

Module SessionFixtures.

(** A stand-in for the key derivation: the address and the WIF spell out
    the index and the seed *)
Definition derive (seed : list Z) (i : Z) : jsstring * jsstring :=
  (82 :: i :: seed, 75 :: i :: seed).

End SessionFixtures.

(** ** The debug log (src/core/keychain.ts, lines 96-120) *)

Module DebugLog.

Definition MAX_LOGS : nat := 200.

(** [debugLog(source, ...args)] on the array [memoryLogs]; [entry] is the
    line it formats from the time, the source and the arguments. *)
Definition debugLog (entry : jsstring) (memoryLogs : list jsstring) : list jsstring :=
  let memoryLogs := memoryLogs ++ [entry] in              (* push *)
  if (MAX_LOGS <? length memoryLogs)%nat
  then drop (length memoryLogs - MAX_LOGS) memoryLogs     (* splice(0, length - MAX_LOGS) *)
  else memoryLogs.

Definition getDebugLogs (memoryLogs : list jsstring) : list jsstring := memoryLogs.

Definition clearDebugLogs (memoryLogs : list jsstring) : list jsstring := [].

Inductive call : Type :=
  | Log (entry : jsstring)
  | Clear.

Definition perform (memoryLogs : list jsstring) (c : call) : list jsstring :=
  match c with
  | Log entry => debugLog entry memoryLogs
  | Clear => clearDebugLogs memoryLogs
  end.

(** The lines logged since the last [Clear], oldest first *)
Fixpoint sinceClear (cs : list call) (acc : list jsstring) : list jsstring :=
  match cs with
  | [] => acc
  | Log entry :: cs' => sinceClear cs' (acc ++ [entry])
  | Clear :: cs' => sinceClear cs' []
  end.

End DebugLog.

(** ** buildConversionTransaction (src/core/transaction.ts, lines 261-457) *)

Module Conversion.
Import Keychain Engine.

(** [const TRANSFER_FEE = direct ? 10000 : 20000] *)
Definition TRANSFER_FEE (direct : bool) : Z := if direct then 10000 else 20000.

(** [estimateConvTxSize(inputCount)], with [ccOutputSize = scriptBuf.length + 8] *)
Definition estimateConvTxSize (ccOutputSize inputCount : Z) : Z :=
  inputCount * 148 + ccOutputSize + 34 + 10.

(** The loop [for (let i = 0; i < 5; i++)] of the conversion builder *)
Fixpoint feeLoop (n : nat) (utxos : list UTXO) (outputValue feeRate ccOutputSize : Z)
    (st : FitState) : result FitState :=
  match n with
  | O => Ok st
  | S n' =>
      let size := estimateConvTxSize ccOutputSize (Z.of_nat (length (fit_selected st))) in
      let newFee := feeFor size feeRate in
      if newFee <=? fit_fee st then Ok st
      else
        let fee := newFee in
        '(selected, total) ← selectUTXOs utxos (outputValue + fee);
        feeLoop n' utxos outputValue feeRate ccOutputSize (mkFit fee selected total)
  end.

Section WithLib.
Context `{UtxoLib}.

(** What the function holds when it returns *)
Record ConversionState : Type := mkConversion {
  cs_script : Buffer;
  cs_outputValue : Z;
  cs_selected : list UTXO;
  cs_total : Z;
  cs_fittedFee : Z;
  cs_fee : Z;
  cs_change : Z;
  cs_keyPair : KeyPair;
  cs_builder : TxBuilder;
  cs_tx : Transaction
}.

(** The script of the conversion output, which the function assembles from
    the sender's address, the amount, the three currency ids and [direct]
    with the library's classes; [None] when one of them throws. *)
Variable conversionScript :
  jsstring → Z → jsstring → jsstring → jsstring → bool → option Buffer.

(** The post-build verification (lines 437-449) *)
Definition verifyConversion (tx : Transaction) (outputValue : Z) (senderAddr : jsstring)
  : result unit :=
  ccOut ← of_option (head (outs tx)) VendorError;
  if negb (out_value ccOut =? outputValue) then
    Err (VerificationFailedValue (out_value ccOut) outputValue)
  else if (1 <? length (outs tx))%nat then
    changeOut ← of_option (outs tx !! 1%nat) VendorError;
    changeAddr ← of_option (fromOutputScript (script changeOut)) VendorError;
    if negb (bool_decide (changeAddr = senderAddr)) then
      Err (VerificationFailedAddress changeAddr senderAddr)
    else Ok ()
  else Ok ().

(** [utxos] and [feeRate] are what [listUnspent(scripthash)] and
    [fetchFeeRate()] return. *)
Definition buildConversionTransaction_state (wif : jsstring) (utxos : list UTXO)
    (feeRate : Z) (senderAddress : jsstring) (amountSat : Z)
    (fromCurrencyId toCurrencyId viaCurrencyId : jsstring) (direct : bool)
  : result ConversionState :=
  if negb (isSafeInteger amountSat) || (amountSat <=? 0) then Err InvalidAmount
  else
    scriptBuf ← of_option (conversionScript senderAddress amountSat fromCurrencyId
                             toCurrencyId viaCurrencyId direct) VendorError;
    let outputValue := amountSat + TRANSFER_FEE direct in
    if (length utxos =? 0)%nat then Err NoUtxosAvailable
    else
      let ccOutputSize := Z.of_nat (length scriptBuf) + 8 in
      let fee := MIN_FEE in
      '(selected, total) ← selectUTXOs utxos (outputValue + fee);
      '(mkFit fee selected total) ←
          feeLoop 5 utxos outputValue feeRate ccOutputSize (mkFit fee selected total);
      let change := total - outputValue - fee in
      if change <? 0 then Err (InsufficientAfterFee total (outputValue + fee))
      else
        keyPair ← keyPairFromWIF wif;
        spk ← scriptPubKeyFromWIF wif;
        let senderAddr := getAddress keyPair in
        let inputs := addInputs spk selected in
        let conversion : list (jsstring * Z) := [(scriptBuf, outputValue)] in
        let '(outputs, fee') :=
          if change >? DUST_THRESHOLD
          then (conversion ++ [(senderAddr, change)], fee)
          else (conversion, fee + change) in
        let txb := mkTxb 4 2301567109 0 inputs outputs (signAll selected) in
        tx ← of_option (build keyPair txb) VendorError;
        _ ← verifyConversion tx outputValue senderAddr;
        Ok (mkConversion scriptBuf outputValue selected total fee fee' change
                         keyPair txb tx).

(** [return tx.toHex()] *)
Definition buildConversionTransaction (wif : jsstring) (utxos : list UTXO)
    (feeRate : Z) (senderAddress : jsstring) (amountSat : Z)
    (fromCurrencyId toCurrencyId viaCurrencyId : jsstring) (direct : bool)
  : result jsstring :=
  st ← buildConversionTransaction_state wif utxos feeRate senderAddress amountSat
         fromCurrencyId toCurrencyId viaCurrencyId direct;
  Ok (toHex (cs_tx st)).

End WithLib.
End Conversion.

(** A conversion script for the examples: the library's serialisation is
    replaced by the sender's address followed by one byte for [direct]. *)
Module ConversionFixtures.
Import Keychain.

Definition script (senderAddress : jsstring) (amountSat : Z)
    (fromCurrencyId toCurrencyId viaCurrencyId : jsstring) (direct : bool)
  : option Buffer :=
  Some (senderAddress ++ [if direct then 1 else 0]).

End ConversionFixtures.

(** * Proofs *)

(** Case analysis on every integer comparison of the goal *)
Ltac decide_bounds :=
  repeat match goal with
         | |- context [?a <=? ?b] => destruct (Z.leb_spec a b); try lia
         | |- context [?a <? ?b] => destruct (Z.ltb_spec a b); try lia
         | |- context [?a =? ?b] => destruct (Z.eqb_spec a b); try lia
         end; simpl.

(** Linear arithmetic with quotients and remainders by constants *)
Ltac arith := Z.div_mod_to_equations; lia.

Import Keychain Engine Fixtures.

(** ** UTXO selection *)












(** ** The fee-fitting loop *)

Lemma last_cons_any (x : Z) (l : list Z) (d d' : Z) :
  List.last (x :: l) d = List.last l x.
Proof.
  revert x d. induction l as [|y l IH]; intros x d; [done|].
  change (List.last (y :: l) d = List.last (y :: l) x).
  by rewrite !IH.
Qed.

Lemma increasing_nondecreasing (l : list Z) :
  StronglySorted Z.lt l → Sorted Z.le l.
Proof.
  intros Hs. apply StronglySorted_Sorted.
  induction Hs as [|x l Hs IH Hall]; constructor; [done|].
  eapply Forall_impl; [exact Hall|]. simpl. lia.
Qed.

(** The loop extends the fee history by at most [n] values, each strictly
    above the one before, and the fee it ends with is the last of them. *)
Lemma feeLoop_history n utxos amountSat feeRate fees st :
  ∃ ext,
    (feeLoop n utxos amountSat feeRate fees st).1 = fees ++ ext ∧
    (length ext ≤ n)%nat ∧
    StronglySorted Z.lt (fit_fee st :: ext) ∧
    ∀ st', (feeLoop n utxos amountSat feeRate fees st).2 = Ok st' →
           fit_fee st' = List.last ext (fit_fee st).
Proof.
  revert fees st.
  induction n as [|n IH]; intros fees st; simpl.
  - exists []. rewrite app_nil_r. split_and!; [done | done | repeat constructor |].
    by intros st' [= <-].
  - destruct (Z.leb_spec
      (feeFor (estimateTxSize (Z.of_nat (length (fit_selected st)))
                 outputCountEstimate) feeRate) (fit_fee st)) as [Hle|Hgt].
    + exists []. rewrite app_nil_r.
      split_and!; [done | simpl; lia | repeat constructor |].
      by intros st' [= <-].
    + set (fee := feeFor _ _) in *.
      destruct (selectUTXOs utxos (amountSat + fee)) as [[selected total]|e].
      * destruct (IH (fees ++ [fee]) (mkFit fee selected total))
          as (ext & Hfees & Hlen & Hsorted & Hlast).
        exists (fee :: ext). rewrite Hfees, <- app_assoc.
        change (fit_fee (mkFit fee selected total)) with fee in *.
        split_and!; [done | simpl; lia | |].
        -- constructor; [done|].
           apply StronglySorted_inv in Hsorted as [_ Hall].
           constructor; [done|].
           eapply Forall_impl; [exact Hall|]. simpl. lia.
        -- intros st' Hst'. rewrite (Hlast st' Hst'). by rewrite last_cons_any.
      * exists [fee]. simpl. split_and!; [done | lia | | done].
        repeat constructor. done.
Qed.

(** C3. For every UTXO set, amount and fee rate, the fee history of the
    fitting loop starts at the minimum fee 10000, grows by at most five
    values (one per re-selection after the initial one), and is
    non-decreasing; when the loop returns, the fitted fee is the last value
    of the history. *)
Theorem C3_fee_loop_bounded_monotone (utxos : list UTXO) (amountSat feeRate : Z) :
  let fees := (fitFee utxos amountSat feeRate).1 in
  head fees = Some MIN_FEE ∧
  MIN_FEE = 10000 ∧
  (reselections fees ≤ 5)%nat ∧
  Sorted Z.le fees ∧
  ∀ st, (fitFee utxos amountSat feeRate).2 = Ok st →
        fit_fee st = last_fee fees.
Proof.
  unfold fitFee, reselections, last_fee. cbv zeta.
  destruct (selectUTXOs utxos (amountSat + MIN_FEE)) as [[selected total]|e].
  - destruct (feeLoop_history 5 utxos amountSat feeRate [MIN_FEE]
                (mkFit MIN_FEE selected total))
      as (ext & -> & Hlen & Hsorted & Hlast).
    change (fit_fee (mkFit MIN_FEE selected total)) with MIN_FEE in *.
    change ([MIN_FEE] ++ ext) with (MIN_FEE :: ext).
    split_and!; [done | done | simpl; lia | |].
    + by apply increasing_nondecreasing.
    + intros st Hst. rewrite (Hlast st Hst). by rewrite last_cons_any.
  - simpl. split_and!; [done | done | lia | repeat constructor | done].
Qed.

(** ** The plain-transfer builder *)

Lemma bind_Ok {A B : Type} (r : result A) (k : A → result B) (b : B) :
  (r ≫= k) = Ok b ↔ ∃ a, r = Ok a ∧ k a = Ok b.
Proof.
  destruct r as [a|e]; simpl.
  - split; [by exists a | by intros (? & [= <-] & ?)].
  - split; [done | by intros (? & ? & ?)].
Qed.

Lemma of_option_Ok {A : Type} (o : option A) (e : error) (a : A) :
  of_option o e = Ok a ↔ o = Some a.
Proof. destruct o; simpl; split; congruence. Qed.

Section Builder.
Context `{UtxoLib}.

Lemma verifyBuilt_Ok tx toAddress amountSat :
  verifyBuilt tx toAddress amountSat = Ok () ↔
  ∃ o, head (outs tx) = Some o ∧
       fromOutputScript (script o) = Some toAddress ∧
       out_value o = amountSat.
Proof.
  unfold verifyBuilt. rewrite bind_Ok. setoid_rewrite of_option_Ok.
  setoid_rewrite bind_Ok. setoid_rewrite of_option_Ok.
  split.
  - intros (o & Ho & d & Hd & Hchk). exists o.
    case_bool_decide as Hdec; [subst d | done]. simpl in Hchk.
    destruct (Z.eqb_spec (out_value o) amountSat); done.
  - intros (o & Ho & Hd & Hv). exists o. split; [done|].
    exists toAddress. split; [done|].
    rewrite bool_decide_eq_true_2 by done. simpl.
    by rewrite (proj2 (Z.eqb_eq _ _) Hv).
Qed.

Lemma verifyBuilt_mismatch tx toAddress amountSat o decoded :
  head (outs tx) = Some o →
  fromOutputScript (script o) = Some decoded →
  decoded ≠ toAddress ∨ out_value o ≠ amountSat →
  ∃ e, verifyBuilt tx toAddress amountSat = Err e ∧ verification_failure e = true.
Proof.
  intros Ho Hd Hne. unfold verifyBuilt. rewrite Ho. simpl. rewrite Hd. simpl.
  case_bool_decide as Hdec; simpl; [|eauto].
  destruct (Z.eqb_spec (out_value o) amountSat); simpl; [|eauto].
  by destruct Hne.
Qed.

Lemma prepare_checks wif utxos feeRate toAddress amountSat r :
  prepare wif utxos feeRate toAddress amountSat = Ok r →
  isSafeInteger amountSat = true ∧ 0 < amountSat ∧
  isValidAddress toAddress = true ∧ utxos ≠ [].
Proof.
  unfold prepare.
  destruct (isSafeInteger amountSat); [|done].
  destruct (Z.leb_spec amountSat 0); [done|].
  destruct (isValidAddress toAddress); [|done].
  destruct utxos; [done|]. done.
Qed.

End Builder.

(** C1. Whenever [buildTransaction] returns the hex of a transaction, the
    recipient address was valid, the amount a positive safe integer, and
    output 0 of that transaction decodes to the requested address and
    carries the requested amount.  Whenever the transaction the library
    built has an output 0 that decodes to another address or carries another
    value, [buildTransaction] returns no transaction but a
    verification-failure error. *)
Theorem C1_first_output_is_the_request `{UtxoLib}
    (wif : jsstring) (utxos : list UTXO) (feeRate : Z)
    (toAddress : jsstring) (amountSat : Z) :
  (∀ hex, buildTransaction wif utxos feeRate toAddress amountSat = Ok hex →
     isValidAddress toAddress = true ∧ 0 < amountSat ∧
     isSafeInteger amountSat = true ∧
     ∃ tx o, hex = toHex tx ∧ head (outs tx) = Some o ∧
             fromOutputScript (script o) = Some toAddress ∧
             out_value o = amountSat) ∧
  (∀ keyPair txb locals tx o decoded,
     prepare wif utxos feeRate toAddress amountSat = Ok (keyPair, txb, locals) →
     build keyPair txb = Some tx →
     head (outs tx) = Some o →
     fromOutputScript (script o) = Some decoded →
     decoded ≠ toAddress ∨ out_value o ≠ amountSat →
     ∃ e, buildTransaction wif utxos feeRate toAddress amountSat = Err e ∧
          verification_failure e = true).
Proof.
  split.
  - intros hex. unfold buildTransaction, buildTransaction_state.
    rewrite bind_Ok. intros (st & Hst & [= <-]).
    apply bind_Ok in Hst as ([[kp txb] [[[[sel total] fee] fee'] change]] & Hprep & Hst).
    apply bind_Ok in Hst as (tx & Htx & Hst).
    apply bind_Ok in Hst as ([] & Hver & [= <-]).
    apply prepare_checks in Hprep as (? & ? & ? & _).
    apply verifyBuilt_Ok in Hver as (o & ? & ? & ?).
    split_and!; [done..|]. by exists tx, o.
  - intros keyPair txb [[[[sel total] fee] fee'] change] tx o decoded
      Hprep Hbuild Ho Hd Hne.
    destruct (verifyBuilt_mismatch tx toAddress amountSat o decoded Ho Hd Hne)
      as (e & He & Hfail).
    exists e. split; [|done].
    unfold buildTransaction, buildTransaction_state.
    rewrite Hprep. simpl. rewrite Hbuild. simpl. by rewrite He.
Qed.

(** *** What a successful build went through *)




Section BuiltShape.
Context `{UtxoLib}.


End BuiltShape.

Section Outputs.
Context `{UtxoLib}.


End Outputs.

Section Shapes.
Context `{UtxoLib}.


End Shapes.




Lemma C1_witness :
  (∃ tx o, [] = @toHex ref_lib tx ∧ head (outs tx) = Some o ∧
           @fromOutputScript ref_lib (script o) = Some (js "Rdest") ∧
           out_value o = 10000000) ∧
  (∃ e, @buildTransaction off_by_one_lib (js "wif") wallet 10000
          (js "Rdest") 10000000 = Err e ∧
        verification_failure e = true).
Proof.
  split.
  - destruct (C1_first_output_is_the_request (H := ref_lib)
                (js "wif") wallet 10000 (js "Rdest") 10000000) as [Hok _].
    exact (proj2 (proj2 (proj2 (Hok [] ltac:(vm_compute; reflexivity))))).
  - destruct (C1_first_output_is_the_request (H := off_by_one_lib)
                (js "wif") wallet 10000 (js "Rdest") 10000000) as [_ Hbad].
    eapply (Hbad _ _ _ _ (mkTxOut (js "Rdest") 10000001) (js "Rdest")).
    + vm_compute; reflexivity.
    + vm_compute; reflexivity.
    + reflexivity.
    + reflexivity.
    + right. simpl. lia.
Defined.

(** ** Simulation against the builder *)



(** ** Address validation *)

Section Addresses.
Context `{UtxoLib}.

(** [isValidAddress] returns a boolean on every input: whatever the decoder
    throws is caught and turned into [false]. *)
Lemma isValidAddress_total (address : jsstring) :
  ∃ w b, isValidAddress_run address = (w, b) ∧ isValidAddress address = b.
Proof.
  unfold isValidAddress. destruct (isValidAddress_run address) as [w b]. eauto.
Qed.

Lemma isValidAddress_unprintable (address : jsstring) :
  SAFE_RE_test address = false →
  isValidAddress_run address = ([RegexTest address], false).
Proof.
  intros Hre. unfold isValidAddress_run, isValidAddress_try. by rewrite Hre.
Qed.

Lemma isValidAddress_malformed (address : jsstring) :
  fromBase58Check address = None → isValidAddress address = false.
Proof.
  intros Hdec. unfold isValidAddress, isValidAddress_run, isValidAddress_try.
  destruct (SAFE_RE_test address); [|done]. simpl. by rewrite Hdec.
Qed.

Lemma isValidAddress_wrong_version (address : jsstring) (version : Z) (hash : Buffer) :
  fromBase58Check address = Some (version, hash) →
  version ≠ pubKeyHash → version ≠ scriptHash →
  isValidAddress address = false.
Proof.
  intros Hdec Hp Hs. unfold isValidAddress, isValidAddress_run, isValidAddress_try.
  destruct (SAFE_RE_test address); [|done]. simpl. rewrite Hdec. simpl.
  destruct (Z.eqb_spec version pubKeyHash); [done|].
  by destruct (Z.eqb_spec version scriptHash).
Qed.

Lemma SAFE_RE_test_replicate (n : nat) (c : Z) :
  printable c = true → SAFE_RE_test (replicate (S n) c) = true.
Proof.
  intros Hc. simpl. rewrite Hc. simpl.
  induction n as [|n IH]; simpl; [done|]. by rewrite Hc.
Qed.

End Addresses.

(** C9 (at the failing input). On the 101-character string made of the
    character 1, [isValidAddress] applies no length bound: whatever the
    library is, it runs the regular expression over the whole string and
    then hands the whole string to the base58-check decoder. *)
Theorem C9_no_length_bound `{UtxoLib} :
  let address := replicate 101 49 in
  length address = 101%nat ∧
  (isValidAddress_run address).1
    = [RegexTest address; Base58CheckDecode address].
Proof.
  cbv zeta. split; [done|].
  unfold isValidAddress_run, isValidAddress_try.
  by rewrite (SAFE_RE_test_replicate 100 49).
Qed.

(** ** The unlock rate limiter *)

Import RateLimit.







Import RateFixtures.


(** ** Approval of pending requests *)

Import Consent.










Import ConsentFixtures.



(** ** Challenge signature verification *)

Import Verifier VerifierFixtures.

Lemma searchHeights_searched H h : h ∈ searchHeights H ↔ searched H h.
Proof.
  unfold searchHeights, searched. rewrite elem_of_cons.
  apply or_iff_compat_l. simpl.
  repeat match goal with
         | |- context [?a >? 0] => destruct (Z.gtb_spec a 0)
         end; simpl; rewrite ?elem_of_cons, elem_of_nil;
    (split; [intros Hh; repeat destruct Hh as [->|Hh]; try done;
             first [by exists 1; lia | by exists 2; lia | by exists 3; lia
                   | by exists 4; lia | by exists 5; lia]
            | intros (d & Hd & Hh);
              assert (d = 1 ∨ d = 2 ∨ d = 3 ∨ d = 4 ∨ d = 5) as Hcases by lia;
              lia]).
Qed.

Lemma hashVersions_spec v hashVersion :
  hashVersion ∈ hashVersions v ↔
  hashVersion = v ∨ hashVersion = (if v =? 2 then 1 else 2).
Proof.
  unfold hashVersions. rewrite !elem_of_cons, elem_of_nil. tauto.
Qed.

Lemma candidates_spec sig hashVersion h :
  (hashVersion, h) ∈ candidates sig ↔
  hashVersion ∈ hashVersions (sigVersion sig) ∧
  searched (sigBlockHeight sig) h.
Proof.
  unfold candidates. rewrite list_elem_of_bind. split.
  - intros (v & Hin & Hv). apply list_elem_of_bind in Hin as (h' & Hin & Hh).
    apply list_elem_of_singleton in Hin as [= -> ->].
    split; [done|]. by apply searchHeights_searched.
  - intros [Hv Hh]. exists hashVersion. split; [|done].
    apply list_elem_of_bind. exists h. split; [by apply list_elem_of_singleton|].
    by apply searchHeights_searched.
Qed.

(** C6 (amended). [verifyChallengeSignature] accepts exactly when the
    request parses and carries a signature, the identity lookup answers,
    the signature buffer decodes, and for some height among the signed
    height, the signed height plus 1 to 5 and the signed height minus 1 to 5
    where that is positive, and for some hash version among the declared one
    and the other one, the key recovered against the challenge hash of that
    height and version has a P2PKH address in the identity's primary
    addresses.  Otherwise it answers false. *)
Theorem C6_accepts_iff_candidate_in_search_space `{UtxoLib} `{SigLib}
    (uri : jsstring) (identity : option (list jsstring)) :
  verifyChallengeSignature uri identity = true ↔
  ∃ request signature primaryAddresses sig h hashVersion a,
    fromWalletDeeplinkUri uri = Some request ∧
    request_signature request = Some signature ∧ signature ≠ [] ∧
    identity = Some primaryAddresses ∧
    decodeSignature (base64_decode signature) = Some sig ∧
    searched (sigBlockHeight sig) h ∧
    (hashVersion = sigVersion sig ∨
     hashVersion = (if sigVersion sig =? 2 then 1 else 2)) ∧
    recoveredAddress request sig h hashVersion = Some a ∧
    a ∈ primaryAddresses.
Proof.
  unfold verifyChallengeSignature. split.
  - destruct (fromWalletDeeplinkUri uri) as [request|]; [|done].
    destruct (request_signature request) as [[|c signature]|] eqn:Hsig; try done.
    destruct identity as [[|a0 primaryAddresses]|]; try done.
    destruct (decodeSignature _) as [sig|] eqn:Hdec; [|done].
    intros Hex. apply existsb_exists in Hex as ([hashVersion h] & Hin & Hm).
    apply list_elem_of_In, candidates_spec in Hin as [Hv Hh].
    apply hashVersions_spec in Hv.
    unfold matches in Hm. simpl in Hm.
    destruct (recoveredAddress request sig h hashVersion) as [a|] eqn:Hrec; [|done].
    apply bool_decide_eq_true in Hm.
    exists request, (c :: signature), (a0 :: primaryAddresses), sig, h, hashVersion, a.
    by split_and!.
  - intros (request & signature & primaryAddresses & sig & h & hashVersion & a
            & -> & -> & Hne & -> & Hdec & Hh & Hv & Hrec & Hin).
    destruct signature as [|c signature]; [done|].
    destruct primaryAddresses as [|a0 primaryAddresses];
      [by apply elem_of_nil in Hin|].
    rewrite Hdec. apply existsb_exists. exists (hashVersion, h). split.
    + apply list_elem_of_In, candidates_spec. split; [|done].
      by apply hashVersions_spec.
    + unfold matches. simpl. rewrite Hrec. by apply bool_decide_eq_true.
Qed.

(** C6 as stated fails at height zero: for a signature that says height 3
    and was made over the challenge hash of height 0, which is the signed
    height minus 3 and not negative, the signer's address is one of the
    primary addresses and yet the verification answers false. *)
Lemma C6_height_zero_is_not_searched :
  let H := ref_lib in let S := sig_lib 0 in
  verifyChallengeSignature (signatureAt 3) (Some [signer]) = false ∧
  ∃ sig h hashVersion a,
    decodeSignature (signatureAt 3) = Some sig ∧
    searched_as_stated (sigBlockHeight sig) h ∧
    hashVersion = sigVersion sig ∧
    recoveredAddress (signatureAt 3) sig h hashVersion = Some a ∧
    a ∈ [signer].
Proof.
  cbv zeta. split; [vm_compute; reflexivity|].
  exists (mkIdSig 1 3 0 true (replicate 64 0)), 0, 1, signer.
  split_and!; [vm_compute; reflexivity | | done | done | by left].
  right. exists 3. simpl. lia.
Qed.

Lemma C6_witness :
  let H := ref_lib in let S := sig_lib 1 in
  verifyChallengeSignature (signatureAt 3) (Some [signer]) = true.
Proof.
  cbv zeta.
  apply (C6_accepts_iff_candidate_in_search_space (H := ref_lib) (H0 := sig_lib 1)).
  exists (signatureAt 3), (signatureAt 3), [signer],
    (mkIdSig 1 3 0 true (replicate 64 0)), 1, 1, signer.
  split_and!; try done.
  - right. exists 2. simpl. lia.
  - by left.
  - by left.
Defined.

(** ** The vault *)

Import Vault.

(** *** UTF-8 decodes what it encoded *)
















(** *** The blob and its three segments *)

Lemma segments (salt iv ciphertext : Buffer) :
  length salt = SALT_LENGTH → length iv = IV_LENGTH →
  let data := salt ++ iv ++ ciphertext in
  take SALT_LENGTH data = salt ∧
  take IV_LENGTH (drop SALT_LENGTH data) = iv ∧
  drop (SALT_LENGTH + IV_LENGTH) data = ciphertext.
Proof.
  intros Hs Hi. cbv zeta. split_and!.
  - by rewrite take_app_length'.
  - rewrite <- Hs, drop_app_length. by rewrite take_app_length'.
  - rewrite <- Hs, <- Hi, <- drop_drop, !drop_app_length. done.
Qed.

Section VaultRoundTrip.
Context `{WebPlatform}.

Lemma decryptVault_encryptVault plaintext password password' salt iv :
  platform_laws →
  length salt = SALT_LENGTH → length iv = IV_LENGTH →
  Forall is_byte salt → Forall is_byte iv →
  Forall is_byte (TextEncoder_encode plaintext) →
  decryptVault (encryptVault plaintext password salt iv) password' PBKDF2_ITERATIONS
  = plaintext' ← of_option
      (aes_gcm_decrypt (deriveKey password' salt PBKDF2_ITERATIONS) iv
         (aes_gcm_encrypt (deriveKey password salt PBKDF2_ITERATIONS) iv
            (TextEncoder_encode plaintext))) OperationError;
    Ok (TextDecoder_decode plaintext').
Proof.
  intros [Hb64 Hbytes Hinv] Hs Hi Hsalt Hiv Hplain.
  unfold decryptVault, encryptVault.
  rewrite Hb64 by (rewrite !Forall_app; auto).
  cbn [mbind result_bind of_option].
  by destruct (segments salt iv
    (aes_gcm_encrypt (deriveKey password salt PBKDF2_ITERATIONS) iv
       (TextEncoder_encode plaintext)) Hs Hi) as (-> & -> & ->).
Qed.

End VaultRoundTrip.

Import VaultFixtures.



(** The two ways the vault departs from a plain round trip hold on every
    platform that keeps the laws, not only on the one used below. *)

Section VaultLimits.
Context `{WebPlatform}.

Lemma unpaired_surrogate_is_replaced (password : jsstring) (salt iv : Buffer) :
  platform_laws →
  length salt = SALT_LENGTH → length iv = IV_LENGTH →
  Forall is_byte salt → Forall is_byte iv →
  decryptVault (encryptVault [55296] password salt iv) password PBKDF2_ITERATIONS
    = Ok [REPLACEMENT].
Proof.
  intros Hlaws Hs Hi Hsalt Hiv.
  rewrite decryptVault_encryptVault; [|done..|].
  - by rewrite (gcm_inverse Hlaws).
  - change (TextEncoder_encode [55296]) with [239; 191; 189].
    repeat constructor; unfold is_byte; lia.
Qed.

Lemma trailing_nul_derives_the_same_key (salt : Buffer) (iterations : Z) :
  deriveKey (js "a" ++ [0]) salt iterations = deriveKey (js "a") salt iterations.
Proof. reflexivity. Qed.

Lemma same_key_opens_the_vault (encoded password password' : jsstring) (iterations : Z) :
  (∀ salt, deriveKey password' salt iterations = deriveKey password salt iterations) →
  decryptVault encoded password' iterations = decryptVault encoded password iterations.
Proof.
  intros Hkey. unfold decryptVault.
  destruct (atob_bytes encoded) as [data|]; [|done]. simpl. by rewrite Hkey.
Qed.

End VaultLimits.



(** * Further properties of the wallet core *)

(** ** Selection stops at the first prefix that covers the target *)

Import Estimator.

Lemma prefix_sum_cons u rest k :
  prefix_sum (u :: rest) (S k) = value u + prefix_sum rest k.
Proof. reflexivity. Qed.

Lemma prefix_sum_0 sorted : prefix_sum sorted 0 = 0.
Proof. by destruct sorted. Qed.

Lemma accumulate_first_stop sorted selected total targetSat :
  ∃ k, accumulate sorted selected total targetSat
         = (selected ++ take k sorted, total + prefix_sum sorted k) ∧
       first_stop sorted (fun j => targetSat ≤ total + prefix_sum sorted j) k.
Proof.
  revert selected total.
  induction sorted as [|u rest IH]; intros selected total; simpl.
  - exists 0%nat. rewrite app_nil_r, prefix_sum_0, Z.add_0_r.
    split; [done|]. split_and!; [done | done | by right | intros; lia].
  - destruct (Z.geb_spec (total + value u) targetSat) as [Hge|Hlt].
    + exists 1%nat. rewrite !prefix_sum_cons, prefix_sum_0, Z.add_0_r.
      split; [by destruct rest|].
      split_and!; [simpl; lia | done | | intros; lia].
      left. rewrite prefix_sum_cons, prefix_sum_0. lia.
    + destruct (IH (selected ++ [u]) (total + value u))
        as (k & Hacc & Hlen & Hone & Hstop & Hmin).
      exists (S k). rewrite Hacc, <- app_assoc, prefix_sum_cons.
      split; [simpl; f_equal; lia|].
      split_and!; [simpl; lia | lia | |].
      * destruct Hstop as [?| ->]; [left | by right].
        rewrite prefix_sum_cons. lia.
      * intros [|j] Hj; [lia|]. rewrite prefix_sum_cons.
        destruct j as [|j]; [rewrite prefix_sum_0; lia|].
        intros Hen. apply (Hmin (S j)); [lia|]. lia.
Qed.


Lemma selectUTXOs_first_stop utxos targetSat selected total :
  selectUTXOs utxos targetSat = Ok (selected, total) →
  ∃ k, selected = take k (sort_desc utxos) ∧
       total = prefix_sum (sort_desc utxos) k ∧
       targetSat ≤ total ∧
       first_stop (sort_desc utxos)
         (fun j => targetSat ≤ prefix_sum (sort_desc utxos) j) k.
Proof.
  unfold selectUTXOs.
  destruct (accumulate_first_stop (sort_desc utxos) [] 0 targetSat)
    as (k & -> & Hstop).
  cbv beta iota zeta. rewrite Z.add_0_l, app_nil_l.
  destruct (Z.ltb_spec (prefix_sum (sort_desc utxos) k) targetSat); [done|].
  intros [= <- <-]. exists k. split_and!; [done | done | done |].
  destruct Hstop as (? & ? & Hs & Hm). split_and!; [done | done | |].
  - destruct Hs as [?|?]; [left; lia | by right].
  - intros j Hj Hen. apply (Hm j Hj). lia.
Qed.



(** ** The fitted fee and the estimate *)

Lemma feeFor_min size feeRate : MIN_FEE ≤ feeFor size feeRate.
Proof. unfold feeFor. lia. Qed.

Lemma feeFor_mono size size' feeRate :
  0 ≤ feeRate → size ≤ size' → feeFor size feeRate ≤ feeFor size' feeRate.
Proof.
  intros Hr Hs. unfold feeFor, round_div_1000.
  assert ((size * feeRate + 500) / 1000 ≤ (size' * feeRate + 500) / 1000)
    by (apply Z.div_le_mono; nia).
  lia.
Qed.

Lemma feeOf_mono feeRate (k k' : nat) :
  0 ≤ feeRate → (k ≤ k')%nat → feeOf feeRate k ≤ feeOf feeRate k'.
Proof.
  intros Hr Hk. apply feeFor_mono; [done|]. unfold estimateTxSize. lia.
Qed.

Lemma countInputs_first_stop sorted inputCount total amountSat feeRate :
  ∃ k, countInputs sorted inputCount total amountSat feeRate
         = inputCount + Z.of_nat k ∧
       first_stop sorted
         (fun j => amountSat
                   + feeFor (estimateTxSize (inputCount + Z.of_nat j)
                               outputCountEstimate) feeRate
                   ≤ total + prefix_sum sorted j) k.
Proof.
  revert inputCount total.
  induction sorted as [|u rest IH]; intros inputCount total; simpl.
  - exists 0%nat. split; [lia|].
    split_and!; [done | done | by right | intros; lia].
  - destruct (Z.geb_spec (total + value u)
      (amountSat + feeFor (estimateTxSize (inputCount + 1) outputCountEstimate)
                     feeRate)) as [Hge|Hlt].
    + exists 1%nat. split; [lia|].
      split_and!; [simpl; lia | done | | intros; lia].
      left. rewrite prefix_sum_cons, prefix_sum_0.
      change (Z.of_nat 1) with 1. lia.
    + destruct (IH (inputCount + 1) (total + value u))
        as (k & Hcount & Hlen & Hone & Hstop & Hmin).
      exists (S k). rewrite Hcount. split; [lia|].
      split_and!; [simpl; lia | lia | |].
      * destruct Hstop as [Hen| ->]; [left | by right].
        rewrite prefix_sum_cons.
        replace (inputCount + Z.of_nat (S k)) with (inputCount + 1 + Z.of_nat k)
          by lia. lia.
      * intros [|j] Hj; [lia|]. rewrite prefix_sum_cons.
        destruct j as [|j].
        { rewrite prefix_sum_0. change (Z.of_nat 1) with 1. lia. }
        intros Hen. apply (Hmin (S j)); [lia|].
        replace (inputCount + 1 + Z.of_nat (S j))
          with (inputCount + Z.of_nat (S (S j))) by lia. lia.
Qed.

(** The estimate in terms of the sorted UTXOs: its input count is where
    the first prefix covers the amount and the fee of its own size. *)
Lemma estimateTransactionFee_spec utxos feeRate amountSat :
  ∃ ke, fe_inputCount (estimateTransactionFee utxos feeRate amountSat)
          = Z.of_nat ke ∧
        fe_estimatedFee (estimateTransactionFee utxos feeRate amountSat)
          = feeOf feeRate ke ∧
        first_stop (sort_desc utxos)
          (fun j => amountSat + feeOf feeRate j ≤ prefix_sum (sort_desc utxos) j) ke.
Proof.
  unfold estimateTransactionFee. simpl.
  destruct (countInputs_first_stop (sort_desc utxos) 0 0 amountSat feeRate)
    as (ke & -> & Hstop).
  exists ke. rewrite Z.add_0_l. split; [done|]. split; [done|].
  destruct Hstop as (? & ? & Hs & Hm). split_and!; [done | done | |].
  - destruct Hs as [Hs|?]; [left | by right].
    rewrite Z.add_0_l in Hs. unfold feeOf. lia.
  - intros j Hj Hen. apply (Hm j Hj). rewrite Z.add_0_l. unfold feeOf in Hen. lia.
Qed.

Section Tracking.
Variables (utxos : list UTXO) (amountSat feeRate : Z) (ke : nat).
Hypothesis rate_nonneg : 0 ≤ feeRate.
Hypothesis estimate_stop :
  first_stop (sort_desc utxos)
    (fun j => amountSat + feeOf feeRate j ≤ prefix_sum (sort_desc utxos) j) ke.

Lemma select_tracks fee selected total :
  selectUTXOs utxos (amountSat + fee) = Ok (selected, total) →
  fee ≤ feeOf feeRate ke →
  (∀ k, first_stop (sort_desc utxos)
          (fun j => amountSat + fee ≤ prefix_sum (sort_desc utxos) j) k →
        amountSat + fee ≤ prefix_sum (sort_desc utxos) k →
        fee ≤ feeOf feeRate k) →
  tracks (sort_desc utxos) amountSat feeRate ke (mkFit fee selected total).
Proof.
  intros Hsel Hke Hk.
  destruct (selectUTXOs_first_stop _ _ _ _ Hsel) as (k & -> & -> & Hcov & Hstop).
  exists k. simpl. split_and!; [done | done | done | done | by apply Hk | done |].
  destruct Hstop as (Hlen & Hone & _ & Hmin).
  destruct estimate_stop as (Hlen' & Hone' & [Hen| ->] & _); [|done].
  destruct (Nat.le_gt_cases k ke) as [?|Hgt]; [done|]. exfalso.
  destruct (decide (sort_desc utxos = [])) as [Hnil|Hnil].
  - rewrite Hnil in Hlen. simpl in Hlen. lia.
  - apply (Hmin ke); [specialize (Hone' Hnil); lia|]. lia.
Qed.

Lemma feeLoop_tracks n fees st st' :
  tracks (sort_desc utxos) amountSat feeRate ke st →
  MIN_FEE ≤ fit_fee st →
  (feeLoop n utxos amountSat feeRate fees st).2 = Ok st' →
  tracks (sort_desc utxos) amountSat feeRate ke st' ∧
  MIN_FEE ≤ fit_fee st' ∧
  (feeOf feeRate (length (fit_selected st')) ≤ fit_fee st' ∨
   length (feeLoop n utxos amountSat feeRate fees st).1 = (length fees + n)%nat).
Proof.
  revert fees st. induction n as [|n IH]; intros fees st Htr Hmin; simpl.
  - intros [= <-]. split_and!; [done | done | right; lia].
  - fold (feeOf feeRate (length (fit_selected st))).
    destruct (Z.leb_spec (feeOf feeRate (length (fit_selected st))) (fit_fee st))
      as [Hle|Hgt].
    + intros [= <-]. split_and!; [done | done | by left].
    + destruct (selectUTXOs utxos _) as [[selected total]|e] eqn:Hsel; [|done].
      intros Hloop.
      destruct Htr as (k & Hsel_k & Htot & Hstop & Hcov & Hfk & Hfke & Hkke).
      destruct Hstop as (Hlen & Hone & _ & Hmin_k).
      assert (length (fit_selected st) = k) as Hk
        by (rewrite Hsel_k; by apply length_take_le).
      rewrite Hk in *.
      destruct (IH (fees ++ [feeOf feeRate k])
                  (mkFit (feeOf feeRate k) selected total)) as (Htr' & Hmin' & Hend);
        [ | apply feeFor_min | done | ].
      * apply select_tracks; [done | by apply feeOf_mono |].
        intros k' (Hlen' & Hone' & _ & _) Hcov'.
        apply feeOf_mono; [done|].
        destruct (Nat.le_gt_cases k k') as [?|Hlt]; [done|]. exfalso.
        destruct (decide (sort_desc utxos = [])) as [Hnil|Hnil].
        -- rewrite Hnil in Hlen. simpl in Hlen. lia.
        -- apply (Hmin_k k'); [specialize (Hone' Hnil); lia|]. lia.
      * split_and!; [done | done |].
        destruct Hend as [?|Hlenf]; [by left | right].
        rewrite Hlenf, length_app. simpl. lia.
Qed.

End Tracking.

(** X2. For a fee rate that is not negative, the fee and the selection the
    fitting loop ends with never exceed the fee and the input count of
    [estimateTransactionFee] over the same UTXOs and amount; the fee is at
    least the minimum fee.  When the loop stops before its fifth
    re-selection, it has reached the estimate exactly: the fitted fee is the
    estimated fee, the number of selected UTXOs is the estimated input
    count, and the fee is the size-based fee of the final selection. *)
Theorem X2_fitted_fee_is_the_estimate
    (utxos : list UTXO) (amountSat feeRate : Z) (fees : list Z) (st : FitState) :
  0 ≤ feeRate →
  fitFee utxos amountSat feeRate = (fees, Ok st) →
  let e := estimateTransactionFee utxos feeRate amountSat in
  MIN_FEE ≤ fit_fee st ∧
  fit_fee st ≤ fe_estimatedFee e ∧
  Z.of_nat (length (fit_selected st)) ≤ fe_inputCount e ∧
  ((reselections fees < 5)%nat →
     fit_fee st = fe_estimatedFee e ∧
     Z.of_nat (length (fit_selected st)) = fe_inputCount e ∧
     fit_fee st = feeOf feeRate (length (fit_selected st))).
Proof.
  intros Hr Hfit. cbv zeta.
  destruct (estimateTransactionFee_spec utxos feeRate amountSat)
    as (ke & -> & -> & Hest).
  unfold fitFee in Hfit.
  destruct (selectUTXOs utxos (amountSat + MIN_FEE)) as [[selected total]|e] eqn:Hsel;
    [|done].
  assert (tracks (sort_desc utxos) amountSat feeRate ke
            (mkFit MIN_FEE selected total)) as Htr.
  { apply (select_tracks utxos amountSat feeRate ke Hest); [done | apply feeFor_min |].
    intros. apply feeFor_min. }
  destruct (feeLoop_tracks utxos amountSat feeRate ke Hr Hest 5 [MIN_FEE]
              (mkFit MIN_FEE selected total) st Htr)
    as (Htr' & Hmin & Hend); [done | by rewrite Hfit |].
  rewrite Hfit in Hend. simpl in Hend.
  destruct Htr' as (k & Hsel_k & Htot & (Hlen & Hone & _ & _) & Hcov & Hfk & Hfke & Hkke).
  assert (length (fit_selected st) = k) as Hk
    by (rewrite Hsel_k; by apply length_take_le).
  rewrite Hk in *. split_and!; [done | done | lia |].
  unfold reselections. intros Hfew.
  destruct Hend as [Hconv|?]; [|lia].
  assert (fit_fee st = feeOf feeRate k) as Hfee by lia.
  assert (k = ke) as ->; [|done].
  destruct Hest as (Hlen' & _ & _ & Hmin').
  destruct (Nat.le_gt_cases ke k) as [?|Hlt]; [lia|]. exfalso.
  destruct (decide (sort_desc utxos = [])) as [Hnil|Hnil].
  - rewrite Hnil in Hlen'. simpl in Hlen'. lia.
  - apply (Hmin' k); [specialize (Hone Hnil); lia|]. lia.
Qed.

Lemma X2_witness :
  let e := estimateTransactionFee wallet 10000 10000000 in
  fe_estimatedFee e = 10000 ∧ fe_inputCount e = 1.
Proof.
  destruct (X2_fitted_fee_is_the_estimate wallet 10000000 10000 [MIN_FEE]
              (mkFit MIN_FEE [utxo 50000000] 50000000)
              ltac:(lia) ltac:(vm_compute; reflexivity))
    as (_ & _ & _ & Hexact).
  destruct (Hexact ltac:(unfold reselections; simpl; lia)) as (Hfee & Hcount & _).
  split; [symmetry; exact Hfee | symmetry; exact Hcount].
Defined.





(** ** What a valid simulation says *)



Section Simulation.
Context `{UtxoLib}.

(** A valid simulation went through every check and its numbers are those
    of the fitted state. *)
Lemma simulateTransaction_valid utxos feeRate toAddress amountSat totalBalanceSat :
  valid (simulateTransaction utxos feeRate toAddress amountSat totalBalanceSat) = true →
  ∃ st change,
    isSafeInteger amountSat = true ∧ 0 < amountSat ∧
    isValidAddress toAddress = true ∧ utxos ≠ [] ∧
    (fitFee utxos amountSat feeRate).2 = Ok st ∧
    change = fit_total st - amountSat - fit_fee st ∧ 0 ≤ change ∧
    simulateTransaction utxos feeRate toAddress amountSat totalBalanceSat
    = mkSim true amountSat
        (if change >? DUST_THRESHOLD then fit_fee st else fit_fee st + change)
        (if change >? DUST_THRESHOLD then change else 0)
        (Z.of_nat (length (fit_selected st)))
        (if change >? DUST_THRESHOLD then 2 else 1)
        (fit_total st)
        (Z.max 0 (totalBalanceSat - amountSat
                  - (if change >? DUST_THRESHOLD then fit_fee st
                     else fit_fee st + change)))
        (warnings (simulateTransaction utxos feeRate toAddress amountSat
                     totalBalanceSat)).
Proof.
  unfold simulateTransaction.
  destruct (isSafeInteger amountSat); [|done].
  destruct (Z.leb_spec amountSat 0); [done|].
  destruct (isValidAddress toAddress); [|done].
  destruct utxos as [|u0 utxos']; [done|]. simpl negb. cbv iota. simpl orb.
  cbv iota. simpl (length (u0 :: utxos') =? 0)%nat. cbv iota.
  destruct (fitFee (u0 :: utxos') amountSat feeRate) as [fees [[fee selected total]|e]];
    [|done].
  destruct (Z.ltb_spec (total - amountSat - fee) 0); [done|].
  intros _. exists (mkFit fee selected total), (total - amountSat - fee).
  by split_and!.
Qed.

End Simulation.



(** X5. When the simulation is valid and the WIF is one the library reads,
    the builder reaches [build]: it hands the library as many inputs and
    outputs as the simulation counted, with the recipient output first and
    the simulated fee as its final fee.  Only the library's [build] or the
    check of the built transaction can still fail. *)
Theorem X5_valid_simulation_reaches_build `{UtxoLib}
    (wif : jsstring) (utxos : list UTXO) (feeRate : Z) (toAddress : jsstring)
    (amountSat totalBalanceSat : Z) (keyPair : KeyPair) :
  let sim := simulateTransaction utxos feeRate toAddress amountSat totalBalanceSat in
  valid sim = true →
  fromWIF wif = Some keyPair →
  ∃ txb selected total fee change,
    prepare wif utxos feeRate toAddress amountSat
      = Ok (keyPair, txb, (selected, total, fee, feeSat sim, change)) ∧
    Z.of_nat (length (b_inputs txb)) = inputCount sim ∧
    Z.of_nat (length (b_outputs txb)) = outputCount sim ∧
    head (b_outputs txb) = Some (toAddress, amountSat) ∧
    total = totalInputSat sim.
Proof.
  cbv zeta. intros Hvalid Hwif.
  destruct (simulateTransaction_valid _ _ _ _ _ Hvalid)
    as ([fee selected total] & change & Hsafe & Hpos & Haddr & Hne & Hfit & Hchange
        & Hnonneg & ->).
  simpl in *. unfold prepare, scriptPubKeyFromWIF, keyPairFromWIF.
  rewrite Hsafe, Haddr, Hwif. destruct (Z.leb_spec amountSat 0); [lia|].
  destruct utxos as [|u0 utxos']; [done|]. simpl negb. cbv iota. simpl orb.
  cbv iota. simpl (length (u0 :: utxos') =? 0)%nat. cbv iota.
  rewrite Hfit. simpl. rewrite <- Hchange.
  destruct (Z.ltb_spec change 0); [lia|].
  destruct (change >? DUST_THRESHOLD); simpl;
    eexists _, selected, total, fee, change;
    (split; [reflexivity|]); simpl; unfold addInputs; rewrite length_map; done.
Qed.

Lemma X5_witness :
  ∃ txb selected total fee change,
    @prepare ref_lib (js "wif") wallet 10000 (js "Rdest") 10000000
      = Ok (js "wif", txb, (selected, total, fee, 10000, change)) ∧
    length (b_outputs txb) = 2%nat.
Proof.
  destruct (X5_valid_simulation_reaches_build (H := ref_lib) (js "wif") wallet 10000
              (js "Rdest") 10000000 53000000 (js "wif")
              ltac:(vm_compute; reflexivity) ltac:(reflexivity))
    as (txb & selected & total & fee & change & Hprep & _ & Hout & _).
  exists txb, selected, total, fee, change. split; [exact Hprep|].
  apply Nat2Z.inj. exact Hout.
Defined.

(** ** The estimate on its own *)



(** ** The Electrum client *)

Import Electrum Scripthash.

Lemma validateUtxo_validated u i utxo :
  validateUtxo u i = Answer utxo → validated utxo.
Proof.
  unfold validateUtxo, isHex64, isSafeInt, validated.
  repeat (case_match; try done); simplify_eq. intros [= <-]. simpl.
  repeat match goal with
         | H : (_ <=? _) = true |- _ => apply Z.leb_le in H
         | H : (_ <? _) = false |- _ => apply Z.ltb_ge in H
         end.
  unfold MAX_SAFE_INTEGER in *. split_and!; try done; lia.
Qed.

Lemma validateAll_validated items i utxos :
  validateAll items i = Answer utxos →
  length utxos = length items ∧ Forall validated utxos.
Proof.
  revert i utxos. induction items as [|u rest IH]; intros i utxos; simpl.
  - by intros [= <-].
  - destruct (validateUtxo u i) as [utxo|] eqn:Hu; [|done].
    destruct (validateAll rest (S i)) as [utxos'|] eqn:Hrest; [|done].
    intros [= <-]. destruct (IH _ _ Hrest) as [Hlen Hall]. simpl.
    split; [by rewrite Hlen|]. constructor; [|done].
    by eapply validateUtxo_validated.
Qed.

(** X7. Whatever the proxy answers, the UTXOs [listUnspent] returns are
    validated: there is one per item of the answered array, each with a
    64-character hex hash, a position and a value that are safe integers
    and not negative, and a height that is a safe integer.  Their values
    are in particular not negative, as UTXO selection assumes.  A script
    hash that is not 64 hex characters is refused before the answer is
    looked at, and an answer that is not an array is refused. *)
Theorem X7_listUnspent_returns_validated_utxos
    (scripthash : jsstring) (response : answer json) :
  (∀ utxos, listUnspent scripthash response = Answer utxos →
     HEX64_RE_test scripthash = true ∧
     (∃ items, response = Answer (JArr items) ∧ length utxos = length items) ∧
     Forall validated utxos ∧
     Forall (fun u => 0 ≤ value u) utxos) ∧
  (HEX64_RE_test scripthash = false →
     listUnspent scripthash response = Failure InvalidHex64) ∧
  (∀ v, HEX64_RE_test scripthash = true → response = Answer v →
     (∀ items, v ≠ JArr items) →
     listUnspent scripthash response = Failure InvalidListUnspent).
Proof.
  unfold listUnspent. split_and!.
  - intros utxos. destruct (HEX64_RE_test scripthash); [|done]. simpl.
    destruct response as [[| | | | |items|]|]; try done.
    intros Hall. destruct (validateAll_validated _ _ _ Hall) as [Hlen Hval].
    split_and!; [done | by exists items | done |].
    eapply Forall_impl; [exact Hval|]. by intros u (_ & _ & [? _] & _).
  - by intros ->.
  - intros v -> -> Hv. simpl. destruct v; try done. by destruct (Hv items).
Qed.

Lemma X7_witness :
  ∃ u, listUnspent (replicate 64 97)
         (Answer (JArr [JObj [(js "tx_hash", JStr (replicate 64 48));
                              (js "tx_pos", JNum (Integer 1));
                              (js "value", JNum (Integer 5000));
                              (js "height", JNum (Integer 0))]])) = Answer [u] ∧
       0 ≤ value u.
Proof.
  destruct (X7_listUnspent_returns_validated_utxos (replicate 64 97)
    (Answer (JArr [JObj [(js "tx_hash", JStr (replicate 64 48));
                         (js "tx_pos", JNum (Integer 1));
                         (js "value", JNum (Integer 5000));
                         (js "height", JNum (Integer 0))]]))) as [Hok _].
  destruct (Hok [mkUTXO (replicate 64 48) 1 0 5000] ltac:(vm_compute; reflexivity))
    as (_ & _ & _ & Hpos).
  exists (mkUTXO (replicate 64 48) 1 0 5000).
  split; [vm_compute; reflexivity|]. by apply Forall_cons in Hpos as [? _].
Defined.

(** ** Script hashes *)

Lemma hexDigit_hex n : 0 ≤ n < 16 → isHexChar (hexDigit n) = true.
Proof.
  intros Hn. unfold hexDigit, isHexChar.
  destruct (Z.ltb_spec n 10); decide_bounds; done.
Qed.

Lemma hexDigit_inj n m : 0 ≤ n < 16 → 0 ≤ m < 16 → hexDigit n = hexDigit m → n = m.
Proof.
  unfold hexDigit. intros Hn Hm.
  destruct (Z.ltb_spec n 10); destruct (Z.ltb_spec m 10); lia.
Qed.

Lemma toString_hex_chars b :
  Forall Vault.is_byte b →
  length (toString_hex b) = (2 * length b)%nat ∧
  forallb isHexChar (toString_hex b) = true.
Proof.
  unfold Vault.is_byte. induction 1 as [|x b Hx _ [IHl IHc]]; [done|].
  simpl. split; [lia|].
  rewrite !hexDigit_hex by arith. by rewrite IHc.
Qed.

Lemma toString_hex_inj b b' :
  Forall Vault.is_byte b → Forall Vault.is_byte b' →
  toString_hex b = toString_hex b' → b = b'.
Proof.
  unfold Vault.is_byte. intros Hb. revert b'.
  induction Hb as [|x b Hx _ IH]; intros b' Hb' Heq.
  - by destruct b'.
  - destruct Hb' as [|x' b' Hx' Hb']; [done|]. simpl in Heq.
    injection Heq as Hhi Hlo Hrest.
    apply hexDigit_inj in Hhi; [|arith..]. apply hexDigit_inj in Hlo; [|arith..].
    f_equal; [arith | by apply IH].
Qed.

(** X8. With a SHA-256 that returns 32 bytes, every script hash
    [addressToScripthash] returns is 64 lower-case hex characters, so the
    Electrum client never refuses it as malformed; it is the hex of the
    digest of the address's output script read backwards; and two addresses
    get the same script hash only if their scripts have the same digest. *)
Theorem X8_scripthash_is_hex64 `{UtxoLib} (sha256 : Buffer → Buffer)
    (address : jsstring) (scripthash : jsstring) :
  digest32 sha256 →
  addressToScripthash sha256 address = Ok scripthash →
  HEX64_RE_test scripthash = true ∧
  (∀ items, listUnspent scripthash (Answer (JArr items)) = validateAll items 0) ∧
  ∃ script,
    toOutputScript address = Some script ∧
    scripthash = toString_hex (reverse (sha256 script)) ∧
    ∀ address' script',
      toOutputScript address' = Some script' →
      addressToScripthash sha256 address' = Ok scripthash →
      sha256 script' = sha256 script.
Proof.
  intros Hsha. unfold addressToScripthash. rewrite bind_Ok.
  intros (script & Hscript%of_option_Ok & [= <-]).
  destruct (Hsha script) as [Hlen Hbytes].
  assert (Forall Vault.is_byte (reverse (sha256 script))) as Hrev
    by (by rewrite reverse_Permutation).
  destruct (toString_hex_chars _ Hrev) as [Hl Hc].
  assert (HEX64_RE_test (toString_hex (reverse (sha256 script))) = true) as Hhex.
  { unfold HEX64_RE_test. rewrite Hl, length_reverse, Hlen, Hc. done. }
  split; [done|]. split.
  - intros items. unfold listUnspent. by rewrite Hhex.
  - exists script. split; [done|]. split; [done|].
    intros address' script' Hscript' Heq. rewrite Hscript' in Heq. simpl in Heq.
    injection Heq as Heq. destruct (Hsha script') as [_ Hbytes'].
    apply toString_hex_inj in Heq; [|by rewrite reverse_Permutation..].
    by apply (inj reverse) in Heq.
Qed.

Lemma pad32_digest32 : digest32 ElectrumFixtures.pad32.
Proof.
  intros b. unfold ElectrumFixtures.pad32. split.
  - rewrite length_take_le; [done|]. rewrite length_app, length_replicate. lia.
  - apply Forall_take, Forall_app. split.
    + apply Forall_forall. intros x (y & -> & _)%list_elem_of_fmap.
      unfold Vault.is_byte. arith.
    + by apply Forall_replicate.
Qed.

Lemma X8_witness :
  HEX64_RE_test
    (toString_hex (reverse (ElectrumFixtures.pad32 (js "RAddress")))) = true.
Proof.
  destruct (X8_scripthash_is_hex64 (H := ref_lib) ElectrumFixtures.pad32
              (js "RAddress")
              (toString_hex (reverse (ElectrumFixtures.pad32 (js "RAddress"))))
              pad32_digest32 eq_refl) as [Hhex _].
  exact Hhex.
Defined.

(** ** Failover between the proxy servers *)

Lemma proxyLoop_spec {A} (respond : jsstring → answer A) n :
  ∀ serverIndex lastError tried0,
  ∃ k, (k ≤ n)%nat ∧
    let '(r, serverIndex', tried) :=
      proxyLoop n respond serverIndex lastError tried0 in
    let asked := map (fun j => nth ((serverIndex + j) mod 4) PROXY_SERVERS [])
                     (seq 0 k) in
    serverIndex' = (serverIndex + k)%nat ∧
    tried = tried0 ++ asked ∧
    match r with
    | Answer a =>
        ∃ asked', asked = asked' ++ [nth ((serverIndex + (k - 1)) mod 4) PROXY_SERVERS []] ∧
          (1 ≤ k)%nat ∧
          Forall (fun s => ∃ f, respond s = Failure f) asked' ∧
          respond (nth ((serverIndex + (k - 1)) mod 4) PROXY_SERVERS []) = Answer a
    | Failure f =>
        k = n ∧ Forall (fun s => ∃ f, respond s = Failure f) asked ∧
        match n with
        | O => f = default AllServersFailed lastError
        | S _ => respond (nth ((serverIndex + (k - 1)) mod 4) PROXY_SERVERS []) = Failure f
        end
    end.
Proof.
  induction n as [|n IH]; intros serverIndex lastError tried0.
  - exists 0%nat. simpl. rewrite app_nil_r. split_and!; done.
  - cbn [proxyLoop nextServer]. change (length PROXY_SERVERS) with 4%nat.
    destruct (respond (nth (serverIndex mod 4) PROXY_SERVERS [])) as [a|f] eqn:Hr.
    + exists 1%nat. simpl. rewrite Nat.add_0_r. split; [lia|].
      split; [lia|]. split; [done|]. exists []. split_and!; done.
    + destruct (IH (S serverIndex) (Some f) (tried0 ++ [nth (serverIndex mod 4) PROXY_SERVERS []]))
        as (k & Hk & Hspec).
      exists (S k). split; [lia|].
      destruct (proxyLoop n respond (S serverIndex) (Some f) _) as [[r idx'] tried].
      cbv zeta in Hspec |- *. destruct Hspec as (-> & -> & Hres).
      assert (∀ k', map (fun j => nth ((serverIndex + j) mod 4) PROXY_SERVERS []) (seq 0 (S k'))
                = nth (serverIndex mod 4) PROXY_SERVERS []
                  :: map (fun j => nth ((S serverIndex + j) mod 4) PROXY_SERVERS []) (seq 0 k'))
        as Hseq.
      { intros k'. cbn [seq map]. rewrite Nat.add_0_r. f_equal.
        rewrite <- seq_shift, map_map. apply map_ext. intros j.
        by rewrite Nat.add_succ_r. }
      rewrite Hseq. split; [lia|]. split; [by rewrite <- app_assoc|].
      destruct r as [a|f'].
      * destruct Hres as (asked' & Heq & Hk1 & Hfail & Hans).
        exists (nth (serverIndex mod 4) PROXY_SERVERS [] :: asked').
        replace (serverIndex + (S k - 1))%nat with (S serverIndex + (k - 1))%nat by lia.
        split_and!; [by rewrite Heq | lia | | done].
        constructor; [by exists f | done].
      * destruct Hres as (-> & Hfail & Hlast). split; [done|].
        split; [constructor; [by exists f | done]|].
        destruct n as [|n'].
        -- simpl in Hlast. subst f'. simpl. by rewrite Nat.add_0_r.
        -- by replace (serverIndex + (S (S n') - 1))%nat
             with (S serverIndex + (S n' - 1))%nat by lia.
Qed.

Lemma rotation_take serverIndex k :
  (k ≤ 4)%nat →
  map (fun j => nth ((serverIndex + j) mod 4) PROXY_SERVERS []) (seq 0 k)
  = take k (rotation serverIndex).
Proof.
  intros Hk. unfold rotation.
  change [0; 1; 2; 3]%nat with (seq 0 4). rewrite <- fmap_take.
  f_equal. destruct k as [|[|[|[|[|]]]]]; try done; lia.
Qed.

Lemma rotation_NoDup serverIndex :
  NoDup (rotation serverIndex) ∧ rotation serverIndex ≡ₚ PROXY_SERVERS.
Proof.
  unfold rotation. cbn [map].
  rewrite !(Nat.Div0.add_mod serverIndex _ 4).
  pose proof (Nat.mod_upper_bound serverIndex 4 ltac:(lia)) as Hr.
  destruct (serverIndex mod 4)%nat as [|[|[|[|]]]]; [..|lia];
    (split; [apply (bool_decide_unpack _ (dec := NoDup_dec _)); vm_compute; exact I|]);
    cbn [Nat.modulo Nat.divmod Nat.add fst snd Nat.sub nth PROXY_SERVERS].
  - done.
  - exact (Permutation_app_comm [_; _; _] [_]).
  - exact (Permutation_app_comm [_; _] [_; _]).
  - exact (Permutation_app_comm [_] [_; _; _]).
Qed.

(** X9. A request through the proxies, run on its own, asks the four servers
    in rotation from the current index, each at most once, and stops at the
    first that answers: it returns that answer, or, when all four fail, the
    failure of the last one asked (the fallback message is never used). The
    index advances by the number of servers asked, and the request succeeds
    exactly when one of the four servers answers. *)
Theorem X9_proxyGet_fails_over {A} (respond : jsstring → answer A)
    (serverIndex : nat) :
  let '(r, serverIndex', tried) := proxyGet respond serverIndex in
  ∃ k last,
    (1 ≤ k ≤ 4)%nat ∧
    tried = take k (rotation serverIndex) ∧
    NoDup tried ∧
    serverIndex' = (serverIndex + k)%nat ∧
    tried !! (k - 1)%nat = Some last ∧
    r = respond last ∧
    Forall (fun s => ∃ f, respond s = Failure f) (take (k - 1) tried) ∧
    (∀ f, r = Failure f → k = 4%nat) ∧
    ((∃ a, r = Answer a) ↔ ∃ s a, s ∈ PROXY_SERVERS ∧ respond s = Answer a).
Proof.
  unfold proxyGet. change (length PROXY_SERVERS) with 4%nat.
  destruct (proxyLoop_spec respond 4 serverIndex None []) as (k & Hk & Hspec).
  destruct (proxyLoop 4 respond serverIndex None []) as [[r idx'] tried].
  cbv zeta in Hspec. destruct Hspec as (-> & -> & Hres). rewrite app_nil_l in *.
  rewrite rotation_take in * by done.
  destruct (rotation_NoDup serverIndex) as [Hnd Hperm].
  assert (length (rotation serverIndex) = 4%nat) as Hlen by done.
  assert (NoDup (take k (rotation serverIndex))) as Hndk.
  { rewrite <- (take_drop k (rotation serverIndex)) in Hnd.
    by apply NoDup_app in Hnd as [? _]. }
  set (last := nth ((serverIndex + (k - 1)) mod 4) PROXY_SERVERS []) in *.
  assert ((1 ≤ k)%nat → take k (rotation serverIndex) !! (k - 1)%nat = Some last) as Hlast.
  { intros Hk1. rewrite lookup_take_lt by lia. unfold rotation.
    rewrite list_lookup_fmap.
    replace ([0; 1; 2; 3]%nat !! (k - 1)%nat) with (Some (k - 1)%nat); [done|].
    destruct k as [|[|[|[|[|]]]]]; try done; lia. }
  destruct r as [a|f].
  - destruct Hres as (asked' & Heq & Hk1 & Hfail & Hans).
    specialize (Hlast Hk1).
    exists k, last. split_and!; try done; try lia.
    + rewrite Heq. rewrite take_app_length'; [done|].
      apply (f_equal length) in Heq.
      rewrite length_app, length_take_le in Heq by lia. simpl in Heq. lia.
    + split; [|by eauto]. intros _. exists last, a. split; [|done].
      rewrite <- Hperm. apply list_elem_of_lookup_2 in Hlast.
      by apply (subseteq_take k (rotation serverIndex)).
  - destruct Hres as (-> & Hfail & Hlastf).
    specialize (Hlast ltac:(lia)).
    exists 4%nat, last. split_and!; try done; try lia.
    + by apply Forall_take.
    + split; [by intros [? ?]|]. intros (s & a & Hs & Hsa).
      rewrite <- Hperm in Hs. rewrite take_ge in Hfail by lia.
      rewrite Forall_forall in Hfail. destruct (Hfail _ Hs) as [f' Hf'].
      congruence.
Qed.

(** ** Password attempts through either handler *)

Lemma serve_throttled (rs : list (Throttle.handler * Request)) :
  ∀ c t answers s,
  StronglySorted Z.le (t :: Throttle.clock rs) →
  Forall (fun hr => Throttle.wrongPassword hr.2) rs →
  Throttle.serve rs (Some (mkAttempts c t)) = (answers, s) →
  Forall (fun a => a = IncorrectPassword ∨ ∃ sec, a = LockedOut sec) answers ∧
  ∃ t', s = Some (mkAttempts (c + Z.of_nat (Throttle.attempts answers)) t') ∧
        t + Throttle.waited c (Throttle.attempts answers) ≤ t'.
Proof.
  induction rs as [|[h r] rs IH]; intros c t answers s Hsorted Hwrong Hserve.
  - injection Hserve as <- <-. split; [done|]. exists t.
    unfold Throttle.attempts. simpl. split; [do 2 f_equal; lia | lia].
  - apply Forall_cons in Hwrong as [[Hvault Hthrows] Hwrong].
    cbn [snd] in Hvault, Hthrows.
    apply StronglySorted_inv in Hsorted as [Hclock Ht].
    change (Throttle.clock ((h, r) :: rs))
      with (checkedAt r :: recordedAt r :: Throttle.clock rs) in *.
    apply StronglySorted_inv in Hclock as [Hclock Hchecked].
    apply StronglySorted_inv in Hclock as [Hclock Hrecorded].
    apply Forall_cons in Ht as [Htc Ht]. apply Forall_cons in Ht as [Htr Ht].
    apply Forall_cons in Hchecked as [Hcr _].
    cbn [Throttle.serve] in Hserve.
    assert (Throttle.handle h r (Some (mkAttempts c t))
            = match checkUnlockRateLimit (checkedAt r) (Some (mkAttempts c t)) with
              | Some sec => (LockedOut sec, Some (mkAttempts c t))
              | None => (IncorrectPassword, Some (mkAttempts (c + 1) (recordedAt r)))
              end) as Hhandle.
    { destruct h; unfold Throttle.handle, UNLOCK_WALLET, GET_MNEMONIC;
        rewrite Hvault, Hthrows; by destruct (checkUnlockRateLimit _ _). }
    rewrite Hhandle in Hserve. clear Hhandle.
    unfold checkUnlockRateLimit in Hserve. cbn [count lastFailedAt] in Hserve.
    cbn [Throttle.waited].
    destruct (Z.ltb_spec c MAX_ATTEMPTS_BEFORE_LOCKOUT) as [Hc|Hc].
    + destruct (Throttle.serve rs _) as [answers' s'] eqn:Hrest.
      injection Hserve as <- <-.
      apply IH in Hrest as (Hans & t' & -> & Ht'); [|by constructor|done].
      split; [constructor; [by left | done]|].
      exists t'. unfold Throttle.attempts in *. cbn [List.filter Throttle.is_attempt length].
      cbn [Throttle.waited]. rewrite (proj2 (Z.ltb_lt _ _) Hc).
      split; [do 2 f_equal; lia | lia].
    + cbv zeta in Hserve.
      destruct (Z.ltb_spec (checkedAt r - t) (lockoutMs c)) as [Hlocked|Hfree].
      * destruct (Throttle.serve rs _) as [answers' s'] eqn:Hrest.
        injection Hserve as <- <-.
        apply IH in Hrest as (Hans & t' & -> & Ht'); [|by constructor|done].
        split; [constructor; [right; by eexists | done]|].
        exists t'. by unfold Throttle.attempts in *.
      * destruct (Throttle.serve rs _) as [answers' s'] eqn:Hrest.
        injection Hserve as <- <-.
        apply IH in Hrest as (Hans & t' & -> & Ht'); [|by constructor|done].
        split; [constructor; [by left | done]|].
        exists t'. unfold Throttle.attempts in *.
        cbn [List.filter Throttle.is_attempt length]. cbn [Throttle.waited].
        rewrite (proj2 (Z.ltb_ge _ _) Hc).
        split; [do 2 f_equal; lia | lia].
Qed.

(** X10. Requests with a wrong password, handled one after the other from a
    clear counter and with a clock that does not go back, are answered with
    "Incorrect password" or a lockout message whichever of UNLOCK_WALLET and
    GET_MNEMONIC they go to; both count on the same counter, which ends at
    the number of requests that reached the decryption; and the last of
    these comes no sooner after the first than the sum of the lockouts in
    between. *)
Theorem X10_wrong_passwords_are_throttled
    (h1 : Throttle.handler) (r1 : Request)
    (rs : list (Throttle.handler * Request))
    (answers : list response) (s : Storage) :
  Forall (fun hr => Throttle.wrongPassword hr.2) ((h1, r1) :: rs) →
  Sorted Z.le (Throttle.clock ((h1, r1) :: rs)) →
  Throttle.serve ((h1, r1) :: rs) None = (answers, s) →
  Forall (fun a => a = IncorrectPassword ∨ ∃ sec, a = LockedOut sec) answers ∧
  ∃ n tlast,
    Throttle.attempts answers = S n ∧
    s = Some (mkAttempts (Z.of_nat (S n)) tlast) ∧
    recordedAt r1 + Throttle.waited 1 n ≤ tlast.
Proof.
  intros Hwrong Hsorted Hserve.
  apply Sorted_StronglySorted in Hsorted; [|intros x y z; lia].
  apply Forall_cons in Hwrong as [[Hvault Hthrows] Hwrong].
  cbn [snd] in Hvault, Hthrows.
  change (Throttle.clock ((h1, r1) :: rs))
    with (checkedAt r1 :: recordedAt r1 :: Throttle.clock rs) in *.
  apply StronglySorted_inv in Hsorted as [Hsorted _].
  cbn [Throttle.serve] in Hserve.
  assert (Throttle.handle h1 r1 None
          = (IncorrectPassword, Some (mkAttempts 1 (recordedAt r1)))) as Hhandle.
  { destruct h1; unfold Throttle.handle, UNLOCK_WALLET, GET_MNEMONIC;
      simpl; by rewrite Hvault, Hthrows. }
  rewrite Hhandle in Hserve.
  destruct (Throttle.serve rs _) as [answers' s'] eqn:Hrest.
  injection Hserve as <- <-.
  apply serve_throttled in Hrest as (Hans & t' & -> & Ht'); [|done..].
  split; [constructor; [by left | done]|].
  exists (Throttle.attempts answers'), t'.
  split; [done|]. split; [do 2 f_equal; lia | done].
Qed.

Lemma X10_witness :
  ∃ tlast,
    (Throttle.serve
       [(Throttle.Unlock, mkRequest 0 0 true DecryptThrows);
        (Throttle.Mnemonic, mkRequest 1 1 true DecryptThrows);
        (Throttle.Unlock, mkRequest 2 2 true DecryptThrows);
        (Throttle.Mnemonic, mkRequest 3 3 true DecryptThrows);
        (Throttle.Unlock, mkRequest 4 4 true DecryptThrows);
        (Throttle.Mnemonic, mkRequest 100 100 true DecryptThrows);
        (Throttle.Unlock, mkRequest 5004 5010 true DecryptThrows)] None).2
      = Some (mkAttempts 6 tlast) ∧
    5000 ≤ tlast.
Proof.
  destruct (X10_wrong_passwords_are_throttled
    Throttle.Unlock (mkRequest 0 0 true DecryptThrows)
    [(Throttle.Mnemonic, mkRequest 1 1 true DecryptThrows);
     (Throttle.Unlock, mkRequest 2 2 true DecryptThrows);
     (Throttle.Mnemonic, mkRequest 3 3 true DecryptThrows);
     (Throttle.Unlock, mkRequest 4 4 true DecryptThrows);
     (Throttle.Mnemonic, mkRequest 100 100 true DecryptThrows);
     (Throttle.Unlock, mkRequest 5004 5010 true DecryptThrows)]
    [IncorrectPassword; IncorrectPassword; IncorrectPassword; IncorrectPassword;
     IncorrectPassword; LockedOut 5; IncorrectPassword]
    (Some (mkAttempts 6 5010)))
    as (_ & n & tlast & Hn & Hs & Htime).
  - repeat (constructor; [split; reflexivity|]). constructor.
  - repeat (constructor; [|first [constructor; simpl; lia | constructor]]).
    constructor.
  - vm_compute. reflexivity.
  - injection Hn as <-. injection Hs as <-.
    exists 5010. split; [vm_compute; reflexivity|].
    vm_compute in Htime. vm_compute. discriminate.
Defined.

(** ** The layout of a decoded signature *)









(** ** Admission and approval of dApp requests *)

Section AdmissionProofs.
Context `{UtxoLib} `{SigLib} {ChallengeJson : Type}.
Variable URL_origin : jsstring → option jsstring.
Variable created_at : LoginConsentRequest → option Z.
Variable toJson : LoginConsentRequest → option ChallengeJson.
Variable webhookRedirect_uri : LoginConsentRequest → option jsstring.
Variable signing_id : LoginConsentRequest → option jsstring.

Lemma purge_bounded now (s : @Admission.State ChallengeJson) :
  Admission.bounded created_at toJson webhookRedirect_uri signing_id s →
  Admission.bounded created_at toJson webhookRedirect_uri signing_id
    (Admission.purgeExpiredRequests now s).
Proof.
  intros (Hl & Hs & Hcs & Hcl). unfold Admission.bounded, Admission.purgeExpiredRequests.
  cbn [Admission.pendingLogins Admission.pendingSends].
  split_and!.
  - etrans; [apply map_size_filter | done].
  - etrans; [apply map_size_filter | done].
  - intros id e [He _]%map_lookup_filter_Some. by apply Hcs.
  - intros id e [He _]%map_lookup_filter_Some. by apply Hcl.
Qed.

Lemma truthy_Some (x : option jsstring) (v : jsstring) :
  Admission.truthy x = Some v → x = Some v ∧ v ≠ [].
Proof. destruct x as [[|c x]|]; simpl; [done| |done]. by intros [= <-]. Qed.

Lemma send_bounded payload sender id now (s : @Admission.State ChallengeJson) :
  Admission.bounded created_at toJson webhookRedirect_uri signing_id s →
  Admission.bounded created_at toJson webhookRedirect_uri signing_id
    (Admission.DAPP_SEND_REQUEST URL_origin payload sender id now s).2.
Proof.
  intros Hs%(purge_bounded (now 0%nat)). unfold Admission.DAPP_SEND_REQUEST.
  revert Hs. generalize (Admission.purgeExpiredRequests (now 0%nat) s).
  clear s. intros s Hs. cbv zeta.
  repeat (case_match; try done).
  all: destruct Hs as (Hl & Hs & Hcs & Hcl).
  all: apply Nat.leb_gt in H12.
  all: apply truthy_Some in H2 as [Hto Hne].
  all: apply negb_false_iff in H8, H6.
  all: apply QArith_base.Qle_bool_iff in H6.
  all: assert (QArith_base.Qlt (QArith_base.inject_Z 0) q)
         by (apply QArith_base.Qnot_le_lt; intros Hle%QArith_base.Qle_bool_iff; congruence).
  all: unfold Admission.bounded; cbn [snd Admission.pendingLogins Admission.pendingSends].
  all: split_and!; [done| |apply map_Forall_insert_2; [|done]|done].
  all: try (rewrite map_size_insert; destruct (_ !! id); simpl;
            unfold Admission.MAX_PENDING_LOGINS in *; lia).
  all: unfold Admission.checkedSend;
    cbn [Admission.ps_id Admission.ps_to Admission.ps_amount Admission.ps_currency];
    split_and!; done.
Qed.

Lemma login_bounded uri reqId sender id now (s : @Admission.State ChallengeJson) :
  Admission.bounded created_at toJson webhookRedirect_uri signing_id s →
  Admission.bounded created_at toJson webhookRedirect_uri signing_id
    (Admission.DAPP_LOGIN_DEEPLINK URL_origin created_at toJson
             webhookRedirect_uri signing_id uri reqId sender id now s).2.
Proof.
  intros Hs%(purge_bounded (now 0%nat)). unfold Admission.DAPP_LOGIN_DEEPLINK.
  revert Hs. generalize (Admission.purgeExpiredRequests (now 0%nat) s).
  clear s. intros s Hs. cbv zeta.
  pose proof (purge_bounded (now 3%nat) _ Hs) as Hs2.
  revert Hs2. generalize (Admission.purgeExpiredRequests (now 3%nat) s).
  intros s2 Hs2.
  repeat (case_match; try done).
  destruct Hs2 as (Hl & Hs2 & Hcs & Hcl).
  match goal with Hsize : (_ <=? _)%nat = false |- _ => apply Nat.leb_gt in Hsize end.
  match goal with Huri : Admission.truthy uri = Some _ |- _ =>
    apply truthy_Some in Huri as [Huri Hne] end.
  unfold Admission.bounded; cbn [snd Admission.pendingLogins Admission.pendingSends].
  split_and!; [|done|done|apply map_Forall_insert_2; [|done]].
  - rewrite map_size_insert; destruct (_ !! id); simpl;
      unfold Admission.MAX_PENDING_LOGINS in *; lia.
  - unfold Admission.checkedLogin;
      cbn [Admission.pl_id Admission.pl_uri Admission.pl_challengeJson
           Admission.pl_webhookUrl Admission.pl_requestingId].
    split_and!; [done|done|lia|].
    eexists _, _. split_and!; try done. lia.
Qed.

Lemma cache_bounded id v req (s : @Admission.State ChallengeJson) lastPopup waiting :
  Admission.bounded created_at toJson webhookRedirect_uri signing_id s →
  Admission.pendingLogins s !! id = Some req →
  Admission.bounded created_at toJson webhookRedirect_uri signing_id
    (Admission.mkState (<[id := Admission.cacheVerification v req]> (Admission.pendingLogins s))
       (Admission.pendingSends s) lastPopup waiting).
Proof.
  intros (Hl & Hs & Hcs & Hcl) Hreq. unfold Admission.bounded.
  cbn [Admission.pendingLogins Admission.pendingSends].
  split_and!; [|done|done|].
  - by rewrite map_size_insert, Hreq.
  - apply map_Forall_insert_2; [|done]. by apply Hcl in Hreq.
Qed.

Lemma step_bounded e (s : @Admission.State ChallengeJson) :
  Admission.bounded created_at toJson webhookRedirect_uri signing_id s →
  Admission.bounded created_at toJson webhookRedirect_uri signing_id
    (Admission.step URL_origin created_at toJson webhookRedirect_uri signing_id e s).2.
Proof.
  intros Hs.
  destruct e as [payload sender id now|uri reqId sender id now|now|id|id|id|id rpc|id];
    cbn [Admission.step].
  - pose proof (send_bounded payload sender id now s Hs).
    by destruct (Admission.DAPP_SEND_REQUEST _ _ _ _ _ _).
  - pose proof (login_bounded uri reqId sender id now s Hs).
    by destruct (Admission.DAPP_LOGIN_DEEPLINK _ _ _ _ _ _ _ _ _ _ _).
  - by apply purge_bounded.
  - destruct Hs as (Hl & Hs & Hcs & Hcl). unfold Admission.bounded. cbn.
    split_and!; [|done|done|by apply map_Forall_delete].
    rewrite map_size_delete. destruct (_ !! id); simpl; lia.
  - destruct Hs as (Hl & Hs & Hcs & Hcl). unfold Admission.bounded. cbn.
    split_and!; [done| |by apply map_Forall_delete|done].
    rewrite map_size_delete. destruct (_ !! id); simpl; lia.
  - unfold Admission.GET_PENDING_LOGIN.
    destruct (Admission.pendingLogins s !! id) as [req|] eqn:Hreq; [|done].
    destruct (Admission.pl_signatureVerified req); [done|].
    destruct (Admission.truthy _); by apply cache_bounded.
  - unfold Admission.verified. case_bool_decide; [|done].
    destruct (Admission.pendingLogins s !! id) as [req|] eqn:Hreq.
    + by apply cache_bounded.
    + by destruct Hs as (Hl & Hs & Hcs & Hcl).
  - unfold Admission.DAPP_APPROVE.
    destruct (Admission.pendingLogins s !! id) as [req|] eqn:Hreq; [|done].
    destruct (negb _); [done|].
    destruct Hs as (Hl & Hs & Hcs & Hcl). unfold Admission.bounded. cbn.
    split_and!; [|done|done|by apply map_Forall_delete].
    rewrite map_size_delete, Hreq. simpl. lia.
Qed.

Lemma run_bounded es (s : @Admission.State ChallengeJson) :
  Admission.bounded created_at toJson webhookRedirect_uri signing_id s →
  Admission.bounded created_at toJson webhookRedirect_uri signing_id
    (Admission.run URL_origin created_at toJson webhookRedirect_uri
             signing_id es s).2.
Proof.
  revert s. induction es as [|e es IH]; intros s Hs; [done|].
  cbn [Admission.run].
  pose proof (step_bounded e s Hs) as Hstep.
  destruct (Admission.step _ _ _ _ _ e s) as [r s']. apply IH in Hstep.
  cbn [snd] in Hstep. by destruct (Admission.run _ _ _ _ _ es s').
Qed.

(** X12. Whatever messages a service worker has handled since it started,
    it holds at most ten pending logins and at most ten pending sends. Every
    pending send is stored under its own id and has a recipient that passed
    the address check, an amount above 0 and at most 200,000,000 coins and a
    currency name that is not empty; every pending login is stored under its
    own id with a deeplink of at most 10,000 code units that parsed. *)
Theorem X12_pending_requests_stay_bounded_and_checked (es : list Admission.event) :
  let s := (Admission.run URL_origin created_at toJson webhookRedirect_uri
              signing_id es Admission.start).2 in
  (size (Admission.pendingLogins s) ≤ 10)%nat ∧
  (size (Admission.pendingSends s) ≤ 10)%nat ∧
  (∀ id e, Admission.pendingSends s !! id = Some e →
     Admission.ps_id e = id ∧
     isValidAddress (Admission.ps_to e) = true ∧
     QArith_base.Qlt (QArith_base.inject_Z 0) (Admission.ps_amount e) ∧
     QArith_base.Qle (Admission.ps_amount e) (QArith_base.inject_Z 200000000) ∧
     Admission.ps_currency e ≠ []) ∧
  (∀ id e, Admission.pendingLogins s !! id = Some e →
     Admission.pl_id e = id ∧
     Z.of_nat (length (Admission.pl_uri e)) ≤ 10000 ∧
     ∃ request, fromWalletDeeplinkUri (Admission.pl_uri e) = Some request ∧
                toJson request = Some (Admission.pl_challengeJson e)).
Proof.
  intros s.
  assert (Admission.bounded created_at toJson webhookRedirect_uri signing_id s)
    as (Hl & Hs & Hcs & Hcl).
  { apply run_bounded. unfold Admission.bounded, Admission.start. cbn.
    split_and!; [by rewrite map_size_empty; lia..| |]; apply map_Forall_empty. }
  split_and!; [done|done| |].
  - intros id e He. by apply Hcs in He.
  - intros id e He. apply Hcl in He as (? & ? & ? & request & createdAt & ? & ? & ? & ? & _).
    split_and!; try done. by exists request.
Qed.

Lemma purge_lastPopup now (s : @Admission.State ChallengeJson) :
  Admission.lastPopupByOrigin (Admission.purgeExpiredRequests now s)
  = Admission.lastPopupByOrigin s.
Proof. done. Qed.

Ltac cooldown_passed :=
  match goal with
  | Hcool : (_ <? _) = false |- _ =>
      apply Z.ltb_ge in Hcool; unfold Admission.POPUP_COOLDOWN_MS in Hcool;
      intros t Ht;
      cbn [Admission.lastPopupByOrigin Admission.purgeExpiredRequests] in Hcool;
      rewrite Ht in Hcool;
      cbn [from_option id] in Hcool; lia
  end.

Ltac origin_found :=
  match goal with
  | Hurl : Admission.truthy _ = Some ?url, Horigin : _ ?url = Some _ |- _ =>
      unfold Admission.origin_of; rewrite Hurl; cbn [mbind option_bind];
      rewrite Horigin
  end.

Ltac stored_or_failed :=
  cbv zeta; repeat case_match; intros [= <- <-];
  first
    [ right; split; [by eexists | done]
    | left; eexists _, _; split; [done|]; origin_found;
      split; [done|]; split; [done|]; cooldown_passed ].

Lemma send_stored_or_failed payload sender id now (s : @Admission.State ChallengeJson) r s' :
  Admission.DAPP_SEND_REQUEST URL_origin payload sender id now s = (r, s') →
  (∃ id' origin, r = Admission.Stored id' ∧
     Admission.origin_of URL_origin sender = Some origin ∧
     Admission.lastPopupByOrigin s'
       = <[origin := now 3%nat]> (Admission.lastPopupByOrigin s) ∧
     ∀ t, Admission.lastPopupByOrigin s !! origin = Some t → t + 3000 ≤ now 1%nat) ∨
  ((∃ f, r = Admission.Fail f) ∧
   Admission.lastPopupByOrigin s' = Admission.lastPopupByOrigin s).
Proof. unfold Admission.DAPP_SEND_REQUEST. stored_or_failed. Qed.

Lemma login_stored_or_failed uri reqId sender id now (s : @Admission.State ChallengeJson) r s' :
  Admission.DAPP_LOGIN_DEEPLINK URL_origin created_at toJson webhookRedirect_uri
    signing_id uri reqId sender id now s = (r, s') →
  (∃ id' origin, r = Admission.Stored id' ∧
     Admission.origin_of URL_origin sender = Some origin ∧
     Admission.lastPopupByOrigin s'
       = <[origin := now 5%nat]> (Admission.lastPopupByOrigin s) ∧
     ∀ t, Admission.lastPopupByOrigin s !! origin = Some t → t + 3000 ≤ now 2%nat) ∨
  ((∃ f, r = Admission.Fail f) ∧
   Admission.lastPopupByOrigin s' = Admission.lastPopupByOrigin s).
Proof. unfold Admission.DAPP_LOGIN_DEEPLINK. stored_or_failed. Qed.

Lemma step_popup e (s : @Admission.State ChallengeJson) r s' :
  Admission.step URL_origin created_at toJson webhookRedirect_uri signing_id e s
    = (r, s') →
  match Admission.popup URL_origin e r with
  | None => Admission.lastPopupByOrigin s' = Admission.lastPopupByOrigin s
  | Some p =>
      Admission.lastPopupByOrigin s'
      = <[Admission.popup_origin p := Admission.popup_recordedAt p]>
          (Admission.lastPopupByOrigin s) ∧
      (∀ t, Admission.lastPopupByOrigin s !! Admission.popup_origin p = Some t →
            t + 3000 ≤ Admission.popup_checkedAt p) ∧
      (Admission.steady e →
       Admission.popup_checkedAt p ≤ Admission.popup_recordedAt p)
  end.
Proof.
  destruct e as [payload sender id now|uri reqId sender id now|now|id|id|id|id rpc|id];
    cbn [Admission.step].
  - destruct (Admission.DAPP_SEND_REQUEST _ _ _ _ _ _) as [r0 s0] eqn:Hsend.
    intros [= <- <-].
    apply send_stored_or_failed in Hsend
      as [(id' & origin & -> & Horigin & Hlast & Hcool)|[[f ->] Hlast]]; [|done].
    cbn [Admission.popup]. rewrite Horigin. cbn [mbind option_bind]. by split_and!.
  - destruct (Admission.DAPP_LOGIN_DEEPLINK _ _ _ _ _ _ _ _ _ _ _) as [r0 s0] eqn:Hlogin.
    intros [= <- <-].
    apply login_stored_or_failed in Hlogin
      as [(id' & origin & -> & Horigin & Hlast & Hcool)|[[f ->] Hlast]]; [|done].
    cbn [Admission.popup]. rewrite Horigin. cbn [mbind option_bind]. by split_and!.
  - by intros [= <- <-].
  - by intros [= <- <-].
  - by intros [= <- <-].
  - unfold Admission.GET_PENDING_LOGIN. repeat case_match; by intros [= <- <-].
  - unfold Admission.verified. repeat case_match; by intros [= <- <-].
  - destruct (Admission.DAPP_APPROVE id s) as [r0 s0] eqn:Happrove.
    intros [= <- <-]. unfold Admission.DAPP_APPROVE in Happrove.
    repeat case_match; by simplify_eq.
Qed.

Lemma run_cooldown es : ∀ (s : @Admission.State ChallengeJson) rs s',
  Forall Admission.steady es →
  Admission.run URL_origin created_at toJson webhookRedirect_uri signing_id es s
    = (rs, s') →
  (∀ j p t, Admission.popups URL_origin es rs !! j = Some p →
     Admission.lastPopupByOrigin s !! Admission.popup_origin p = Some t →
     t + 3000 ≤ Admission.popup_checkedAt p) ∧
  (∀ i j p q, (i < j)%nat →
     Admission.popups URL_origin es rs !! i = Some p →
     Admission.popups URL_origin es rs !! j = Some q →
     Admission.popup_origin p = Admission.popup_origin q →
     Admission.popup_recordedAt p + 3000 ≤ Admission.popup_checkedAt q).
Proof.
  induction es as [|e es IH]; intros s rs s' Hsteady Hrun.
  - injection Hrun as <- <-. by split.
  - cbn [Admission.run] in Hrun. apply Forall_cons in Hsteady as [He Hsteady].
    destruct (Admission.step _ _ _ _ _ e s) as [r s1] eqn:Hstep.
    destruct (Admission.run _ _ _ _ _ es s1) as [rs1 s2] eqn:Hrest.
    injection Hrun as <- <-. cbn [Admission.popups].
    apply step_popup in Hstep. destruct (IH _ _ _ Hsteady Hrest) as [IHa IHb].
    destruct (Admission.popup URL_origin e r) as [p0|]; cbn [option_list app].
    + destruct Hstep as (Hlast & Hcool & Hrec). specialize (Hrec He). split.
      * intros [|j] p t Hp Ht; simplify_eq/=; [by apply Hcool|].
        destruct (decide (Admission.popup_origin p0 = Admission.popup_origin p)) as [Heq|Hne].
        -- specialize (IHa j p (Admission.popup_recordedAt p0) Hp).
           rewrite Hlast, <- Heq, lookup_insert_eq in IHa. specialize (IHa eq_refl).
           rewrite <- Heq in Ht. apply Hcool in Ht. lia.
        -- apply (IHa j p t Hp). by rewrite Hlast, lookup_insert_ne.
      * intros [|i] [|j] p q Hij Hp Hq Ho; simplify_eq/=; try lia.
        -- apply (IHa j q _ Hq). by rewrite Hlast, Ho, lookup_insert_eq.
        -- apply (IHb i j p q); [lia|done..].
    + rewrite Hstep in IHa. by split.
Qed.

(** X13. However login and send requests of web pages are mixed with other
    messages, two popups asked for the same origin are at least three
    seconds apart: the later request passed its cooldown check no sooner
    than 3000 ms after the time recorded for the earlier. The clock must
    not go back while one request is handled. *)
Theorem X13_popups_of_an_origin_are_spaced
    (es : list Admission.event) (s : @Admission.State ChallengeJson)
    (i j : nat) (p q : Admission.Popup) :
  Forall Admission.steady es →
  let rs := (Admission.run URL_origin created_at toJson webhookRedirect_uri
               signing_id es s).1 in
  (i < j)%nat →
  Admission.popups URL_origin es rs !! i = Some p →
  Admission.popups URL_origin es rs !! j = Some q →
  Admission.popup_origin p = Admission.popup_origin q →
  Admission.popup_recordedAt p + Admission.POPUP_COOLDOWN_MS
    ≤ Admission.popup_checkedAt q.
Proof.
  intros Hsteady rs. subst rs.
  destruct (Admission.run _ _ _ _ _ es s) as [rs s'] eqn:Hrun.
  destruct (run_cooldown es s rs s' Hsteady Hrun) as [_ Hpairs].
  intros Hij Hp Hq Ho. exact (Hpairs i j p q Hij Hp Hq Ho).
Qed.

Lemma traced_subseteq hist (s s' : @Admission.State ChallengeJson) :
  Admission.pendingLogins s' ⊆ Admission.pendingLogins s →
  Admission.traced signing_id hist s → Admission.traced signing_id hist s'.
Proof.
  intros Hsub Htraced id e He. apply Htraced.
  by eapply lookup_weaken.
Qed.

Lemma traced_extend hist e (s : @Admission.State ChallengeJson) :
  Admission.traced signing_id hist s → Admission.traced signing_id (hist ++ [e]) s.
Proof.
  intros Htraced id entry Hentry.
  destruct (Htraced id entry Hentry)
    as (i & reqId & sender & now & request & Hi & Hparse & Hrid & Hver).
  exists i, reqId, sender, now, request. split_and!; try done.
  - by apply lookup_app_l_Some.
  - intros Htrue. destruct (Hver Htrue) as (j & rpc & Hij & Hj & Hok).
    exists j, rpc. split_and!; try done. by apply lookup_app_l_Some.
Qed.

Lemma traced_cache hist id v req (s : @Admission.State ChallengeJson) sends lastPopup waiting :
  Admission.traced signing_id hist s →
  Admission.pendingLogins s !! id = Some req →
  (v = true →
   ∃ i reqId sender now,
     hist !! i = Some (Admission.LoginDeeplink (Some (Admission.pl_uri req))
                        reqId sender id now) ∧
     ∃ j rpc, (i < j)%nat ∧ hist !! j = Some (Admission.VerificationDone id rpc) ∧
              Admission.verification req rpc = true) →
  Admission.traced signing_id hist
    (Admission.mkState (<[id := Admission.cacheVerification v req]> (Admission.pendingLogins s))
       sends lastPopup waiting).
Proof.
  intros Htraced Hreq Hv id' e. cbn [Admission.pendingLogins].
  destruct (decide (id = id')) as [<-|Hne].
  - rewrite lookup_insert_eq. intros [= <-].
    destruct (Htraced id req Hreq) as (i & reqId & sender & now & request & Hi & Hparse & Hrid & _).
    destruct v.
    + destruct (Hv eq_refl) as (i' & reqId' & sender' & now' & Hi' & j & rpc & Hij & Hj & Hok).
      exists i', reqId', sender', now', request. split_and!; try done.
      intros _. by exists j, rpc.
    + exists i, reqId, sender, now, request. by split_and!.
  - rewrite lookup_insert_ne by done. apply Htraced.
Qed.

Lemma purge_subseteq now (s : @Admission.State ChallengeJson) :
  Admission.pendingLogins (Admission.purgeExpiredRequests now s)
  ⊆ Admission.pendingLogins s.
Proof. apply map_filter_subseteq. Qed.

Lemma send_logins payload sender id now (s : @Admission.State ChallengeJson) :
  Admission.pendingLogins (Admission.DAPP_SEND_REQUEST URL_origin payload sender id now s).2
  = Admission.pendingLogins (Admission.purgeExpiredRequests (now 0%nat) s).
Proof. unfold Admission.DAPP_SEND_REQUEST. cbv zeta. by repeat case_match. Qed.

Lemma step_traced hist e (s : @Admission.State ChallengeJson) :
  Admission.traced signing_id hist s →
  Admission.traced signing_id (hist ++ [e])
    (Admission.step URL_origin created_at toJson webhookRedirect_uri signing_id e s).2.
Proof.
  intros Htraced.
  destruct e as [payload sender id now|uri reqId sender id now|now|id|id|id|id rpc|id];
    cbn [Admission.step].
  - apply traced_extend.
    pose proof (send_logins payload sender id now s) as Hlogins.
    destruct (Admission.DAPP_SEND_REQUEST _ _ _ _ _ _) as [r s1]. cbn [snd] in *.
    eapply traced_subseteq; [|done]. rewrite Hlogins. apply purge_subseteq.
  - destruct (Admission.DAPP_LOGIN_DEEPLINK _ _ _ _ _ _ _ _ _ _ _) as [r s1] eqn:Hlogin.
    cbn [snd]. unfold Admission.DAPP_LOGIN_DEEPLINK in Hlogin. cbv zeta in Hlogin.
    assert (Admission.pendingLogins s1 ⊆ Admission.pendingLogins s ∨
            ∃ u request pending,
              Admission.pendingLogins s1
              = <[id := pending]>
                  (Admission.pendingLogins
                     (Admission.purgeExpiredRequests (now 3%nat)
                        (Admission.purgeExpiredRequests (now 0%nat) s))) ∧
              uri = Some u ∧ Admission.pl_uri pending = u ∧
              fromWalletDeeplinkUri u = Some request ∧
              Admission.pl_requestingId pending = Admission.truthy (signing_id request) ∧
              Admission.pl_signatureVerified pending = None) as [Hsub|Hnew].
    { repeat case_match; simplify_eq;
        try (left; first [apply purge_subseteq
                         | etrans; [apply purge_subseteq | apply purge_subseteq]]).
      right.
      match goal with
      | Hu : Admission.truthy uri = Some ?u, Hp : fromWalletDeeplinkUri ?u = Some ?r |- _ =>
          apply truthy_Some in Hu as [-> _]; exists u, r
      end.
      eexists. split; [reflexivity|]. by split_and!. }
    + apply traced_extend. by eapply traced_subseteq.
    + destruct Hnew as (u & request & pending & Hlogins & -> & Hu & Hparse & Hrid & Hnone).
      intros id' e. rewrite Hlogins.
      destruct (decide (id = id')) as [<-|Hne].
      * rewrite lookup_insert_eq. intros [= <-].
        exists (length hist), reqId, sender, now, request. split_and!; try done.
        -- rewrite Hu. by rewrite lookup_app_r, Nat.sub_diag by lia.
        -- by rewrite Hu.
        -- by rewrite Hnone.
      * rewrite lookup_insert_ne by done. intros He.
        apply (traced_extend hist _ s Htraced id' e).
        eapply lookup_weaken; [done|].
        etrans; [apply purge_subseteq | apply purge_subseteq].
  - apply traced_extend. eapply traced_subseteq; [apply purge_subseteq|done].
  - apply traced_extend. eapply traced_subseteq; [|done]. apply delete_subseteq.
  - by apply traced_extend.
  - apply traced_extend. unfold Admission.GET_PENDING_LOGIN.
    destruct (Admission.pendingLogins s !! id) as [req|] eqn:Hreq; [|done].
    destruct (Admission.pl_signatureVerified req); [done|].
    destruct (Admission.truthy _); by apply traced_cache.
  - unfold Admission.verified. case_bool_decide; [|by apply traced_extend].
    destruct (Admission.pendingLogins s !! id) as [req|] eqn:Hreq.
    + cbn [snd]. apply traced_cache; [by apply traced_extend|done|].
      intros Hok.
      destruct (Htraced id req Hreq) as (i & reqId & sender & now & request & Hi & _).
      exists i, reqId, sender, now. split; [by apply lookup_app_l_Some|].
      exists (length hist), rpc. split_and!; try done.
      * by apply lookup_lt_Some in Hi.
      * by rewrite lookup_app_r, Nat.sub_diag by lia.
    + apply traced_extend. by eapply traced_subseteq.
  - apply traced_extend. unfold Admission.DAPP_APPROVE.
    destruct (Admission.pendingLogins s !! id) as [req|] eqn:Hreq; [|done].
    destruct (negb _); [done|]. cbn [snd].
    eapply traced_subseteq; [|done]. apply delete_subseteq.
Qed.

Lemma verification_true (req : @Admission.PendingLoginRequest ChallengeJson) rpc :
  Admission.verification req rpc = true →
  ∃ requestingId,
    Admission.pl_requestingId req = Some requestingId ∧
    VerusId.validateInput requestingId = None ∧
    Verifier.verifyChallengeSignature (Admission.pl_uri req)
      (VerusId.primaryAddresses requestingId rpc) = true.
Proof.
  unfold Admission.verification.
  destruct (Admission.pl_requestingId req) as [requestingId|]; [|done].
  intros Hok. exists requestingId. split_and!; [done| |done].
  destruct (VerusId.validateInput requestingId) as [f|] eqn:Hinput; [|done].
  unfold VerusId.primaryAddresses, VerusId.getIdentity in Hok. rewrite Hinput in Hok.
  unfold Verifier.verifyChallengeSignature in Hok.
  destruct (fromWalletDeeplinkUri _); [|done].
  by destruct (request_signature _) as [[]|].
Qed.

Lemma run_traced todo : ∀ hist (s : @Admission.State ChallengeJson) (k : nat) (id : string),
  Admission.traced signing_id hist s →
  todo !! k = Some (Admission.ApproveLogin id) →
  (Admission.run URL_origin created_at toJson webhookRedirect_uri signing_id todo s).1 !! k
    = Some (Some (Admission.Claimed id)) →
  ∃ i j (e : @Admission.PendingLoginRequest ChallengeJson) reqId sender now rpc request,
    (i < j < length hist + k)%nat ∧
    (hist ++ todo) !! i
      = Some (Admission.LoginDeeplink (Some (Admission.pl_uri e)) reqId sender id now) ∧
    (hist ++ todo) !! j = Some (Admission.VerificationDone id rpc) ∧
    fromWalletDeeplinkUri (Admission.pl_uri e) = Some request ∧
    Admission.pl_requestingId e = Admission.truthy (signing_id request) ∧
    Admission.verification e rpc = true.
Proof.
  induction todo as [|ev todo IH]; intros hist s k id Htraced Hk Hclaimed; [done|].
  cbn [Admission.run] in Hclaimed.
  pose proof (step_traced hist ev s Htraced) as Hstep.
  destruct (Admission.step _ _ _ _ _ ev s) as [r s1] eqn:Hev.
  destruct (Admission.run _ _ _ _ _ todo s1) as [rs s2] eqn:Hrest.
  cbn [fst snd] in *. destruct k as [|k].
  - injection Hk as ->. injection Hclaimed as ->.
    cbn [Admission.step] in Hev. unfold Admission.DAPP_APPROVE in Hev.
    destruct (Admission.pendingLogins s !! id) as [e|] eqn:He; [|by simplify_eq].
    case_bool_decide as Htrue; [|by simplify_eq].
    destruct (Htraced id e He)
      as (i & reqId & sender & now & request & Hi & Hparse & Hrid & Hver).
    destruct (Hver Htrue) as (j & rpc & Hij & Hj & Hok).
    exists i, j, e, reqId, sender, now, rpc, request.
    apply lookup_lt_Some in Hj as Hjlt.
    split_and!; try done; try lia; by apply lookup_app_l_Some.
  - cbn [lookup list_lookup] in Hk, Hclaimed.
    destruct (IH (hist ++ [ev]) s1 k id Hstep Hk) as
      (i & j & e & reqId & sender & now & rpc & request & Hlt & Hi & Hj
       & Hparse & Hrid & Hok);
      [by rewrite Hrest|].
    exists i, j, e, reqId, sender, now, rpc, request.
    rewrite <- app_assoc in Hi, Hj. rewrite length_app in Hlt. cbn [length] in Hlt.
    split_and!; try done; lia.
Qed.

(** X18. A pending login is claimed for approval only after its challenge
    signature was verified: in any run of a worker since its start (with
    the ids of deeplink requests never repeated), a DAPP_APPROVE that claims
    an entry comes after the deeplink request that stored it and after a
    verification that ended on it, and [verifyChallengeSignature] accepted
    the deeplink of that very request against the primary addresses that
    the lookup of the identity named in the deeplink returned; that name
    passed [validateInput]. *)
Theorem X18_approval_needs_a_verified_signature
    (es : list Admission.event) (k : nat) (id : string) :
  NoDup (Admission.deeplinkIds es) →
  es !! k = Some (Admission.ApproveLogin id) →
  (Admission.run URL_origin created_at toJson webhookRedirect_uri signing_id
     es Admission.start).1 !! k = Some (Some (Admission.Claimed id)) →
  ∃ i j uri reqId sender now rpc request requestingId,
    (i < j < k)%nat ∧
    es !! i = Some (Admission.LoginDeeplink (Some uri) reqId sender id now) ∧
    es !! j = Some (Admission.VerificationDone id rpc) ∧
    fromWalletDeeplinkUri uri = Some request ∧
    Admission.truthy (signing_id request) = Some requestingId ∧
    VerusId.validateInput requestingId = None ∧
    Verifier.verifyChallengeSignature uri
      (VerusId.primaryAddresses requestingId rpc) = true.
Proof.
  intros _ Hk Hclaimed.
  destruct (run_traced es [] Admission.start k id) as
    (i & j & e & reqId & sender & now & rpc & request & Hlt & Hi & Hj & Hparse & Hrid & Hok);
    [by intros ? ? ?|done|done|].
  apply verification_true in Hok as (requestingId & Hrid' & Hinput & Hok).
  exists i, j, (Admission.pl_uri e), reqId, sender, now, rpc, request, requestingId.
  cbn [app length Nat.add] in *. split_and!; try done; try lia. congruence.
Qed.

End AdmissionProofs.

Lemma X13_witness :
  ∃ p q,
    let es := [AdmissionFixtures.sendAt "a" 1000000;
               AdmissionFixtures.sendAt "b" 1002000;
               AdmissionFixtures.sendAt "c" 1004000] in
    let rs := (@Admission.run ref_lib (VerifierFixtures.sig_lib 0) unit Some
                 (fun _ => Some 1) (fun _ => Some tt) (fun _ => None)
                 (fun _ => None) es Admission.start).1 in
    Admission.popups Some es rs = [p; q] ∧
    Admission.popup_recordedAt p + Admission.POPUP_COOLDOWN_MS
      ≤ Admission.popup_checkedAt q.
Proof.
  eexists _, _. cbv zeta. split; [vm_compute; reflexivity|].
  apply (@X13_popups_of_an_origin_are_spaced ref_lib (VerifierFixtures.sig_lib 0)
           unit Some (fun _ => Some 1) (fun _ => Some tt) (fun _ => None)
           (fun _ => None)
           [AdmissionFixtures.sendAt "a" 1000000;
            AdmissionFixtures.sendAt "b" 1002000;
            AdmissionFixtures.sendAt "c" 1004000]
           Admission.start 0 1).
  - repeat constructor; simpl; lia.
  - lia.
  - vm_compute. reflexivity.
  - vm_compute. reflexivity.
  - reflexivity.
Defined.


Lemma X18_witness :
  ∃ i j uri rpc requestingId,
    (i < j < 3)%nat ∧
    [AdmissionFixtures.loginAt "a" 1000000;
     Admission.GetPendingLogin "a";
     Admission.VerificationDone "a"
       (Some (AdmissionFixtures.identityOf VerifierFixtures.signer));
     Admission.ApproveLogin "a"] !! j
      = Some (Admission.VerificationDone "a" rpc) ∧
    @Verifier.verifyChallengeSignature ref_lib (VerifierFixtures.sig_lib 100) uri
      (VerusId.primaryAddresses requestingId rpc) = true.
Proof.
  destruct (@X18_approval_needs_a_verified_signature ref_lib
              (VerifierFixtures.sig_lib 100) unit Some
              (fun _ => Some 1000) (fun _ => Some tt) (fun _ => None)
              (fun _ => Some (js "signer@"))
              [AdmissionFixtures.loginAt "a" 1000000;
               Admission.GetPendingLogin "a";
               Admission.VerificationDone "a"
                 (Some (AdmissionFixtures.identityOf VerifierFixtures.signer));
               Admission.ApproveLogin "a"] 3 "a")
    as (i & j & uri & reqId & sender & now & rpc & request & requestingId
        & Hlt & Hi & Hj & Hparse & Hrid & Hinput & Hok).
  - repeat constructor. by intros ?%elem_of_nil.
  - reflexivity.
  - vm_compute. reflexivity.
  - by exists i, j, uri, rpc, requestingId.
Defined.

(** ** Webhook URLs *)

Import Webhook.

Lemma decimal_digits n :
  0 ≤ n < 1000 →
  ∃ c rest, decimal n = c :: rest ∧ Forall (fun c => 48 ≤ c ≤ 57) (c :: rest).
Proof.
  intros Hn. unfold decimal.
  destruct (Z.ltb_spec n 10); [|destruct (Z.ltb_spec n 100)];
    eexists _, _; (split; [done|]); repeat constructor; arith.
Qed.

Lemma decimal_inj n m : 0 ≤ n < 1000 → 0 ≤ m < 1000 → decimal n = decimal m → n = m.
Proof.
  intros Hn Hm. unfold decimal.
  destruct (Z.ltb_spec n 10); [|destruct (Z.ltb_spec n 100)];
    (destruct (Z.ltb_spec m 10); [|destruct (Z.ltb_spec m 100)]);
    intros [=]; arith.
Qed.

(** Two strings that begin with digits and a dot *)
Lemma startsWith_component (x y p s : jsstring) :
  Forall (fun c => 48 ≤ c ≤ 57) x → Forall (fun c => 48 ≤ c ≤ 57) y →
  startsWith (x ++ 46 :: p) (y ++ 46 :: s) = bool_decide (x = y) && startsWith p s.
Proof.
  intros Hx. revert y. induction Hx as [|c x Hc _ IH]; intros y Hy.
  - destruct Hy as [|d y Hd _]; cbn [app startsWith].
    + by rewrite bool_decide_eq_true_2.
    + destruct (Z.eqb_spec 46 d); [lia|]. by rewrite bool_decide_eq_false_2.
  - destruct Hy as [|d y Hd Hy]; cbn [app startsWith].
    + destruct (Z.eqb_spec c 46); [lia|]. by rewrite bool_decide_eq_false_2.
    + rewrite IH by done. destruct (Z.eqb_spec c d) as [->|Hne]; cbn [andb].
      * destruct (decide (x = y)) as [->|Hxy].
        -- by rewrite !bool_decide_eq_true_2.
        -- rewrite !bool_decide_eq_false_2; [done| |done]. by intros [=].
      * rewrite bool_decide_eq_false_2; [done|]. by intros [=].
Qed.

Lemma component_inj (x y p s : jsstring) :
  Forall (fun c => 48 ≤ c ≤ 57) x → Forall (fun c => 48 ≤ c ≤ 57) y →
  x ++ 46 :: p = y ++ 46 :: s → x = y ∧ p = s.
Proof.
  intros Hx. revert y. induction Hx as [|c x Hc _ IH]; intros y Hy Heq.
  - destruct Hy as [|d y Hd _]; simplify_eq/=; [done|lia].
  - destruct Hy as [|d y Hd Hy]; [simplify_eq/=; lia|].
    injection Heq as -> Heq. by destruct (IH y Hy Heq) as [-> ->].
Qed.

Lemma includes_absent (c : Z) (sub s : jsstring) :
  Forall (fun d => d ≠ c) s → includes (c :: sub) s = false.
Proof.
  induction 1 as [|d s Hd _ IH]; simpl; [done|].
  rewrite IH. destruct (Z.eqb_spec c d); [congruence|done].
Qed.

Lemma includes_present (c : Z) (x s : jsstring) :
  includes [c] (x ++ c :: s) = true.
Proof.
  induction x as [|d x IH]; simpl.
  - by rewrite Z.eqb_refl.
  - rewrite IH. by rewrite orb_true_r.
Qed.

Lemma decimal_Forall n : 0 ≤ n < 1000 → Forall (fun c => 48 ≤ c ≤ 57) (decimal n).
Proof. intros Hn. by destruct (decimal_digits n Hn) as (? & ? & -> & ?). Qed.

Lemma ipv4_chars a b c d :
  octet a → octet b → octet c → octet d →
  Forall (fun c => c ≠ 58) (ipv4 a b c d).
Proof.
  unfold octet, ipv4. intros Ha Hb Hc Hd.
  assert (∀ n, 0 ≤ n ≤ 255 → Forall (fun c => c ≠ 58) (decimal n)) as Hdec.
  { intros n Hn. eapply Forall_impl; [apply decimal_Forall; lia|]. simpl. lia. }
  rewrite !Forall_app, !Forall_cons, !Forall_app, !Forall_cons, !Forall_app, !Forall_cons.
  split_and!; auto; lia.
Qed.

Lemma octets : ∀ (P : Z → bool),
  forallb P (map Z.of_nat (seq 0 256)) = true → ∀ n, octet n → P n = true.
Proof.
  intros P HP n Hn. rewrite forallb_forall in HP. apply HP.
  apply in_map_iff. exists (Z.to_nat n). unfold octet in Hn.
  split; [lia|]. apply in_seq. lia.
Qed.

Lemma RE_172_ipv4 b rest :
  octet b →
  RE_172_test (decimal 172 ++ 46 :: decimal b ++ 46 :: rest)
  = (16 <=? b) && (b <=? 31).
Proof.
  intros Hb. apply Bool.eqb_prop. revert b Hb.
  apply (octets (fun b => Bool.eqb (RE_172_test (decimal 172 ++ 46 :: decimal b ++ 46 :: rest))
                            ((16 <=? b) && (b <=? 31)))).
  vm_compute. reflexivity.
Qed.

Lemma RE_100_ipv4 b rest :
  octet b →
  RE_100_test (decimal 100 ++ 46 :: decimal b ++ 46 :: rest)
  = (64 <=? b) && (b <=? 127).
Proof.
  intros Hb. apply Bool.eqb_prop. revert b Hb.
  apply (octets (fun b => Bool.eqb (RE_100_test (decimal 100 ++ 46 :: decimal b ++ 46 :: rest))
                            ((64 <=? b) && (b <=? 127)))).
  vm_compute. reflexivity.
Qed.

Lemma decimal_eqb k a :
  0 ≤ k < 1000 → 0 ≤ a < 1000 → bool_decide (decimal k = decimal a) = (k =? a).
Proof.
  intros Hk Ha. destruct (Z.eqb_spec k a) as [->|Hne].
  - by rewrite bool_decide_eq_true_2.
  - rewrite bool_decide_eq_false_2; [done|]. intros Heq. by apply decimal_inj in Heq.
Qed.

Lemma startsWith_1 k a rest :
  0 ≤ k < 1000 → octet a →
  startsWith (decimal k ++ [46]) (decimal a ++ 46 :: rest) = (k =? a).
Proof.
  unfold octet. intros Hk Ha.
  rewrite startsWith_component by (apply decimal_Forall; lia).
  rewrite decimal_eqb by lia. cbn [startsWith]. by rewrite andb_true_r.
Qed.

Lemma startsWith_2 k l a b rest :
  0 ≤ k < 1000 → 0 ≤ l < 1000 → octet a → octet b →
  startsWith (decimal k ++ 46 :: decimal l ++ [46])
             (decimal a ++ 46 :: decimal b ++ 46 :: rest)
  = (k =? a) && (l =? b).
Proof.
  unfold octet. intros Hk Hl Ha Hb.
  rewrite startsWith_component by (apply decimal_Forall; lia).
  rewrite decimal_eqb by lia. by rewrite startsWith_1.
Qed.

Lemma startsWith_3 k l m a b c rest :
  0 ≤ k < 1000 → 0 ≤ l < 1000 → 0 ≤ m < 1000 → octet a → octet b → octet c →
  startsWith (decimal k ++ 46 :: decimal l ++ 46 :: decimal m ++ [46])
             (decimal a ++ 46 :: decimal b ++ 46 :: decimal c ++ 46 :: rest)
  = (k =? a) && ((l =? b) && (m =? c)).
Proof.
  unfold octet. intros Hk Hl Hm Ha Hb Hc.
  rewrite startsWith_component by (apply decimal_Forall; lia).
  rewrite decimal_eqb by lia. by rewrite startsWith_2.
Qed.

Lemma startsWith_other (c : Z) (p : jsstring) a rest :
  ¬ (48 ≤ c ≤ 57) → octet a →
  startsWith (c :: p) (decimal a ++ rest) = false.
Proof.
  unfold octet. intros Hc Ha.
  destruct (decimal_digits a) as (c0 & t & -> & Hd); [lia|].
  apply Forall_cons in Hd as [Hc0 _]. cbn [app startsWith].
  destruct (Z.eqb_spec c c0); [lia|done].
Qed.

Lemma ipv4_other (s : jsstring) (c0 : Z) a b c d :
  head s = Some c0 → ¬ (48 ≤ c0 ≤ 57) → octet a →
  bool_decide (ipv4 a b c d = s) = false.
Proof.
  unfold octet, ipv4. intros Hs Hc0 Ha. apply bool_decide_eq_false_2. intros <-.
  destruct (decimal_digits a) as (c1 & t & Heq & Hd); [lia|].
  rewrite Heq in Hs. apply Forall_cons in Hd as [Hc1 _]. simplify_eq/=. lia.
Qed.

Lemma ipv4_eqb a b c d a' b' c' d' :
  octet a → octet b → octet c → octet d →
  octet a' → octet b' → octet c' → octet d' →
  bool_decide (ipv4 a b c d = ipv4 a' b' c' d')
  = (a =? a') && (b =? b') && (c =? c') && (d =? d').
Proof.
  unfold octet, ipv4. intros.
  destruct (decide (a = a' ∧ b = b' ∧ c = c' ∧ d = d')) as [(-> & -> & -> & ->)|Hne].
  - by rewrite bool_decide_eq_true_2, !Z.eqb_refl.
  - rewrite bool_decide_eq_false_2.
    + symmetry. apply not_true_is_false. rewrite !andb_true_iff, !Z.eqb_eq. tauto.
    + intros Heq.
      apply component_inj in Heq as [Ha Heq]; [|apply decimal_Forall; lia..].
      apply component_inj in Heq as [Hb Heq]; [|apply decimal_Forall; lia..].
      apply component_inj in Heq as [Hc Hd]; [|apply decimal_Forall; lia..].
      apply decimal_inj in Ha, Hb, Hc, Hd; try lia.
Qed.

Lemma RE_172_octets a b rest :
  octet a → octet b →
  RE_172_test (decimal a ++ 46 :: decimal b ++ 46 :: rest)
  = (172 =? a) && ((16 <=? b) && (b <=? 31)).
Proof.
  intros Ha Hb. destruct (Z.eqb_spec 172 a) as [<-|Hne].
  - by rewrite RE_172_ipv4.
  - unfold RE_172_test. change (js "172.") with (decimal 172 ++ [46]).
    rewrite startsWith_1 by (done || lia). by destruct (Z.eqb_spec 172 a).
Qed.

Lemma RE_100_octets a b rest :
  octet a → octet b →
  RE_100_test (decimal a ++ 46 :: decimal b ++ 46 :: rest)
  = (100 =? a) && ((64 <=? b) && (b <=? 127)).
Proof.
  intros Ha Hb. destruct (Z.eqb_spec 100 a) as [<-|Hne].
  - by rewrite RE_100_ipv4.
  - unfold RE_100_test. change (js "100.") with (decimal 100 ++ [46]).
    rewrite startsWith_1 by (done || lia). by destruct (Z.eqb_spec 100 a).
Qed.

Ltac some_disjunct :=
  first [ left; solve [lia] | right; some_disjunct | solve [lia] ].

Lemma hostAllowed_ipv4 a b c d :
  octet a → octet b → octet c → octet d →
  hostAllowed (ipv4 a b c d) = true ↔ ¬ refused a b c d.
Proof.
  intros Ha Hb Hc Hd. unfold hostAllowed.
  rewrite (ipv4_other (js "localhost") 108) by (done || lia).
  rewrite (ipv4_other (js "::1") 58) by (done || lia).
  change (js "127.0.0.1") with (ipv4 127 0 0 1).
  change (js "0.0.0.0") with (ipv4 0 0 0 0).
  rewrite !ipv4_eqb by (done || unfold octet; lia).
  rewrite (includes_absent 58 (js ":ffff:")) by by apply ipv4_chars.
  rewrite (includes_absent 58 []) by by apply ipv4_chars.
  unfold RE_0_test.
  change (js ".") with [46].
  rewrite (includes_present 46 (decimal a) _ : includes [46] (ipv4 a b c d) = true).
  unfold ipv4.
  rewrite RE_172_octets, RE_100_octets by done.
  change (js "[fc") with (91 :: js "fc"). change (js "[fd") with (91 :: js "fd").
  change (js "[fe80:") with (91 :: js "fe80:").
  rewrite !startsWith_other by (done || lia).
  change (js "10.") with (decimal 10 ++ [46]).
  change (js "0.") with (decimal 0 ++ [46]).
  change (js "192.168.") with (decimal 192 ++ 46 :: decimal 168 ++ [46]).
  change (js "169.254.") with (decimal 169 ++ 46 :: decimal 254 ++ [46]).
  change (js "198.18.") with (decimal 198 ++ 46 :: decimal 18 ++ [46]).
  change (js "198.19.") with (decimal 198 ++ 46 :: decimal 19 ++ [46]).
  change (js "198.51.100.") with (decimal 198 ++ 46 :: decimal 51 ++ 46 :: decimal 100 ++ [46]).
  change (js "203.0.113.") with (decimal 203 ++ 46 :: decimal 0 ++ 46 :: decimal 113 ++ [46]).
  rewrite !startsWith_1, !startsWith_2, !startsWith_3 by (done || lia).
  unfold refused. clear Ha Hb Hc Hd. cbn [orb negb].
  repeat match goal with
  | |- (if ?C then false else _) = true ↔ _ =>
      let HC := fresh "HC" in
      destruct C eqn:HC;
      [ clear -HC;
        repeat first [ rewrite orb_true_iff in HC | rewrite andb_true_iff in HC
                     | rewrite Z.eqb_eq in HC | rewrite Z.leb_le in HC ];
        split; [discriminate | intros Hn; exfalso; apply Hn; clear Hn; some_disjunct]
      | ]
  end.
  split; [intros _ Href | done].
  repeat destruct Href as [Href|Href];
    match goal with
    | HC : _ = false |- _ =>
        apply not_true_iff_false in HC; apply HC; clear -Href;
        repeat first [ rewrite orb_true_iff | rewrite andb_true_iff
                     | rewrite Z.eqb_eq | rewrite Z.leb_le ];
        solve [lia]
    end.
Qed.

(** X14. For a URL whose host the parser gives as an IPv4 address a.b.c.d,
    the webhook check passes exactly when the scheme is https and the
    address is none of: 0.x.x.x, 10.x.x.x, 127.0.0.1, 100.64-127.x.x,
    169.254.x.x, 172.16-31.x.x, 192.168.x.x, 198.18-19.x.x, 198.51.100.x,
    203.0.113.x. (Of the loopback range only 127.0.0.1 is refused.) *)
Theorem X14_webhook_refuses_reserved_ipv4
    (URL_parse : jsstring → option URL) (url scheme : jsstring) (a b c d : Z) :
  octet a → octet b → octet c → octet d →
  URL_parse url = Some (mkURL scheme (ipv4 a b c d)) →
  isValidWebhookUrl URL_parse url = true ↔
  scheme = js "https:" ∧ ¬ refused a b c d.
Proof.
  intros Ha Hb Hc Hd Hparse. unfold isValidWebhookUrl. rewrite Hparse.
  cbn [protocol hostname]. destruct (decide (scheme = js "https:")) as [->|Hne].
  - rewrite bool_decide_eq_true_2 by done. cbn [negb].
    rewrite hostAllowed_ipv4 by done. tauto.
  - rewrite bool_decide_eq_false_2 by done. cbn [negb]. split; [done|tauto].
Qed.

Lemma X14_witness :
  isValidWebhookUrl WebhookFixtures.parse (js "https://10.0.0.1") ≠ true ∧
  isValidWebhookUrl WebhookFixtures.parse (js "https://127.0.0.2") = true.
Proof.
  split.
  - intros Hvalid.
    apply (X14_webhook_refuses_reserved_ipv4 WebhookFixtures.parse
             (js "https://10.0.0.1") (js "https:") 10 0 0 1) in Hvalid
      as [_ Hnot]; [|unfold octet; lia..|reflexivity].
    apply Hnot. unfold refused. lia.
  - apply (X14_webhook_refuses_reserved_ipv4 WebhookFixtures.parse
             (js "https://127.0.0.2") (js "https:") 127 0 0 2);
      [unfold octet; lia..|reflexivity|].
    split; [reflexivity|]. unfold refused. lia.
Defined.

(** ** The session and its accounts *)

Section SessionProofs.
Import Session.
Variable deriveKeyFromSeed : list Z → Z → jsstring * jsstring.

Lemma find_derived (seed : list Z) (i : Z) (k : nat) : ∀ m,
  List.find (fun a => index a =? i)
    (map (fun j => mkAccount j (deriveKeyFromSeed seed j).1) (seqZ m (Z.of_nat k)))
  = if bool_decide (m ≤ i < m + Z.of_nat k)
    then Some (mkAccount i (deriveKeyFromSeed seed i).1) else None.
Proof.
  induction k as [|k IH]; intros m.
  - simpl. rewrite bool_decide_eq_false_2 by lia. done.
  - rewrite seqZ_cons by lia. cbn [map List.find index].
    replace (Z.pred (Z.of_nat (S k))) with (Z.of_nat k) by lia.
    destruct (Z.eqb_spec m i) as [->|Hne].
    + by rewrite bool_decide_eq_true_2 by lia.
    + rewrite IH. destruct (decide (m ≤ i < m + Z.of_nat (S k))).
      * by rewrite !bool_decide_eq_true_2 by lia.
      * by rewrite !bool_decide_eq_false_2 by lia.
Qed.

Lemma deriveAccounts_length seed c :
  length (deriveAccounts deriveKeyFromSeed seed c) = Z.to_nat c.
Proof. unfold deriveAccounts. by rewrite length_map, length_seqZ. Qed.

Lemma handle_kept m s :
  kept deriveKeyFromSeed s → kept deriveKeyFromSeed (handle deriveKeyFromSeed m s).
Proof.
  intros Hkept. pose proof Hkept as (Hsession & Hnone & Hsome).
  unfold MAX_ACCOUNTS in Hsome.
  destruct m as [newSeed| | | | |i]; cbn [handle].
  - (* CREATE_WALLET *)
    unfold CREATE_WALLET, kept, MAX_ACCOUNTS.
    cbn [snd session vault addressCount activeAddressIndex].
    split; [|split].
    + intros sd [= <-]. cbn [seed accounts activeIndex length].
      split; [done|]. split; [done|]. split; [reflexivity|lia].
    + intros [=].
    + intros _. exists 1. split; [done|]. split; [lia|]. exists 0. split; [done|lia].
  - (* UNLOCK_WALLET *)
    unfold UNLOCK_WALLET. destruct (vault s) as [vseed|] eqn:Hvault; [|exact Hkept].
    destruct Hsome as (c & Hc & Hrange & i & Hi & Hirange); [done|].
    rewrite Hc, Hi. unfold kept, MAX_ACCOUNTS.
    cbn [snd session vault addressCount activeAddressIndex].
    assert (or_default (Some c) 1 = c) as -> by (unfold or_default; destruct (Z.eqb_spec c 0); lia).
    assert (or_default (Some i) 0 = i) as -> by (unfold or_default; destruct (Z.eqb_spec i 0); lia).
    split; [|split].
    + intros sd [= <-]. cbn [seed accounts activeIndex].
      rewrite deriveAccounts_length, Z2Nat.id by lia.
      split; [done|]. split; [done|]. split; [done|].
      destruct (Z.ltb_spec i c); lia.
    + intros [=].
    + intros _. exists c. split; [done|]. split; [lia|]. by exists i.
  - (* LOCK_WALLET *)
    unfold LOCK_WALLET, kept. cbn [snd session vault addressCount activeAddressIndex].
    split; [done|]. by split.
  - (* RESET_WALLET *)
    unfold RESET_WALLET, kept. cbn [snd session vault addressCount activeAddressIndex].
    split; [done|]. by split.
  - (* ADD_ADDRESS *)
    unfold ADD_ADDRESS. destruct (session s) as [sd|] eqn:Hsd; [|exact Hkept].
    destruct (Hsession sd eq_refl) as (Hvault & Hcount & Haccounts & Hactive).
    unfold MAX_ACCOUNTS.
    destruct (Z.leb_spec 100 (Z.of_nat (length (accounts sd)))) as [|Hroom]; [exact Hkept|].
    unfold kept, MAX_ACCOUNTS. cbn [snd session vault addressCount activeAddressIndex].
    destruct Hsome as (c & Hc & Hrange & i & Hi & Hirange); [by rewrite Hvault|].
    rewrite Hcount in Hc. injection Hc as <-.
    cbn [seed accounts activeIndex]. rewrite length_app. cbn [length].
    split; [|split].
    + intros sd' [= <-]. cbn [seed accounts activeIndex]. rewrite length_app. cbn [length].
      split; [done|]. split; [done|]. split; [|lia].
      rewrite Nat.add_1_r. unfold deriveAccounts in *. rewrite seqZ_S, map_app.
      by rewrite <- Haccounts.
    + by rewrite Hvault.
    + intros _. eexists. split; [done|]. split; [lia|]. exists i. split; [done|lia].
  - (* SWITCH_ADDRESS *)
    unfold SWITCH_ADDRESS. destruct (session s) as [sd|] eqn:Hsd; [|exact Hkept].
    destruct (Hsession sd eq_refl) as (Hvault & Hcount & Haccounts & Hactive).
    destruct (List.find _ (accounts sd)) as [target|] eqn:Hfind; [|exact Hkept].
    rewrite Haccounts in Hfind. unfold deriveAccounts in Hfind.
    rewrite find_derived in Hfind. case_bool_decide as Hi; [|done].
    unfold kept, MAX_ACCOUNTS. cbn [snd session vault addressCount activeAddressIndex].
    destruct Hsome as (c & Hc & Hrange & _); [by rewrite Hvault|].
    rewrite Hcount in Hc. injection Hc as <-.
    split; [|split].
    + intros sd' [= <-]. cbn [seed accounts activeIndex].
      split; [done|]. split; [done|]. split; [done|lia].
    + by rewrite Hvault.
    + intros _. eexists. split; [done|]. split; [lia|]. exists i. split; [done|lia].
Qed.

Lemma run_kept ms : ∀ s,
  kept deriveKeyFromSeed s → kept deriveKeyFromSeed (run deriveKeyFromSeed ms s).
Proof.
  unfold run. induction ms as [|m ms IH]; intros s Hs; [done|].
  cbn [foldl]. by apply IH, handle_kept.
Qed.

(** X15. Whatever messages have been handled since a fresh install, an
    unlocked session holds between 1 and 100 accounts, the accounts derived
    from its seed at the indices 0, 1, 2, ... in order, and its active index
    is one of them: the active account is the one at that index, so the
    address shown is the address of the key [getActiveWif] derives. *)
Theorem X15_active_account_matches_key (ms : list message) (sd : SessionData) :
  session (run deriveKeyFromSeed ms fresh) = Some sd →
  (1 ≤ length (accounts sd) ≤ 100)%nat ∧
  accounts sd = deriveAccounts deriveKeyFromSeed (seed sd)
                  (Z.of_nat (length (accounts sd))) ∧
  getActiveAccount sd
    = Some (mkAccount (activeIndex sd)
              (deriveKeyFromSeed (seed sd) (activeIndex sd)).1) ∧
  getActiveWif deriveKeyFromSeed sd
    = (deriveKeyFromSeed (seed sd) (activeIndex sd)).2.
Proof.
  intros Hsd.
  assert (kept deriveKeyFromSeed fresh) as Hfresh by (by split_and!).
  apply (run_kept ms) in Hfresh as (Hsession & _ & Hsome).
  destruct (Hsession sd Hsd) as (Hvault & Hcount & Haccounts & Hactive).
  destruct Hsome as (c & Hc & Hrange & _); [by rewrite Hvault|].
  rewrite Hcount in Hc. injection Hc as <-. unfold MAX_ACCOUNTS in *.
  split_and!; [lia|lia|done| |done].
  unfold getActiveAccount. rewrite Haccounts at 1. unfold deriveAccounts.
  rewrite find_derived. by rewrite bool_decide_eq_true_2 by lia.
Qed.

End SessionProofs.

Lemma X15_witness :
  ∃ sd,
    Session.session
      (Session.run SessionFixtures.derive
         [Session.CreateWallet [1; 2; 3]; Session.AddAddress;
          Session.SwitchAddress 1; Session.LockWallet; Session.UnlockWallet]
         Session.fresh) = Some sd ∧
    Session.getActiveAccount sd
      = Some (Session.mkAccount 1 (SessionFixtures.derive [1; 2; 3] 1).1).
Proof.
  eexists. split; [vm_compute; reflexivity|].
  refine (proj1 (proj2 (proj2
    (X15_active_account_matches_key SessionFixtures.derive
       [Session.CreateWallet [1; 2; 3]; Session.AddAddress;
        Session.SwitchAddress 1; Session.LockWallet; Session.UnlockWallet]
       _ _)))).
  vm_compute. reflexivity.
Defined.

(** ** The debug log *)

Lemma debugLog_last (entry : jsstring) (memoryLogs : list jsstring) :
  DebugLog.debugLog entry memoryLogs
  = drop (length (memoryLogs ++ [entry]) - DebugLog.MAX_LOGS) (memoryLogs ++ [entry]).
Proof.
  unfold DebugLog.debugLog. cbv zeta.
  destruct (Nat.ltb_spec DebugLog.MAX_LOGS (length (memoryLogs ++ [entry]))) as [Hlt|Hge];
    [done|].
  by replace (length (memoryLogs ++ [entry]) - DebugLog.MAX_LOGS)%nat with 0%nat by lia.
Qed.

Lemma perform_last (cs : list DebugLog.call) : ∀ (all : list jsstring),
  foldl DebugLog.perform (drop (length all - DebugLog.MAX_LOGS) all) cs
  = drop (length (DebugLog.sinceClear cs all) - DebugLog.MAX_LOGS)
         (DebugLog.sinceClear cs all).
Proof.
  induction cs as [|[entry|] cs IH]; intros all; cbn [foldl DebugLog.sinceClear DebugLog.perform].
  - done.
  - rewrite <- IH. f_equal. rewrite debugLog_last.
    rewrite !length_app, length_drop. cbn [length].
    destruct (Nat.le_gt_cases (length all) DebugLog.MAX_LOGS) as [Hle|Hgt].
    + replace (length all - DebugLog.MAX_LOGS)%nat with 0%nat by lia.
      rewrite !drop_0. by rewrite Nat.sub_0_r.
    + unfold DebugLog.MAX_LOGS in *.
      rewrite !drop_app_le by (rewrite ?length_drop; lia).
      rewrite drop_drop. do 2 f_equal. lia.
  - unfold DebugLog.clearDebugLogs. exact (IH []).
Qed.

(** X16. The debug log is a window on the last 200 lines: after any calls of
    [debugLog] and [clearDebugLogs], [getDebugLogs] returns the lines logged
    since the last clear, oldest first, or the last 200 of them when there
    are more; it never holds more than 200 lines. *)
Theorem X16_debug_log_keeps_the_last_200 (cs : list DebugLog.call) :
  let logs := DebugLog.getDebugLogs (foldl DebugLog.perform [] cs) in
  let logged := DebugLog.sinceClear cs [] in
  logs = drop (length logged - 200) logged ∧
  (length logs ≤ 200)%nat ∧
  (length logs = Nat.min (length logged) 200)%nat.
Proof.
  cbv zeta. unfold DebugLog.getDebugLogs.
  pose proof (perform_last cs []) as Hlast.
  change (drop (length (@nil jsstring) - DebugLog.MAX_LOGS) []) with (@nil jsstring) in Hlast.
  rewrite Hlast. unfold DebugLog.MAX_LOGS. rewrite length_drop.
  split; [done|]. lia.
Qed.

(** ** The other answers of the Electrum client *)

Lemma isSafeInt_Some (v : json) (z : Z) :
  isSafeInt v = Some z → v = JNum (Integer z) ∧ - MAX_SAFE_INTEGER ≤ z ≤ MAX_SAFE_INTEGER.
Proof.
  unfold isSafeInt. destruct v as [| | |[z'| |]| | |]; try done.
  destruct (Z.leb_spec (Z.abs z') MAX_SAFE_INTEGER); [|done].
  intros [= <-]. split; [done|lia].
Qed.

Lemma validateSummaries_validated (items : list json) (txs : list TransactionSummary) :
  validateSummaries items = Answer txs →
  length txs = length items ∧
  Forall (fun t => HEX64_RE_test (txid t) = true ∧
                   - MAX_SAFE_INTEGER ≤ tx_height t ≤ MAX_SAFE_INTEGER ∧
                   tx_value t = 0 ∧
                   (tx_confirmed t = true ↔ 0 < tx_height t)) txs.
Proof.
  revert txs. induction items as [|t items IH]; intros txs; cbn [validateSummaries].
  - by intros [= <-].
  - destruct (validateSummary t) as [summary|] eqn:Ht; [|done].
    destruct (validateSummaries items) as [rest|]; [|done].
    intros [= <-]. destruct (IH rest eq_refl) as [Hlen Hall].
    split; [cbn [length]; lia|]. constructor; [|done].
    unfold validateSummary in Ht.
    destruct (field t (js "tx_hash")) as [h|]; [|done].
    destruct (isHex64 h) as [hash|] eqn:Hh; [|done].
    destruct (field t (js "height")) as [ht|]; [|done].
    destruct (isSafeInt ht) as [height|] eqn:Hht; [|done].
    injection Ht as <-. cbn [txid tx_height tx_value tx_confirmed].
    apply isSafeInt_Some in Hht as [_ Hrange].
    unfold isHex64 in Hh. destruct h; try done.
    destruct (HEX64_RE_test s) eqn:Hs; [|done]. injection Hh as <-.
    split_and!; [done|lia|lia|done|]. apply Z.ltb_lt.
Qed.

(** X17. What the Electrum client returns has been checked: a balance has a
    confirmed part that is a safe integer and not negative and an
    unconfirmed part that is a safe integer; every listed transaction has a
    64-character hex id and a safe-integer height, and counts as confirmed
    exactly when its height is positive; a raw transaction is a non-empty
    hex string; a block height is a safe integer and not negative. A script
    hash or transaction id that is not 64 hex characters is refused whatever
    the proxy answers. *)
Theorem X17_electrum_answers_are_checked :
  (∀ scripthash response now b,
     getBalance scripthash response now = Answer b →
     HEX64_RE_test scripthash = true ∧
     0 ≤ confirmed b ≤ MAX_SAFE_INTEGER ∧
     - MAX_SAFE_INTEGER ≤ unconfirmed b ≤ MAX_SAFE_INTEGER ∧
     lastUpdated b = now) ∧
  (∀ scripthash response txs,
     listTransactions scripthash response = Answer txs →
     HEX64_RE_test scripthash = true ∧
     Forall (fun t => HEX64_RE_test (txid t) = true ∧
                      - MAX_SAFE_INTEGER ≤ tx_height t ≤ MAX_SAFE_INTEGER ∧
                      tx_value t = 0 ∧
                      (tx_confirmed t = true ↔ 0 < tx_height t)) txs) ∧
  (∀ id response raw,
     getTransaction id response = Answer raw →
     HEX64_RE_test id = true ∧ raw ≠ [] ∧ forallb isHexChar raw = true) ∧
  (∀ response height,
     getCurrentBlock response = Answer height → 0 ≤ height ≤ MAX_SAFE_INTEGER) ∧
  (∀ v response now,
     HEX64_RE_test v = false →
     getBalance v response now = Failure InvalidHex64 ∧
     listTransactions v response = Failure InvalidHex64 ∧
     listUnspent v response = Failure InvalidHex64 ∧
     getTransaction v response = Failure InvalidHex64).
Proof.
  split_and!.
  - intros scripthash response now b. unfold getBalance.
    destruct (HEX64_RE_test scripthash); [|done]. cbn [negb].
    repeat case_match; try done. intros [= <-].
    cbn [confirmed unconfirmed lastUpdated].
    repeat match goal with
           | Hs : isSafeInt _ = Some _ |- _ => apply isSafeInt_Some in Hs as [_ Hs]
           | Hl : (_ <? _) = false |- _ => apply Z.ltb_ge in Hl
           end.
    split_and!; try done; lia.
  - intros scripthash response txs. unfold listTransactions.
    destruct (HEX64_RE_test scripthash); [|done]. cbn [negb].
    destruct response as [[]|]; try done.
    intros [_ Hall]%validateSummaries_validated. done.
  - intros id response raw. unfold getTransaction.
    destruct (HEX64_RE_test id); [|done]. cbn [negb].
    destruct response as [[]|]; try done.
    destruct (HEX_RE_test s) eqn:Hs; [|done]. intros [= <-].
    unfold HEX_RE_test in Hs. by destruct s.
  - intros response height. unfold getCurrentBlock.
    destruct response as [r|]; [|done].
    destruct (isSafeInt r) as [h|] eqn:Hh; [|done].
    destruct (Z.ltb_spec h 0); [done|]. intros [= <-].
    apply isSafeInt_Some in Hh as [_ Hh]. lia.
  - intros v response now Hv.
    unfold getBalance, listTransactions, listUnspent, getTransaction. by rewrite Hv.
Qed.

Lemma X17_witness :
  getCurrentBlock (Answer (JNum (Integer 5))) = Answer 5 ∧ 0 ≤ 5 ≤ MAX_SAFE_INTEGER.
Proof.
  split; [reflexivity|].
  destruct X17_electrum_answers_are_checked as (_ & _ & _ & Hblock & _).
  exact (Hblock (Answer (JNum (Integer 5))) 5 eq_refl).
Defined.

(** ** The conversion builder *)

Section ConversionProofs.
Import Conversion.
Context `{UtxoLib}.
Variable conversionScript :
  jsstring → Z → jsstring → jsstring → jsstring → bool → option Buffer.




End ConversionProofs.

